(** * Consistent hashing with virtual nodes

    A shallow embedding of the program [main.go] that
    [consistent-hashing/README.md] carries (lines 168 to 422): the type
    [ConsistentHashing] and its methods [GetNode], [AddNode] and
    [RemoveNode], the total of [printNodeStats], [verifyKeys] and [main],
    followed by the properties of the ring index, of ownership resolution, of
    the two rebalancing protocols and of the program as a whole.

    Conventions of the embedding:
    - a [uint32] is a [Z] in [0, 2^32); an [int] is a [Z];
    - a Go [string] is a [string] (a sequence of bytes);
    - a Go [map] is a [gmap]; reading a missing key gives the zero value,
      writing into a [nil] map panics;
    - [for k, v := range m] visits the entries of [m] in an order the language
      leaves open: the methods take the order as a parameter [range], any
      function that lists the entries of a map, and the properties are
      proved for every such function;
    - a panic is the result [Panic]; a normal return is [Ret]. *)

From Stdlib Require Import ZArith Lia Ascii String DecimalString.
From Stdlib Require DecimalZ DecimalPos.
From stdpp Require Import base tactics option list list_numbers sorting.
From stdpp Require Import gmap strings fin_maps fin_sets.

Local Open Scope string_scope.
Local Open Scope Z_scope.

(** ** [hash/crc32]: the IEEE checksum, bit by bit *)

Module crc32.

(** The reversed IEEE polynomial, [crc32.IEEE]. *)
Definition IEEE : Z := 0xedb88320.

(** One shift of the register: the low bit decides whether the polynomial
    is folded in. *)
Definition update_bit (crc : Z) : Z :=
  if Z.testbit crc 0 then Z.lxor (Z.shiftr crc 1) IEEE else Z.shiftr crc 1.

Definition update_byte (crc : Z) (b : ascii) : Z :=
  Nat.iter 8 update_bit (Z.lxor crc (Z.of_N (N_of_ascii b))).

(** [crc32.ChecksumIEEE(data)]: register preset to all ones, every byte
    folded in, result complemented. *)
Definition ChecksumIEEE (data : string) : Z :=
  Z.lxor (fold_left update_byte (list_ascii_of_string data) 0xffffffff)
         0xffffffff.

End crc32.

(** [hashKey] generates a uint32 hash for a string key (lines 193-196). *)
Definition hashKey (key : string) : Z := crc32.ChecksumIEEE key.

(** [strconv.Itoa], the rendering of [%d]. *)
Definition itoa (i : Z) : string := NilZero.string_of_int (Z.to_int i).

(** [fmt.Sprintf("%s#%d", nodeName, i)] *)
Definition vnodeKey (nodeName : string) (i : Z) : string :=
  nodeName ++ "#" ++ itoa i.

(** ** The data model (lines 177-191) *)

Record ConsistentHashing := mkCH {
  ring : list Z;                          (* ring    []uint32 *)
  hashMap : gmap Z string;                (* hashMap map[uint32]string *)
  nodes : gmap string (gmap string string); (* nodes map[string]map[string]string *)
  vnodes : Z                              (* vnodes  int *)
}.

Definition NewConsistentHashing (vnodes : Z) : ConsistentHashing :=
  {| ring := []; hashMap := ∅; nodes := ∅; vnodes := vnodes |}.

(** The two errors the methods build with [fmt.Errorf]. *)
Inductive error :=
  | ErrEmptyRing                      (* "no nodes in the ring" *)
  | ErrNodeNotFound (nodeName : string). (* "node '%s' not found" *)

(** What the methods print: the diagnostics of [AddNode] and [RemoveNode].
    The per-node counts are kept as the map the code prints from. *)
Inductive message :=
  | MsgNodeAlreadyExists (nodeName : string)
  | MsgAdding (nodeName : string)
  | MsgMovedTo (keysMoved : Z) (nodeName : string) (movesBySource : gmap string Z)
  | MsgRemoving (nodeName : string)
  | MsgMovedFrom (count : Z) (nodeName : string) (movesByDest : gmap string Z).

(** A call either returns or panics. *)
Inductive result (A : Type) :=
  | Panic
  | Ret (a : A).
Arguments Panic {A}.
Arguments Ret {A} a.

Definition bind {A B} (r : result A) (k : A → result B) : result B :=
  match r with Panic => Panic | Ret a => k a end.

Notation "x ←! r ; k" := (bind r (λ x, k))
  (at level 20, r at level 100, k at level 200, right associativity,
   format "x  ←!  r ;  '/' k").

(** A [for] loop over a list whose body may panic. *)
Fixpoint for_each {S A} (body : S → A → result S) (l : list A) (s : S) : result S :=
  match l with
  | [] => Ret s
  | a :: l' => s' ←! body s a; for_each body l' s'
  end.

(** ** [sort.Search] *)

(** The loop of [sort.Search]: invariant [f (i-1) = false], [f j = true];
    [fuel] bounds the iterations. *)
Fixpoint search_loop (fuel : nat) (f : nat → bool) (i j : nat) : nat :=
  match fuel with
  | O => i
  | S fuel' =>
      if decide (i < j)%nat then
        let h := ((i + j) / 2)%nat in
        if f h then search_loop fuel' f i h
        else search_loop fuel' f (h + 1)%nat j
      else i
  end.

(** [sort.Search(n, f)]; the interval shrinks at every iteration, so [n]
    iterations are enough (lemma [search_loop_fuel]). The loop calls [f]
    below [n] only (lemma [Search_ext]), so what the closure of [GetNode]
    reads past the end of the ring does not matter. *)
Definition Search (n : nat) (f : nat → bool) : nat := search_loop n f 0%nat n.

(** ** [GetNode] finds the node responsible for a data key (lines 199-220) *)

Definition GetNode (ch : ConsistentHashing) (key : string) : string * option error :=
  if decide (length (ring ch) = 0%nat) then ("", Some ErrEmptyRing)
  else
    let keyHash := hashKey key in
    let idx := Search (length (ring ch))
                 (λ i, bool_decide (keyHash ≤ ring ch !!! i)) in
    let idx := if decide (idx = length (ring ch)) then 0%nat else idx in
    let nodeHash := ring ch !!! idx in
    (default "" (hashMap ch !! nodeHash), None).

(** ** Iteration over maps *)

(** How a [range] loop lists the entries of a map with string keys. *)
Definition ranger : Type := ∀ A : Type, gmap string A → list (string * A).

(** The only thing the language promises: every entry is visited once. *)
Definition fair (range : ranger) : Prop :=
  ∀ (A : Type) (m : gmap string A), range A m ≡ₚ map_to_list m.

(** The order stdpp lists a map in; one of the fair orders. *)
Definition canonical : ranger := λ A m, map_to_list m.

(** ** Reads and writes of [ch.nodes[node][key]] *)

Abbreviation stores := (gmap string (gmap string string)).

(** [ch.nodes[node][key]]: a missing store or a missing key reads as [""]. *)
Definition store_get (ns : stores) (node key : string) : string :=
  default "" (default ∅ (ns !! node) !! key).

(** [ch.nodes[node][key] = value]: writing into a [nil] map panics. *)
Definition store_set (ns : stores) (node key value : string) : result stores :=
  match ns !! node with
  | None => Panic
  | Some data => Ret (<[node := <[key := value]> data]> ns)
  end.

(** [delete(ch.nodes[node], key)]: no effect on a [nil] map. *)
Definition store_delete (ns : stores) (node key : string) : stores :=
  alter (delete key) node ns.

(** [counts[name]++] *)
Definition incr (counts : gmap string Z) (name : string) : gmap string Z :=
  <[name := default 0 (counts !! name) + 1]> counts.

(** ** [AddNode] adds a node and redistributes data from other nodes to it
       (lines 222-279) *)

(** Body of [for i := 0; i < ch.vnodes; i++] in [AddNode]. *)
Definition add_vnode (nodeName : string) (ch : ConsistentHashing) (i : Z) :
    ConsistentHashing :=
  let hash := hashKey (vnodeKey nodeName i) in
  {| ring := (ring ch ++ [hash])%list;
     hashMap := <[hash := nodeName]> (hashMap ch);
     nodes := nodes ch;
     vnodes := vnodes ch |}.

(** [sort.Slice(ch.ring, func(i, j int) bool { return ch.ring[i] < ch.ring[j] })] *)
Definition sort_ring (r : list Z) : list Z := merge_sort Z.le r.

(** Body of [for key := range data]: the key is a candidate when the ring,
    already in its final state, names the new node. *)
Definition collect_key (ch : ConsistentHashing) (nodeName sourceNode : string)
    (keysToMove : gmap string (list string)) (key : string) :
    gmap string (list string) :=
  let '(targetNode, _) := GetNode ch key in
  if decide (targetNode = nodeName)
  then <[sourceNode := (default [] (keysToMove !! sourceNode) ++ [key])%list]> keysToMove
  else keysToMove.

(** Body of [for sourceNode, data := range ch.nodes]. *)
Definition collect_node (range : ranger) (ch : ConsistentHashing) (nodeName : string)
    (keysToMove : gmap string (list string)) (entry : string * gmap string string) :
    gmap string (list string) :=
  let '(sourceNode, data) := entry in
  if decide (sourceNode = nodeName) then keysToMove
  else foldl (collect_key ch nodeName sourceNode) keysToMove (range _ data).*1.

(** The variables the second loop of [AddNode] updates. *)
Record moving := mkMoving {
  mv_nodes : stores;
  movesBySource : gmap string Z;
  keysMoved : Z
}.

(** Body of [for _, key := range keys]. *)
Definition move_key (nodeName sourceNode : string) (st : moving) (key : string) :
    result moving :=
  let value := store_get (mv_nodes st) sourceNode key in
  ns ←! store_set (mv_nodes st) nodeName key value;
  Ret {| mv_nodes := store_delete ns sourceNode key;
         movesBySource := incr (movesBySource st) sourceNode;
         keysMoved := keysMoved st + 1 |}.

(** Body of [for sourceNode, keys := range keysToMove]. *)
Definition move_node (nodeName : string) (st : moving) (entry : string * list string) :
    result moving :=
  let '(sourceNode, keys) := entry in
  for_each (move_key nodeName sourceNode) keys st.

(** Step 1 of [AddNode]: register the store, append the VNodes, sort. *)
Definition add_to_ring (ch : ConsistentHashing) (nodeName : string) : ConsistentHashing :=
  let ch := {| ring := ring ch; hashMap := hashMap ch;
               nodes := <[nodeName := ∅]> (nodes ch); vnodes := vnodes ch |} in
  let ch := foldl (add_vnode nodeName) ch (seqZ 0 (vnodes ch)) in
  {| ring := sort_ring (ring ch); hashMap := hashMap ch;
     nodes := nodes ch; vnodes := vnodes ch |}.

(** First loop of step 2: [keysToMove], the candidates by source node. *)
Definition keys_to_move (range : ranger) (ch : ConsistentHashing) (nodeName : string) :
    gmap string (list string) :=
  foldl (collect_node range ch nodeName) ∅ (range _ (nodes ch)).

Definition AddNode (range : ranger) (ch : ConsistentHashing) (nodeName : string) :
    result (ConsistentHashing * list message) :=
  if decide (is_Some (nodes ch !! nodeName)) then
    Ret (ch, [MsgNodeAlreadyExists nodeName])
  else
    (* 1. Add the new node and its VNodes to the ring first. *)
    let ch := add_to_ring ch nodeName in
    (* 2. Find and move the data that now belongs to the new node. *)
    let keysToMove := keys_to_move range ch nodeName in
    st ←! for_each (move_node nodeName) (range _ keysToMove)
            {| mv_nodes := nodes ch; movesBySource := ∅; keysMoved := 0 |};
    Ret ({| ring := ring ch; hashMap := hashMap ch;
            nodes := mv_nodes st; vnodes := vnodes ch |},
         [MsgAdding nodeName; MsgMovedTo (keysMoved st) nodeName (movesBySource st)]).

(** ** [RemoveNode] removes a node and redistributes its data to other nodes
       (lines 281-326) *)

(** Body of [for i := 0; i < ch.vnodes; i++] in [RemoveNode]: the pair is
    [hashesToRemove] and [ch.hashMap]. *)
Definition remove_vnode (nodeName : string) (acc : gmap Z bool * gmap Z string) (i : Z) :
    gmap Z bool * gmap Z string :=
  let hash := hashKey (vnodeKey nodeName i) in
  (<[hash := true]> acc.1, delete hash acc.2).

(** The variables the redistribution loop of [RemoveNode] updates. *)
Record arriving := mkArriving {
  ar_nodes : stores;
  movesByDest : gmap string Z
}.

(** Body of [for key, value := range dataToMove]; the error of [GetNode] is
    dropped, as in the code. *)
Definition redistribute (ch : ConsistentHashing) (st : arriving) (entry : string * string) :
    result arriving :=
  let '(key, value) := entry in
  let '(newNode, _) := GetNode ch key in
  ns ←! store_set (ar_nodes st) newNode key value;
  Ret {| ar_nodes := ns; movesByDest := incr (movesByDest st) newNode |}.

(** Steps 2 and 3 of [RemoveNode]: drop the VNodes of the node from the owner
    mapping and from the ring, then drop its store. *)
Definition remove_from_ring (ch : ConsistentHashing) (nodeName : string) :
    ConsistentHashing :=
  let '(hashesToRemove, hashMap') :=
    foldl (remove_vnode nodeName) (∅, hashMap ch) (seqZ 0 (vnodes ch)) in
  let newRing :=
    filter (λ hash, default false (hashesToRemove !! hash) = false) (ring ch) in
  {| ring := newRing; hashMap := hashMap';
     nodes := delete nodeName (nodes ch); vnodes := vnodes ch |}.

Definition RemoveNode (range : ranger) (ch : ConsistentHashing) (nodeName : string) :
    result (ConsistentHashing * option error * list message) :=
  match nodes ch !! nodeName with
  | None => Ret (ch, Some (ErrNodeNotFound nodeName), [])
  | Some dataToMove =>
      (* 1. The data to be moved is saved before the ring changes. *)
      (* 2. Remove all VNodes from the ring. 3. Delete the node. *)
      let ch := remove_from_ring ch nodeName in
      (* 4. Redistribute the data to their new destination nodes. *)
      st ←! for_each (redistribute ch) (range _ dataToMove)
              {| ar_nodes := nodes ch; movesByDest := ∅ |};
      Ret ({| ring := ring ch; hashMap := hashMap ch;
              nodes := ar_nodes st; vnodes := vnodes ch |},
           None,
           [MsgRemoving nodeName;
            MsgMovedFrom (Z.of_nat (size dataToMove)) nodeName (movesByDest st)])
  end.

(** ** The rest of the program: seeding, statistics, verification *)

(** Body of the seeding loop of [main] (lines 409-412):
    [node, _ := ch.GetNode(key); ch.nodes[node][key] = value]. *)
Definition Put (ch : ConsistentHashing) (key value : string) : result ConsistentHashing :=
  let '(node, _) := GetNode ch key in
  ns ←! store_set (nodes ch) node key value;
  Ret {| ring := ring ch; hashMap := hashMap ch; nodes := ns; vnodes := vnodes ch |}.

(** [total] of [printNodeStats] (lines 328-345): the sum of
    [len(ch.nodes[name])] over the node names (the code sorts the names
    first, for the printout only). *)
Definition totalRecords (range : ranger) (ch : ConsistentHashing) : Z :=
  let nodeNames := (range _ (nodes ch)).*1 in
  foldl (λ total name, total + Z.of_nat (size (default ∅ (nodes ch !! name))))
        0 nodeNames.

(** [verifyKeys] (lines 347-378): the pair [(correct, incorrect)] it prints. A
    key found on no node and a key found on another node than [GetNode] names
    both count as incorrect. *)
Definition verifyKeys (range : ranger) (ch : ConsistentHashing)
    (users : gmap string string) : Z * Z :=
  let actualLocations : gmap string string :=
    foldl (λ locs '(nodeName, data),
             foldl (λ locs key, <[key := nodeName]> locs) locs (range _ data).*1)
          ∅ (range _ (nodes ch)) in
  foldl (λ '(correct, incorrect) key,
           let '(expectedNode, _) := GetNode ch key in
           match actualLocations !! key with
           | None => (correct, incorrect + 1)
           | Some actualNode =>
               if decide (expectedNode = actualNode) then (correct + 1, incorrect)
               else (correct, incorrect + 1)
           end)
        (0, 0) (range _ users).*1.

(** ** [main] (lines 380-422) *)

(** The records [main] creates: [user_i] with the value [data_for_user_i],
    for [i] below [numUsers]. *)
Definition make_users (numUsers : Z) : gmap string string :=
  foldl (λ users i, let key := "user_" ++ itoa i in
                    <[key := "data_for_" ++ key]> users)
        ∅ (seqZ 0 numUsers).

(** What [main] does for one initial node: it registers an empty store and
    appends the VNodes, with the statements of [AddNode], and leaves the
    ring unsorted. *)
Definition register (ch : ConsistentHashing) (nodeName : string) : ConsistentHashing :=
  foldl (add_vnode nodeName)
        {| ring := ring ch; hashMap := hashMap ch;
           nodes := <[nodeName := ∅]> (nodes ch); vnodes := vnodes ch |}
        (seqZ 0 (vnodes ch)).

(** [sort.Slice(ch.ring, ...)] on a state. *)
Definition sort_Slice (ch : ConsistentHashing) : ConsistentHashing :=
  {| ring := sort_ring (ring ch); hashMap := hashMap ch;
     nodes := nodes ch; vnodes := vnodes ch |}.

(** The loop over the initial nodes [node-0], [node-1], ... and the one
    [sort.Slice] after it. *)
Definition init_nodes (ch : ConsistentHashing) (initialNodes : Z) : ConsistentHashing :=
  sort_Slice (foldl (λ ch i, register ch ("node-" ++ itoa i)) ch (seqZ 0 initialNodes)).

(** The loop that distributes the initial records. *)
Definition seed (range : ranger) (ch : ConsistentHashing) (users : gmap string string) :
    result ConsistentHashing :=
  for_each (λ ch entry, Put ch entry.1 entry.2) (range _ users) ch.

(** [main] with its three constants as arguments. It returns what the run
    prints last of each [printNodeStats], the three totals, and the two
    counts of [verifyKeys]. The error of [RemoveNode] is not looked at. *)
Definition main_with (range : ranger) (numUsers initialNodes numVNodes : Z) :
    result (list Z * (Z * Z)) :=
  let users := make_users numUsers in
  let ch := NewConsistentHashing numVNodes in
  let ch := init_nodes ch initialNodes in
  ch ←! seed range ch users;
  let total1 := totalRecords range ch in
  r ←! RemoveNode range ch "node-4";
  let ch := r.1.1 in
  let total2 := totalRecords range ch in
  r ←! AddNode range ch "node-10";
  let ch := r.1 in
  let total3 := totalRecords range ch in
  Ret ([total1; total2; total3], verifyKeys range ch users).

Definition main (range : ranger) : result (list Z * (Z * Z)) :=
  main_with range 1000000 10 1000.

(** ** Runs of the program *)

(** The calls a client makes on a ring. *)
Inductive op :=
  | OpAdd (nodeName : string)
  | OpRemove (nodeName : string)
  | OpPut (key value : string).

Definition step (range : ranger) (ch : ConsistentHashing) (o : op) :
    result ConsistentHashing :=
  match o with
  | OpAdd nodeName => r ←! AddNode range ch nodeName; Ret r.1
  | OpRemove nodeName => r ←! RemoveNode range ch nodeName; Ret r.1.1
  | OpPut key value => Put ch key value
  end.

(** A ring built by [NewConsistentHashing] and driven by a sequence of calls. *)
Definition run (range : ranger) (vnodes : Z) (ops : list op) : result ConsistentHashing :=
  for_each (step range) ops (NewConsistentHashing vnodes).

(** ** Vocabulary of the properties *)

(** The owner recorded for a position, [ch.hashMap[nodeHash]]. *)
Definition owner (ch : ConsistentHashing) (p : Z) : string :=
  default "" (hashMap ch !! p).

(** The positions [hashKey(nodeName#0)], ..., [hashKey(nodeName#(v-1))] of a
    node, in the order the loops of [AddNode] and [RemoveNode] compute them. *)
Definition vnodeHashes (nodeName : string) (v : Z) : list Z :=
  (λ i, hashKey (vnodeKey nodeName i)) <$> seqZ 0 v.

(** Clockwise successor with wrap-around: [p] is the least position at or
    after [h], or the least position of all when none is at or after [h]. *)
Definition resolves (r : list Z) (h p : Z) : Prop :=
  p ∈ r ∧
  ((h ≤ p ∧ ∀ q, q ∈ r → h ≤ q → p ≤ q) ∨
   ((∀ q, q ∈ r → q < h) ∧ ∀ q, q ∈ r → p ≤ q)).

(** The record [(key, value)] is in the store of [node]. *)
Definition stored (ns : stores) (node key value : string) : Prop :=
  ∃ data, ns !! node = Some data ∧ data !! key = Some value.

(** Every stored key is on the node [GetNode] names (the comparison
    [expectedNode == actualNode] of [verifyKeys]). *)
Definition placed (ch : ConsistentHashing) : Prop :=
  ∀ node key value, stored (nodes ch) node key value → (GetNode ch key).1 = node.

(** A key is in the store of one node at most. *)
Definition unique_keys (ns : stores) : Prop :=
  ∀ n1 n2 k v1 v2, stored ns n1 k v1 → stored ns n2 k v2 → n1 = n2.

(** The number of records over all the stores. *)
Definition records (ns : stores) : nat :=
  sum_list_with (λ entry, size entry.2) (map_to_list ns).

(** The second loop of [AddNode], flattened: the moves in the order they are
    made, each a source node and a key. *)
Definition moves_of (l : list (string * list string)) : list (string * string) :=
  l ≫= λ entry, pair entry.1 <$> entry.2.

Definition move_pair (nodeName : string) (st : moving) (mv : string * string) :
    result moving :=
  move_key nodeName mv.1 st mv.2.

(** The ring index is well formed: sorted, the same positions in the ring
    and in the owner mapping, and every recorded owner a registered node that
    has the position among its VNodes. *)
Record ring_ok (ch : ConsistentHashing) : Prop := mk_ring_ok {
  ring_sorted : Sorted Z.le (ring ch);
  ring_keys : ∀ p, p ∈ ring ch ↔ is_Some (hashMap ch !! p);
  ring_owners : ∀ p n, hashMap ch !! p = Some n →
                       is_Some (nodes ch !! n) ∧ p ∈ vnodeHashes n (vnodes ch)
}.

(** The node names a run adds. *)
Definition added (ops : list op) : list string :=
  ops ≫= λ o, match o with OpAdd nodeName => [nodeName] | _ => [] end.

(** No two VNodes of the given nodes hash to the same position. *)
Definition collision_free (v : Z) (names : list string) : Prop :=
  NoDup (remove_dups names ≫= λ nodeName, vnodeHashes nodeName v).

(** What holds of every state of a run that adds nodes among [names] to a
    ring of [v] VNodes per node; the last part only when the VNodes of
    [names] do not collide. *)
Definition run_inv (v : Z) (names : list string) (ch : ConsistentHashing) : Prop :=
  ring_ok ch ∧ vnodes ch = v ∧
  (∀ n, is_Some (nodes ch !! n) → n ∈ names) ∧
  (collision_free v names →
   NoDup (ring ch) ∧ placed ch ∧
   ∀ n p, is_Some (nodes ch !! n) → p ∈ vnodeHashes n v → p ∈ ring ch).

(** [actualLocations] of [verifyKeys]: for each stored key, the node of the
    store the first loop saw it in last. *)
Definition actualLocations (range : ranger) (ns : stores) : gmap string string :=
  foldl (λ locs '(nodeName, data),
           foldl (λ locs key, <[key := nodeName]> locs) locs (range _ data).*1)
        ∅ (range _ ns).

(** The comparison [verifyKeys] makes for one key. *)
Definition located (range : ranger) (ch : ConsistentHashing) (key : string) : Prop :=
  actualLocations range (nodes ch) !! key = Some (GetNode ch key).1.

#[global] Instance located_dec range ch key : Decision (located range ch key).
Proof. unfold located. apply _. Defined.

(** The names of the initial nodes of [main]. *)
Definition node_names (initialNodes : Z) : list string :=
  (λ i, "node-" ++ itoa i) <$> seqZ 0 initialNodes.

(** Whether a list of positions is strictly increasing. *)
Fixpoint increasing (l : list Z) : bool :=
  match l with
  | x :: l' => match l' with y :: _ => (x <? y) && increasing l' | [] => true end
  | [] => true
  end.

(** ** Example rings *)

(** The state a run ends in, when it does not panic. *)
Definition final (r : result ConsistentHashing) : ConsistentHashing :=
  match r with Ret ch => ch | Panic => NewConsistentHashing 0 end.

(** Two nodes with two VNodes each and four records: [user_0] on [B],
    [user_8] on [A], and [user_36] (on [B]) and [user_37] (on [A]) that a
    third node [C] would claim. *)
Definition demo_ops : list op :=
  [OpAdd "A"; OpAdd "B";
   OpPut "user_0" "data_for_user_0"; OpPut "user_8" "data_for_user_8";
   OpPut "user_36" "data_for_user_36"; OpPut "user_37" "data_for_user_37"].

Definition demo : ConsistentHashing := final (run canonical 2 demo_ops).

(** One VNode per node. [node-2abx0lg#0] and [node-2ll2cz5#0] have the same
    checksum 3991779628; [node-a#0] has 2620880292; the key [user_10] hashes
    to 3104477476, between the two. *)
Definition collide_ops : list op :=
  [OpAdd "node-2abx0lg"; OpAdd "node-2ll2cz5"; OpAdd "node-a";
   OpPut "user_10" "data_for_user_10"].

Definition collide : ConsistentHashing := final (run canonical 1 collide_ops).

(** A single node that holds one record. *)
Definition lonely : ConsistentHashing :=
  final (run canonical 1 [OpAdd "A"; OpPut "k" "v"]).

(** One node with eight VNodes, and one node with one VNode, no record. *)
Definition ringA8 : ConsistentHashing := final (run canonical 8 [OpAdd "A"]).
Definition ringA1 : ConsistentHashing := final (run canonical 1 [OpAdd "A"]).

(** The colliding ring after [node-2abx0lg] has left and [user_10] has been
    written again. *)
Definition duplicated : ConsistentHashing :=
  final (run canonical 1
           (collide_ops ++ [OpRemove "node-2abx0lg"; OpPut "user_10" "v2"])).

(** A run that never removes a node. *)
Definition no_remove (ops : list op) : Prop :=
  ∀ nodeName, OpRemove nodeName ∉ ops.

(** * Properties *)

(** ** A checksum is a [uint32] *)

Lemma lxor_uint32 a b :
  0 ≤ a < 2 ^ 32 → 0 ≤ b < 2 ^ 32 → 0 ≤ Z.lxor a b < 2 ^ 32.
Proof.
  intros Ha Hb. assert (0 ≤ Z.lxor a b) as Hnn by (apply Z.lxor_nonneg; lia).
  split; [done|].
  destruct (decide (Z.lxor a b = 0)) as [->|Hne]; [lia|].
  apply Z.log2_lt_pow2; [lia|].
  pose proof (Z.log2_lxor a b ltac:(lia) ltac:(lia)) as Hlog.
  assert (Z.log2 a < 32) as Hla.
  { destruct (decide (a = 0)) as [->|?]; [done|]. apply Z.log2_lt_pow2; lia. }
  assert (Z.log2 b < 32) as Hlb.
  { destruct (decide (b = 0)) as [->|?]; [done|]. apply Z.log2_lt_pow2; lia. }
  lia.
Qed.

Lemma update_bit_uint32 crc :
  0 ≤ crc < 2 ^ 32 → 0 ≤ crc32.update_bit crc < 2 ^ 32.
Proof.
  intros Hc. unfold crc32.update_bit.
  assert (0 ≤ Z.shiftr crc 1 < 2 ^ 32) as Hs.
  { rewrite Z.shiftr_div_pow2 by lia. change (2 ^ 1) with 2.
    change (2 ^ 32) with 4294967296 in *.
    split; [apply Z.div_pos; lia|apply Z.div_lt_upper_bound; lia]. }
  destruct (Z.testbit crc 0); [|done].
  apply lxor_uint32; [done|]. unfold crc32.IEEE.
  change (2 ^ 32) with 4294967296. lia.
Qed.

Lemma update_byte_uint32 crc b :
  0 ≤ crc < 2 ^ 32 → 0 ≤ crc32.update_byte crc b < 2 ^ 32.
Proof.
  intros Hc. unfold crc32.update_byte.
  assert (0 ≤ Z.of_N (N_of_ascii b) < 2 ^ 32) as Hb.
  { pose proof (N_ascii_bounded b). change (2 ^ 32) with 4294967296. lia. }
  pose proof (lxor_uint32 _ _ Hc Hb) as Hx. revert Hx.
  generalize (Z.lxor crc (Z.of_N (N_of_ascii b))). intros x Hx.
  do 8 (apply update_bit_uint32 in Hx). exact Hx.
Qed.

Lemma hashKey_uint32 key : 0 ≤ hashKey key < 2 ^ 32.
Proof.
  unfold hashKey, crc32.ChecksumIEEE.
  assert (0 ≤ 0xffffffff < 2 ^ 32) as Hinit
    by (change (2 ^ 32) with 4294967296; lia).
  apply lxor_uint32; [|done]. revert Hinit.
  generalize 0xffffffff.
  induction (list_ascii_of_string key) as [|b l IH]; intros crc Hc; [done|].
  simpl. apply IH. by apply update_byte_uint32.
Qed.

(** ** Binary search *)

Section search.
Variables (n : nat) (f : nat → bool).

(** The loop stays inside the interval it is given. *)
Lemma search_loop_bounds fuel i j :
  (i ≤ j)%nat → (i ≤ search_loop fuel f i j ≤ j)%nat.
Proof.
  revert i j. induction fuel as [|fuel IH]; intros i j Hij; cbn [search_loop]; [lia|].
  case_decide; [|lia].
  assert (i ≤ (i + j) / 2 < j)%nat as Hh.
  { split; [apply Nat.div_le_lower_bound; lia|apply Nat.Div0.div_lt_upper_bound; lia]. }
  set (h := ((i + j) / 2)%nat) in *. clearbody h.
  destruct (f h).
  - specialize (IH i h). lia.
  - specialize (IH (h + 1)%nat j). lia.
Qed.

Hypothesis mono : ∀ a b, (a ≤ b < n)%nat → f a = true → f b = true.

(** With enough fuel the loop returns the boundary between the indices
    where [f] is false and those where it is true. *)
Lemma search_loop_fuel fuel i j :
  (j - i ≤ fuel)%nat → (i ≤ j ≤ n)%nat →
  (∀ k, (k < i)%nat → f k = false) →
  ((j < n)%nat → f j = true) →
  let r := search_loop fuel f i j in
  (∀ k, (k < r)%nat → f k = false) ∧ ((r < n)%nat → f r = true).
Proof.
  revert i j. induction fuel as [|fuel IH]; intros i j Hfuel Hij Hlo Hhi; cbn [search_loop].
  { assert (i = j) as -> by lia. auto. }
  case_decide as Hlt.
  2:{ assert (i = j) as -> by lia. auto. }
  assert (i ≤ (i + j) / 2 < j)%nat as Hh.
  { split; [apply Nat.div_le_lower_bound; lia|apply Nat.Div0.div_lt_upper_bound; lia]. }
  set (h := ((i + j) / 2)%nat) in *. clearbody h.
  destruct (f h) eqn:Hf.
  - apply IH; [lia|lia|done|done].
  - apply IH; [lia|lia| |done].
    intros k Hk. destruct (f k) eqn:Hfk; [|done].
    rewrite (mono k h) in Hf; [done|lia|done].
Qed.

Lemma Search_first :
  (∀ k, (k < Search n f)%nat → f k = false) ∧
  ((Search n f < n)%nat → f (Search n f) = true).
Proof. apply search_loop_fuel; [lia|lia|lia|lia]. Qed.
End search.

Lemma Search_le n f : (Search n f ≤ n)%nat.
Proof. unfold Search. pose proof (search_loop_bounds f n 0 n). lia. Qed.

(** [sort.Search] calls [f] below [n] only. *)
Lemma search_loop_ext fuel f g i j n :
  (j ≤ n)%nat → (∀ k, (k < n)%nat → f k = g k) →
  search_loop fuel f i j = search_loop fuel g i j.
Proof.
  revert i j. induction fuel as [|fuel IH]; intros i j Hj Hfg; cbn [search_loop]; [done|].
  case_decide; [|done].
  assert ((i + j) / 2 < j)%nat as Hh by (apply Nat.Div0.div_lt_upper_bound; lia).
  set (h := ((i + j) / 2)%nat) in *. clearbody h.
  rewrite <-Hfg by lia. destruct (f h); apply IH; auto with lia.
Qed.

Lemma Search_ext n f g :
  (∀ k, (k < n)%nat → f k = g k) → Search n f = Search n g.
Proof. intros. by apply search_loop_ext with n. Qed.

(** ** [GetNode] *)

Lemma Sorted_lookup_le (r : list Z) i j p q :
  Sorted Z.le r → r !! i = Some p → r !! j = Some q → (i ≤ j)%nat → p ≤ q.
Proof.
  intros Hs%Sorted_StronglySorted; [|apply _]. revert i j.
  induction Hs as [|x r Hs IH Hall]; intros i j Hi Hj Hij; [done|].
  destruct i as [|i], j as [|j]; simplify_eq/=; [lia| |lia|].
  - rewrite Forall_forall in Hall. apply Hall. by eapply list_elem_of_lookup_2.
  - eapply IH; [done..|lia].
Qed.

Lemma GetNode_empty ch key :
  ring ch = [] → GetNode ch key = ("", Some ErrEmptyRing).
Proof. intros Hr. unfold GetNode. rewrite Hr. done. Qed.

(** On a ring that is not empty [GetNode] returns the owner recorded for one
    of the positions of the ring, and no error. *)
Lemma GetNode_nonempty ch key :
  ring ch ≠ [] →
  ∃ idx p, ring ch !! idx = Some p ∧ GetNode ch key = (owner ch p, None) ∧
    idx = (let i := Search (length (ring ch))
                      (λ i, bool_decide (hashKey key ≤ ring ch !!! i)) in
           if decide (i = length (ring ch)) then 0%nat else i).
Proof.
  intros Hne. unfold GetNode.
  case_decide as Hlen; [by destruct (ring ch)|].
  set (i := Search _ _).
  assert (i ≤ length (ring ch))%nat as Hi by apply Search_le.
  set (idx := if decide (i = length (ring ch)) then 0%nat else i).
  assert (idx < length (ring ch))%nat as Hidx.
  { unfold idx. case_decide; lia. }
  destruct (lookup_lt_is_Some_2 _ _ Hidx) as [p Hp].
  exists idx, p. split_and!; [done| |done].
  by rewrite (list_lookup_total_correct _ _ _ Hp).
Qed.

(** On a sorted ring the position [GetNode] reads is the clockwise successor
    of the hash of the key. *)
Lemma GetNode_sorted ch key :
  Sorted Z.le (ring ch) → ring ch ≠ [] →
  let found := Search (length (ring ch))
                 (λ i, bool_decide (hashKey key ≤ ring ch !!! i)) in
  ∃ idx p, ring ch !! idx = Some p ∧ GetNode ch key = (owner ch p, None) ∧
    ((found = idx ∧ hashKey key ≤ p ∧
      ∀ j q, ring ch !! j = Some q → (j < idx)%nat → q < hashKey key) ∨
     (found = length (ring ch) ∧ (∀ q, q ∈ ring ch → q < hashKey key) ∧
      idx = 0%nat ∧ ∀ q, q ∈ ring ch → p ≤ q)).
Proof.
  intros Hs Hne found. unfold found.
  destruct (GetNode_nonempty ch key Hne) as (idx & p & Hp & HG & Hidx).
  exists idx, p. split_and!; [done..|].
  set (f := λ i : nat, bool_decide (hashKey key ≤ ring ch !!! i)) in *.
  assert (∀ a b, (a ≤ b < length (ring ch))%nat → f a = true → f b = true) as mono.
  { intros a b [Hab Hb] Ha. unfold f in *.
    destruct (lookup_lt_is_Some_2 (ring ch) a) as [x Hx]; [lia|].
    destruct (lookup_lt_is_Some_2 (ring ch) b) as [y Hy]; [lia|].
    rewrite (list_lookup_total_correct _ _ _ Hx) in Ha.
    rewrite (list_lookup_total_correct _ _ _ Hy).
    apply bool_decide_eq_true in Ha. apply bool_decide_eq_true.
    pose proof (Sorted_lookup_le _ _ _ _ _ Hs Hx Hy Hab). lia. }
  destruct (Search_first _ f mono) as [Hlo Hhi].
  simpl in Hidx. case_decide as Hwrap.
  - right. subst idx.
    assert (∀ q, q ∈ ring ch → q < hashKey key) as Hall.
    { intros q [j Hj]%list_elem_of_lookup_1.
      pose proof (lookup_lt_Some _ _ _ Hj) as Hjlt.
      specialize (Hlo j). rewrite Hwrap in Hlo. specialize (Hlo Hjlt).
      unfold f in Hlo. rewrite (list_lookup_total_correct _ _ _ Hj) in Hlo.
      apply bool_decide_eq_false in Hlo. lia. }
    split_and!; [done..|].
    intros q [j Hj]%list_elem_of_lookup_1.
    eapply (Sorted_lookup_le _ 0%nat j); [done..|lia].
  - left. rewrite <-Hidx in Hlo, Hhi, Hwrap.
    pose proof (lookup_lt_Some _ _ _ Hp) as Hlt.
    specialize (Hhi Hlt). unfold f in Hhi.
    rewrite (list_lookup_total_correct _ _ _ Hp) in Hhi.
    apply bool_decide_eq_true in Hhi. split_and!; [done..|].
    intros j q Hj Hjlt. specialize (Hlo j Hjlt). unfold f in Hlo.
    rewrite (list_lookup_total_correct _ _ _ Hj) in Hlo.
    apply bool_decide_eq_false in Hlo. lia.
Qed.

Lemma GetNode_resolves ch key :
  Sorted Z.le (ring ch) → ring ch ≠ [] →
  ∃ p, resolves (ring ch) (hashKey key) p ∧ GetNode ch key = (owner ch p, None).
Proof.
  intros Hs Hne.
  destruct (GetNode_sorted ch key Hs Hne) as (idx & p & Hp & HG & Hcase).
  exists p. split; [|done]. split; [by eapply list_elem_of_lookup_2|].
  destruct Hcase as [(_ & Hge & Hbefore)|(_ & Hall & _ & Hmin)]; [left|right; done].
  split; [done|]. intros q [j Hj]%list_elem_of_lookup_1 Hq.
  destruct (decide (j < idx)%nat) as [Hlt|Hnlt].
  - specialize (Hbefore j q Hj Hlt). lia.
  - eapply (Sorted_lookup_le _ idx j); [done..|lia].
Qed.

(** ** The clockwise successor *)

Lemma resolves_unique r h p p' : resolves r h p → resolves r h p' → p = p'.
Proof.
  intros [Hp [[Hge Hmin]|[Hall Hmin]]] [Hp' [[Hge' Hmin']|[Hall' Hmin']]].
  - specialize (Hmin p' Hp' Hge'). specialize (Hmin' p Hp Hge). lia.
  - specialize (Hall' p Hp). lia.
  - specialize (Hall p' Hp'). lia.
  - specialize (Hmin p' Hp'). specialize (Hmin' p Hp). lia.
Qed.

(** Adding positions: the successor is the old one or one of the new. *)
Lemma resolves_grow r r' (new : list Z) h p p' :
  (∀ q, q ∈ r' ↔ q ∈ r ∨ q ∈ new) →
  resolves r h p → resolves r' h p' → p' ∈ new ∨ p' = p.
Proof.
  intros Hr' Hp [Hp' Hcase'].
  apply Hr' in Hp' as [Hp'|Hp']; [|by left]. right.
  eapply resolves_unique; [|done]. split; [done|].
  destruct Hp as [Hp Hcase].
  destruct Hcase' as [[Hge' Hmin']|[Hall' Hmin']].
  - left. split; [done|]. intros q Hq. apply Hmin', Hr'. by left.
  - right. split; intros q Hq; [apply Hall'|apply Hmin']; apply Hr'; by left.
Qed.

(** Dropping positions: a successor that stays is still the successor. *)
Lemma resolves_shrink r r' h p :
  (∀ q, q ∈ r' → q ∈ r) → p ∈ r' → resolves r h p → resolves r' h p.
Proof.
  intros Hsub Hp' [Hp Hcase]. split; [done|].
  destruct Hcase as [[Hge Hmin]|[Hall Hmin]]; [left|right]; naive_solver.
Qed.

(** ** The ring index after [AddNode] and [RemoveNode] *)

Lemma lookup_foldl_insert (nm : string) (l : list Z) (hm : gmap Z string) p :
  foldl (λ hm q, <[q := nm]> hm) hm l !! p =
  if decide (p ∈ l) then Some nm else hm !! p.
Proof.
  revert hm. induction l as [|q l IH]; intros hm; cbn [foldl].
  { rewrite decide_False; [done|apply not_elem_of_nil]. }
  rewrite IH. destruct (decide (p ∈ l)) as [Hl|Hl].
  - rewrite decide_True; [done|by right].
  - destruct (decide (p = q)) as [->|Hne].
    + rewrite lookup_insert_eq, decide_True; [done|by left].
    + rewrite lookup_insert_ne, decide_False; [done| |done].
      by intros [?|?]%elem_of_cons.
Qed.

Lemma lookup_foldl_delete (l : list Z) (hm : gmap Z string) p :
  foldl (λ hm q, delete q hm) hm l !! p =
  if decide (p ∈ l) then None else hm !! p.
Proof.
  revert hm. induction l as [|q l IH]; intros hm; cbn [foldl].
  { rewrite decide_False; [done|apply not_elem_of_nil]. }
  rewrite IH. destruct (decide (p ∈ l)) as [Hl|Hl].
  - rewrite decide_True; [done|by right].
  - destruct (decide (p = q)) as [->|Hne].
    + rewrite lookup_delete_eq, decide_True; [done|by left].
    + rewrite lookup_delete_ne, decide_False; [done| |done].
      by intros [?|?]%elem_of_cons.
Qed.

Lemma lookup_foldl_mark (l : list Z) (marks : gmap Z bool) p :
  foldl (λ m q, <[q := true]> m) marks l !! p =
  if decide (p ∈ l) then Some true else marks !! p.
Proof.
  revert marks. induction l as [|q l IH]; intros marks; cbn [foldl].
  { rewrite decide_False; [done|apply not_elem_of_nil]. }
  rewrite IH. destruct (decide (p ∈ l)) as [Hl|Hl].
  - rewrite decide_True; [done|by right].
  - destruct (decide (p = q)) as [->|Hne].
    + rewrite lookup_insert_eq, decide_True; [done|by left].
    + rewrite lookup_insert_ne, decide_False; [done| |done].
      by intros [?|?]%elem_of_cons.
Qed.

Lemma foldl_add_vnode nm (l : list Z) ch :
  foldl (add_vnode nm) ch l =
  {| ring := (ring ch ++ ((λ i, hashKey (vnodeKey nm i)) <$> l))%list;
     hashMap := foldl (λ hm q, <[q := nm]> hm) (hashMap ch)
                  ((λ i, hashKey (vnodeKey nm i)) <$> l);
     nodes := nodes ch; vnodes := vnodes ch |}.
Proof.
  revert ch. induction l as [|i l IH]; intros ch; simpl.
  - rewrite app_nil_r. by destruct ch.
  - rewrite IH. simpl. by rewrite <-app_assoc.
Qed.

Lemma foldl_remove_vnode nm (l : list Z) (acc : gmap Z bool * gmap Z string) :
  foldl (remove_vnode nm) acc l =
  (foldl (λ m q, <[q := true]> m) acc.1 ((λ i, hashKey (vnodeKey nm i)) <$> l),
   foldl (λ hm q, delete q hm) acc.2 ((λ i, hashKey (vnodeKey nm i)) <$> l)).
Proof.
  revert acc. induction l as [|i l IH]; intros acc; simpl; [by destruct acc|].
  by rewrite IH.
Qed.

Lemma elem_of_sort_ring r p : p ∈ sort_ring r ↔ p ∈ r.
Proof. unfold sort_ring. by rewrite merge_sort_Permutation. Qed.

Lemma Sorted_sort_ring r : Sorted Z.le (sort_ring r).
Proof. apply (Sorted_merge_sort Z.le). Qed.

(** Whatever algorithm [sort.Slice] runs, its result is this list: a sorted
    list of integers is determined by its elements. *)
Lemma sort_ring_unique (r l : list Z) :
  Sorted Z.le l → l ≡ₚ r → l = sort_ring r.
Proof.
  intros Hs Hp. apply (Sorted_unique Z.le); [done|apply Sorted_sort_ring|].
  unfold sort_ring. by rewrite merge_sort_Permutation.
Qed.

Section add_to_ring.
Variables (ch : ConsistentHashing) (nm : string).

Lemma ring_add_to_ring :
  ring (add_to_ring ch nm) = sort_ring (ring ch ++ vnodeHashes nm (vnodes ch)).
Proof. unfold add_to_ring. rewrite foldl_add_vnode. done. Qed.

Lemma elem_of_ring_add p :
  p ∈ ring (add_to_ring ch nm) ↔ p ∈ ring ch ∨ p ∈ vnodeHashes nm (vnodes ch).
Proof. by rewrite ring_add_to_ring, elem_of_sort_ring, elem_of_app. Qed.

Lemma Sorted_ring_add : Sorted Z.le (ring (add_to_ring ch nm)).
Proof. rewrite ring_add_to_ring. apply Sorted_sort_ring. Qed.

Lemma hashMap_add_to_ring p :
  hashMap (add_to_ring ch nm) !! p =
  if decide (p ∈ vnodeHashes nm (vnodes ch)) then Some nm else hashMap ch !! p.
Proof.
  unfold add_to_ring. rewrite foldl_add_vnode. simpl.
  by rewrite lookup_foldl_insert.
Qed.

Lemma nodes_add_to_ring : nodes (add_to_ring ch nm) = <[nm := ∅]> (nodes ch).
Proof. unfold add_to_ring. by rewrite foldl_add_vnode. Qed.

Lemma vnodes_add_to_ring : vnodes (add_to_ring ch nm) = vnodes ch.
Proof. unfold add_to_ring. by rewrite foldl_add_vnode. Qed.
End add_to_ring.

Section remove_from_ring.
Variables (ch : ConsistentHashing) (nm : string).

Lemma elem_of_ring_remove p :
  p ∈ ring (remove_from_ring ch nm) ↔
  p ∈ ring ch ∧ p ∉ vnodeHashes nm (vnodes ch).
Proof.
  unfold remove_from_ring. rewrite foldl_remove_vnode. simpl.
  rewrite list_elem_of_filter, lookup_foldl_mark, lookup_empty.
  fold (vnodeHashes nm (vnodes ch)).
  destruct (decide (p ∈ vnodeHashes nm (vnodes ch))); simpl; intuition congruence.
Qed.

Lemma Sorted_ring_remove :
  Sorted Z.le (ring ch) → Sorted Z.le (ring (remove_from_ring ch nm)).
Proof.
  intros Hs%Sorted_StronglySorted; [|apply _].
  apply StronglySorted_Sorted.
  unfold remove_from_ring. rewrite foldl_remove_vnode. simpl.
  induction Hs as [|x r Hs IH Hall]; [constructor|].
  rewrite filter_cons. case_decide; [|done].
  constructor; [done|]. rewrite Forall_forall in *.
  intros y [_ Hy]%list_elem_of_filter. by apply Hall.
Qed.

Lemma hashMap_remove_from_ring p :
  hashMap (remove_from_ring ch nm) !! p =
  if decide (p ∈ vnodeHashes nm (vnodes ch)) then None else hashMap ch !! p.
Proof.
  unfold remove_from_ring. rewrite foldl_remove_vnode. simpl.
  by rewrite lookup_foldl_delete.
Qed.

Lemma nodes_remove_from_ring :
  nodes (remove_from_ring ch nm) = delete nm (nodes ch).
Proof. unfold remove_from_ring. by rewrite foldl_remove_vnode. Qed.

Lemma vnodes_remove_from_ring : vnodes (remove_from_ring ch nm) = vnodes ch.
Proof. unfold remove_from_ring. by rewrite foldl_remove_vnode. Qed.
End remove_from_ring.

(** ** Loops *)

Lemma for_each_app {S A} (body : S → A → result S) (l1 l2 : list A) (s : S) :
  for_each body (l1 ++ l2) s = s' ←! for_each body l1 s; for_each body l2 s'.
Proof.
  revert s. induction l1 as [|a l1 IH]; intros s; simpl; [done|].
  destruct (body s a); simpl; [done|apply IH].
Qed.

(** ** Fair iteration orders *)

Section fair.
Context (range : ranger) (Hfair : fair range).

Lemma fair_elem_of {A} (m : gmap string A) k v :
  (k, v) ∈ range A m ↔ m !! k = Some v.
Proof. by rewrite (Hfair A m), elem_of_map_to_list. Qed.

Lemma fair_NoDup_fst {A} (m : gmap string A) : NoDup (range A m).*1.
Proof. rewrite (Hfair A m). apply NoDup_fst_map_to_list. Qed.

Lemma fair_elem_of_fst {A} (m : gmap string A) k :
  k ∈ (range A m).*1 ↔ is_Some (m !! k).
Proof.
  rewrite list_elem_of_fmap. split.
  - intros ([k' v] & -> & Hin). apply fair_elem_of in Hin. by exists v.
  - intros [v Hv]. exists (k, v). split; [done|]. by apply fair_elem_of.
Qed.

Lemma fair_list_to_map_filter {A} (m : gmap string A) (P : string * A → Prop)
    `{∀ x, Decision (P x)} :
  list_to_map (filter P (range A m)) = filter P m.
Proof.
  assert (NoDup (filter P (range A m)).*1) as Hnd.
  { pose proof (fair_NoDup_fst m) as Hnd. revert Hnd.
    generalize (range A m). intros l. induction l as [|[k v] l IH]; [done|].
    rewrite fmap_cons, NoDup_cons. intros [Hk Hl]. rewrite filter_cons.
    case_decide; [|by apply IH].
    rewrite fmap_cons, NoDup_cons. split; [|by apply IH].
    intros ([k' v'] & ? & [_ Hin]%list_elem_of_filter)%list_elem_of_fmap.
    simplify_eq/=. apply Hk, list_elem_of_fmap. by exists (k', v'). }
  apply map_eq. intros k. apply option_eq. intros v.
  rewrite <-elem_of_list_to_map by done.
  rewrite list_elem_of_filter, fair_elem_of, map_lookup_filter_Some. tauto.
Qed.
End fair.

Lemma canonical_fair : fair canonical.
Proof. by intros A m. Qed.

(** ** The redistribution loop of [RemoveNode] *)

Section redistribute.
Variable ch : ConsistentHashing.

Lemma redistribute_Ret st k v d :
  ar_nodes st !! (GetNode ch k).1 = Some d →
  redistribute ch st (k, v) =
  Ret {| ar_nodes := <[(GetNode ch k).1 := <[k := v]> d]> (ar_nodes st);
         movesByDest := incr (movesByDest st) (GetNode ch k).1 |}.
Proof.
  intros Hd. unfold redistribute, store_set.
  destruct (GetNode ch k) as [newNode e]. simpl in *. by rewrite Hd.
Qed.

Lemma redistribute_Panic st k v :
  ar_nodes st !! (GetNode ch k).1 = None → redistribute ch st (k, v) = Panic.
Proof.
  intros Hd. unfold redistribute, store_set.
  destruct (GetNode ch k) as [newNode e]. simpl in *. by rewrite Hd.
Qed.

(** Every record arrives in the store its owner names; the stores keep
    what they had, except where an arriving record has the same key. *)
Lemma redistribute_all (l : list (string * string)) st :
  NoDup l.*1 →
  (∀ k v, (k, v) ∈ l → is_Some (ar_nodes st !! (GetNode ch k).1)) →
  ∃ st', for_each (redistribute ch) l st = Ret st' ∧
    ∀ s, ar_nodes st' !! s =
         (λ d, list_to_map (filter (λ kv, (GetNode ch kv.1).1 = s) l) ∪ d)
           <$> ar_nodes st !! s.
Proof.
  revert st. induction l as [|[k v] l IH]; intros st Hnd Hreg.
  { exists st. split; [done|]. intros s. rewrite filter_nil. simpl.
    destruct (ar_nodes st !! s); simpl; [|done]. by rewrite (left_id_L ∅ (∪)). }
  rewrite fmap_cons, NoDup_cons in Hnd. destruct Hnd as [Hk Hnd].
  destruct (Hreg k v) as [d Hd]; [by left|].
  cbn [for_each]. rewrite (redistribute_Ret _ _ _ _ Hd). cbn [bind].
  edestruct IH as (st' & Hrun & Hst'); [done| |].
  2:{ exists st'. split; [exact Hrun|]. intros s. rewrite Hst'. simpl.
      rewrite filter_cons. simpl.
      destruct (decide ((GetNode ch k).1 = s)) as [<-|Hne].
      - rewrite lookup_insert_eq, Hd. simpl. f_equal.
        rewrite <-insert_union_l. symmetry. apply insert_union_r.
        apply not_elem_of_list_to_map_1.
        intros ([k' v'] & ? & [_ Hin]%list_elem_of_filter)%list_elem_of_fmap.
        simplify_eq/=. apply Hk, list_elem_of_fmap. by exists (k', v').
      - by rewrite lookup_insert_ne. }
  simpl. intros k' v' Hin. apply lookup_insert_is_Some'. right.
  apply (Hreg k' v'). by right.
Qed.

(** A record whose owner has no store makes the loop panic. *)
Lemma redistribute_unregistered (l : list (string * string)) st k v :
  (k, v) ∈ l → ar_nodes st !! (GetNode ch k).1 = None →
  for_each (redistribute ch) l st = Panic.
Proof.
  revert st. induction l as [|[k0 v0] l IH]; intros st Hin Hnone.
  { by apply elem_of_nil in Hin. }
  cbn [for_each]. destruct (ar_nodes st !! (GetNode ch k0).1) as [d|] eqn:Hd.
  2:{ by rewrite redistribute_Panic. }
  rewrite (redistribute_Ret _ _ _ _ Hd). cbn [bind].
  apply elem_of_cons in Hin as [Heq|Hin].
  { simplify_eq. }
  apply IH; [done|]. simpl. rewrite lookup_insert_ne; [done|].
  intros Heq. rewrite Heq, Hnone in Hd. done.
Qed.
End redistribute.

Lemma GetNode_ext ch ch' key :
  ring ch = ring ch' → hashMap ch = hashMap ch' → GetNode ch key = GetNode ch' key.
Proof. intros Hr Hm. unfold GetNode. by rewrite Hr, Hm. Qed.

(** ** What [RemoveNode] does *)

Section RemoveNode.
Context (range : ranger) (Hfair : fair range).
Variables (ch : ConsistentHashing) (nodeName : string).

Lemma RemoveNode_absent :
  nodes ch !! nodeName = None →
  RemoveNode range ch nodeName = Ret (ch, Some (ErrNodeNotFound nodeName), []).
Proof. intros Hn. unfold RemoveNode. by rewrite Hn. Qed.

(** When every record of the leaving node resolves to a registered node,
    the call returns: the ring is the one without the node, and each store
    gains the records that resolve to it. *)
Lemma RemoveNode_present dataToMove :
  nodes ch !! nodeName = Some dataToMove →
  let ch1 := remove_from_ring ch nodeName in
  (∀ k, is_Some (dataToMove !! k) → is_Some (nodes ch1 !! (GetNode ch1 k).1)) →
  ∃ ch' out,
    RemoveNode range ch nodeName = Ret (ch', None, out) ∧
    ring ch' = ring ch1 ∧ hashMap ch' = hashMap ch1 ∧ vnodes ch' = vnodes ch ∧
    ∀ s, nodes ch' !! s =
         (λ d, filter (λ kv, (GetNode ch' kv.1).1 = s) dataToMove ∪ d)
           <$> delete nodeName (nodes ch) !! s.
Proof.
  intros Hn ch1 Hreg. unfold RemoveNode. rewrite Hn. fold ch1.
  destruct (redistribute_all ch1 (range _ dataToMove)
              {| ar_nodes := nodes ch1; movesByDest := ∅ |}) as (st' & Hrun & Hst').
  { by apply fair_NoDup_fst. }
  { intros k v Hin%fair_elem_of; [|done]. simpl. apply Hreg. by exists v. }
  rewrite Hrun. simpl. eexists _, _. split; [done|]. simpl.
  split_and!; [done|done|apply vnodes_remove_from_ring|].
  intros s. rewrite Hst'. simpl.
  replace (nodes ch1) with (delete nodeName (nodes ch))
    by (symmetry; apply nodes_remove_from_ring).
  destruct (delete nodeName (nodes ch) !! s) as [d|]; simpl; [|done].
  f_equal. f_equal. rewrite fair_list_to_map_filter by done.
  apply map_filter_ext. intros k v _. simpl.
  by rewrite (GetNode_ext ch1 (mkCH (ring ch1) (hashMap ch1) (ar_nodes st') (vnodes ch1))).
Qed.

(** When some record resolves to a name without a store, the call panics. *)
Lemma RemoveNode_panics dataToMove k :
  nodes ch !! nodeName = Some dataToMove →
  let ch1 := remove_from_ring ch nodeName in
  is_Some (dataToMove !! k) → nodes ch1 !! (GetNode ch1 k).1 = None →
  RemoveNode range ch nodeName = Panic.
Proof.
  intros Hn ch1 [v Hv] Hnone. unfold RemoveNode. rewrite Hn. fold ch1.
  rewrite (redistribute_unregistered ch1 _ _ k v); [done| |done].
  by apply fair_elem_of.
Qed.

(** The three ways a call can end. *)
Lemma RemoveNode_cases :
  (nodes ch !! nodeName = None ∧
   RemoveNode range ch nodeName = Ret (ch, Some (ErrNodeNotFound nodeName), [])) ∨
  (∃ dataToMove k,
     nodes ch !! nodeName = Some dataToMove ∧ is_Some (dataToMove !! k) ∧
     nodes (remove_from_ring ch nodeName)
       !! (GetNode (remove_from_ring ch nodeName) k).1 = None ∧
     RemoveNode range ch nodeName = Panic) ∨
  (∃ dataToMove ch' out,
     nodes ch !! nodeName = Some dataToMove ∧
     (∀ k, is_Some (dataToMove !! k) →
           is_Some (nodes (remove_from_ring ch nodeName)
                      !! (GetNode (remove_from_ring ch nodeName) k).1)) ∧
     RemoveNode range ch nodeName = Ret (ch', None, out) ∧
     ring ch' = ring (remove_from_ring ch nodeName) ∧
     hashMap ch' = hashMap (remove_from_ring ch nodeName) ∧
     vnodes ch' = vnodes ch ∧
     ∀ s, nodes ch' !! s =
          (λ d, filter (λ kv, (GetNode ch' kv.1).1 = s) dataToMove ∪ d)
            <$> delete nodeName (nodes ch) !! s).
Proof.
  destruct (nodes ch !! nodeName) as [dataToMove|] eqn:Hn.
  2:{ left. split; [done|]. by apply RemoveNode_absent. }
  right. set (ch1 := remove_from_ring ch nodeName).
  destruct (decide (map_Forall (λ k _, is_Some (nodes ch1 !! (GetNode ch1 k).1))
                      dataToMove)) as [Hall|Hex].
  - right. assert (∀ k, is_Some (dataToMove !! k) →
                        is_Some (nodes ch1 !! (GetNode ch1 k).1)) as Hreg.
    { intros k [v Hv]. by apply (Hall k v). }
    destruct (RemoveNode_present dataToMove Hn Hreg)
      as (ch' & out & Hrun & Hr & Hm & Hv & Hns).
    exists dataToMove, ch', out. split_and!; done.
  - left. apply map_not_Forall in Hex as (k & v & Hv & Hnot); [|apply _].
    exists dataToMove, k. split_and!; [done|by exists v| |].
    + fold ch1. by apply eq_None_not_Some.
    + eapply RemoveNode_panics; [done|by exists v|].
      fold ch1. by apply eq_None_not_Some.
Qed.
End RemoveNode.

(** ** The two loops of [AddNode] *)

Lemma NoDup_fst_unique {A B} (l : list (A * B)) x y1 y2 :
  NoDup l.*1 → (x, y1) ∈ l → (x, y2) ∈ l → y1 = y2.
Proof.
  induction l as [|[x' y'] l IH]; [by intros _ ?%elem_of_nil|].
  rewrite fmap_cons, NoDup_cons. intros [Hx Hnd] H1 H2.
  apply elem_of_cons in H1 as [?|H1], H2 as [?|H2]; simplify_eq/=.
  - done.
  - destruct Hx. apply list_elem_of_fmap. by exists (x', y2).
  - destruct Hx. apply list_elem_of_fmap. by exists (x', y1).
  - by apply IH.
Qed.

Section collect.
Context (range : ranger) (Hfair : fair range).
Variables (ch : ConsistentHashing) (nodeName : string).

Lemma foldl_collect_key s (keys : list string) ktm s' :
  default [] (foldl (collect_key ch nodeName s) ktm keys !! s') =
  if decide (s' = s)
  then (default [] (ktm !! s) ++ filter (λ k, (GetNode ch k).1 = nodeName) keys)%list
  else default [] (ktm !! s').
Proof.
  revert ktm. induction keys as [|k keys IH]; intros ktm; cbn [foldl].
  { rewrite filter_nil, app_nil_r. by case_decide; subst. }
  rewrite IH, filter_cons. unfold collect_key.
  destruct (GetNode ch k) as [targetNode e]. simpl.
  destruct (decide (targetNode = nodeName)) as [->|Hne].
  - rewrite lookup_insert_eq. simpl. case_decide as Hs.
    + by rewrite <-app_assoc.
    + by rewrite lookup_insert_ne.
  - done.
Qed.

Lemma foldl_collect_node (entries : list (string * gmap string string)) ktm s' :
  NoDup entries.*1 →
  default [] (foldl (collect_node range ch nodeName) ktm entries !! s') =
  (default [] (ktm !! s') ++
   if decide (s' = nodeName) then []
   else match (list_to_map entries : gmap string (gmap string string)) !! s' with
        | Some data => filter (λ k, (GetNode ch k).1 = nodeName) (range _ data).*1
        | None => []
        end)%list.
Proof.
  revert ktm. induction entries as [|[s data] entries IH]; intros ktm Hnd.
  { cbn [foldl]. rewrite list_to_map_nil, lookup_empty.
    by case_decide; rewrite app_nil_r. }
  rewrite fmap_cons, NoDup_cons in Hnd. destruct Hnd as [Hs Hnd].
  cbn [foldl]. rewrite IH by done. rewrite list_to_map_cons.
  unfold collect_node.
  destruct (decide (s' = nodeName)) as [->|Hs'].
  { rewrite !app_nil_r. case_decide; [done|].
    rewrite foldl_collect_key. by rewrite decide_False. }
  destruct (decide (s = s')) as [->|Hne].
  - rewrite lookup_insert_eq.
    rewrite (not_elem_of_list_to_map_1 entries s') by done.
    rewrite app_nil_r. rewrite decide_False by done.
    rewrite foldl_collect_key. by rewrite decide_True.
  - rewrite lookup_insert_ne by done. f_equal.
    case_decide; [done|]. rewrite foldl_collect_key. by rewrite decide_False.
Qed.

Lemma fair_list_to_map {A} (m : gmap string A) : list_to_map (range A m) = m.
Proof.
  apply map_eq. intros k. apply option_eq. intros v.
  rewrite <-elem_of_list_to_map by (by apply fair_NoDup_fst).
  by apply fair_elem_of.
Qed.

(** The candidates of a source node: its keys that resolve to the new node. *)
Lemma keys_to_move_lookup s :
  default [] (keys_to_move range ch nodeName !! s) =
  if decide (s = nodeName) then []
  else match nodes ch !! s with
       | Some data => filter (λ k, (GetNode ch k).1 = nodeName) (range _ data).*1
       | None => []
       end.
Proof.
  unfold keys_to_move. rewrite foldl_collect_node by (by apply fair_NoDup_fst).
  by rewrite lookup_empty, fair_list_to_map.
Qed.

Lemma elem_of_moves_of (L : list (string * list string)) s k :
  (s, k) ∈ moves_of L ↔ ∃ keys, (s, keys) ∈ L ∧ k ∈ keys.
Proof.
  unfold moves_of. rewrite list_elem_of_bind. split.
  - intros ([s' keys] & Hin & HL). simpl in Hin.
    apply list_elem_of_fmap in Hin as (k' & ? & Hk'). simplify_eq. eauto.
  - intros (keys & HL & Hk). exists (s, keys). split; [|done].
    simpl. apply list_elem_of_fmap. eauto.
Qed.

Lemma NoDup_moves_of (L : list (string * list string)) :
  NoDup L.*1 → (∀ s keys, (s, keys) ∈ L → NoDup keys) → NoDup (moves_of L).
Proof.
  intros Hnd Hkeys. unfold moves_of. apply NoDup_bind.
  - intros [s1 k1] [s2 k2] [s k] H1 H2 Hin1 Hin2. simpl in *.
    apply list_elem_of_fmap in Hin1 as (? & ? & ?).
    apply list_elem_of_fmap in Hin2 as (? & ? & ?). simplify_eq.
    f_equal. by eapply NoDup_fst_unique.
  - intros [s keys] Hin. simpl. apply NoDup_fmap; [|by eapply Hkeys].
    by intros ?? [=].
  - by eapply NoDup_fmap_1.
Qed.

(** The moves of [AddNode]: every key of another node that resolves to the
    new node, once. *)
Lemma elem_of_moves s k :
  (s, k) ∈ moves_of (range _ (keys_to_move range ch nodeName)) ↔
  s ≠ nodeName ∧ (GetNode ch k).1 = nodeName ∧
  ∃ data, nodes ch !! s = Some data ∧ is_Some (data !! k).
Proof.
  rewrite elem_of_moves_of.
  assert ((∃ keys, (s, keys) ∈ range _ (keys_to_move range ch nodeName) ∧ k ∈ keys)
          ↔ k ∈ default [] (keys_to_move range ch nodeName !! s)) as ->.
  { split.
    - intros (keys & Hin%fair_elem_of & Hk); [|done]. by rewrite Hin.
    - destruct (keys_to_move range ch nodeName !! s) as [keys|] eqn:Hl; simpl.
      + intros Hk. exists keys. split; [by apply fair_elem_of|done].
      + by intros ?%elem_of_nil. }
  rewrite keys_to_move_lookup. case_decide as Hs.
  { split; [by intros ?%elem_of_nil|by intros [? _]]. }
  destruct (nodes ch !! s) as [data|] eqn:Hdata.
  - rewrite list_elem_of_filter, fair_elem_of_fst by done. split.
    + intros [? ?]. split_and!; [done..|]. by exists data.
    + intros (_ & ? & data' & ? & ?). by simplify_eq.
  - split; [by intros ?%elem_of_nil|]. by intros (_ & _ & ? & ? & _).
Qed.

Lemma NoDup_moves :
  NoDup (moves_of (range _ (keys_to_move range ch nodeName))).
Proof.
  apply NoDup_moves_of; [by apply fair_NoDup_fst|].
  intros s keys Hin%fair_elem_of; [|done].
  pose proof (keys_to_move_lookup s) as Hl. rewrite Hin in Hl. simpl in Hl.
  rewrite Hl. case_decide; [constructor|].
  destruct (nodes ch !! s) as [data|]; [|constructor].
  apply NoDup_filter. by apply fair_NoDup_fst.
Qed.
End collect.

Section move.
Variable nodeName : string.

Lemma move_pair_Ret st s k d :
  mv_nodes st !! nodeName = Some d →
  move_pair nodeName st (s, k) =
  Ret {| mv_nodes :=
           store_delete
             (<[nodeName := <[k := store_get (mv_nodes st) s k]> d]> (mv_nodes st)) s k;
         movesBySource := incr (movesBySource st) s;
         keysMoved := keysMoved st + 1 |}.
Proof. intros Hd. unfold move_pair, move_key, store_set. simpl. by rewrite Hd. Qed.

Lemma for_each_move_key s (keys : list string) st :
  for_each (move_key nodeName s) keys st =
  for_each (move_pair nodeName) (pair s <$> keys) st.
Proof.
  revert st. induction keys as [|k keys IH]; intros st; [done|].
  rewrite fmap_cons. cbn [for_each]. unfold move_pair at 1. simpl.
  destruct (move_key nodeName s st k); simpl; [done|apply IH].
Qed.

Lemma for_each_move_node (L : list (string * list string)) st :
  for_each (move_node nodeName) L st =
  for_each (move_pair nodeName) (moves_of L) st.
Proof.
  revert st. induction L as [|[s keys] L IH]; intros st; [done|].
  unfold moves_of. rewrite bind_cons. fold (moves_of L).
  rewrite for_each_app. cbn [for_each fst snd]. unfold move_node at 1.
  rewrite for_each_move_key.
  destruct (for_each _ (pair s <$> keys) st); simpl; [done|apply IH].
Qed.

(** The loop never panics once the store of the new node is registered.
    A source store loses exactly the keys moved out of it; the store of the
    new node gains them, with the values they had. *)
Lemma move_all (M : list (string * string)) st d :
  NoDup M → (∀ s k, (s, k) ∈ M → s ≠ nodeName) →
  mv_nodes st !! nodeName = Some d →
  ∃ st' d', for_each (move_pair nodeName) M st = Ret st' ∧
    mv_nodes st' !! nodeName = Some d' ∧
    (∀ s, s ≠ nodeName →
          mv_nodes st' !! s = filter (λ kv, (s, kv.1) ∉ M) <$> mv_nodes st !! s) ∧
    (∀ k v, d' !! k = Some v →
            d !! k = Some v ∨ ∃ s, (s, k) ∈ M ∧ store_get (mv_nodes st) s k = v) ∧
    (∀ k, is_Some (d !! k) ∨ (∃ s, (s, k) ∈ M) → is_Some (d' !! k)).
Proof.
  revert st d. induction M as [|[s0 k0] M IH]; intros st d Hnd Hsrc Hd.
  { exists st, d. split_and!; [done|done| | |].
    - intros s _. destruct (mv_nodes st !! s) as [data|]; simpl; [|done].
      f_equal. symmetry. apply map_filter_id. intros k v _. apply not_elem_of_nil.
    - auto.
    - intros k [?|[s Hin]]; [done|by apply elem_of_nil in Hin]. }
  apply NoDup_cons in Hnd as [Hhd Hnd].
  assert (s0 ≠ nodeName) as Hs0 by (apply (Hsrc s0 k0); by left).
  cbn [for_each]. rewrite (move_pair_Ret _ _ _ _ Hd). cbn [bind].
  set (v0 := store_get (mv_nodes st) s0 k0).
  set (ns1 := store_delete (<[nodeName := <[k0 := v0]> d]> (mv_nodes st)) s0 k0).
  assert (ns1 !! nodeName = Some (<[k0 := v0]> d)) as Hd1.
  { unfold ns1, store_delete. by rewrite lookup_alter_ne, lookup_insert_eq. }
  assert (∀ s, s ≠ nodeName →
               ns1 !! s = if decide (s0 = s) then delete k0 <$> mv_nodes st !! s
                          else mv_nodes st !! s) as Hns1.
  { intros s Hs. unfold ns1, store_delete. rewrite lookup_alter.
    case_decide; subst; by rewrite lookup_insert_ne. }
  edestruct (IH {| mv_nodes := ns1; movesBySource := incr (movesBySource st) s0;
                   keysMoved := keysMoved st + 1 |} (<[k0 := v0]> d))
    as (st' & d' & Hrun & Hd' & Hothers & Hfrom & Hin); [done| |done|].
  { intros s k ?. apply (Hsrc s k). by right. }
  simpl in *. exists st', d'. split_and!; [done|done| | |].
  - intros s Hs. rewrite Hothers, Hns1 by done. case_decide as Heq.
    + subst s. destruct (mv_nodes st !! s0) as [data|]; simpl; [|done]. f_equal.
      apply map_eq. intros k. apply option_eq. intros v.
      rewrite !map_lookup_filter_Some, lookup_delete_Some, not_elem_of_cons. simpl.
      split; [intros [[? ?] ?]|intros [? [? ?]]]; split_and!; try done; congruence.
    + destruct (mv_nodes st !! s) as [data|]; simpl; [|done]. f_equal.
      apply map_filter_ext. intros k v _. simpl. rewrite not_elem_of_cons.
      split; [intros ?; split; [congruence|done]|by intros [_ ?]].
  - intros k v Hk. destruct (Hfrom k v Hk) as [Hins|(s & HsM & Hget)].
    + destruct (decide (k = k0)) as [->|Hne].
      * rewrite lookup_insert_eq in Hins. right. exists s0. split; [by left|].
        by simplify_eq.
      * rewrite lookup_insert_ne in Hins by done. by left.
    + right. exists s. split; [by right|]. rewrite <-Hget.
      unfold store_get. rewrite Hns1 by (by eapply Hsrc; right).
      case_decide as Heq; [|done]. subst s.
      destruct (mv_nodes st !! s0) as [data|]; simpl; [|done].
      rewrite lookup_delete_ne; [done|]. intros ->. done.
  - intros k Hk. apply Hin. destruct Hk as [Hk|[s Hs]].
    + left. by apply lookup_insert_is_Some'; right.
    + apply elem_of_cons in Hs as [?|Hs]; simplify_eq.
      * left. rewrite lookup_insert_eq. by eexists.
      * right. by exists s.
Qed.
End move.

(** ** What [AddNode] does *)

Section AddNode.
Context (range : ranger) (Hfair : fair range).
Variables (ch : ConsistentHashing) (nodeName : string).

Lemma AddNode_present :
  is_Some (nodes ch !! nodeName) →
  AddNode range ch nodeName = Ret (ch, [MsgNodeAlreadyExists nodeName]).
Proof. intros Hn. unfold AddNode. by rewrite decide_True. Qed.

(** For a new name the call returns. The ring is the one with the VNodes
    of the node; a store of another node keeps the records that do not
    resolve to the new node, and the new store holds those that do. *)
Lemma AddNode_new :
  nodes ch !! nodeName = None →
  ∃ ch' out d',
    AddNode range ch nodeName = Ret (ch', out) ∧
    ring ch' = ring (add_to_ring ch nodeName) ∧
    hashMap ch' = hashMap (add_to_ring ch nodeName) ∧
    vnodes ch' = vnodes ch ∧
    nodes ch' !! nodeName = Some d' ∧
    (∀ s, s ≠ nodeName →
          nodes ch' !! s =
          filter (λ kv, (GetNode ch' kv.1).1 ≠ nodeName) <$> nodes ch !! s) ∧
    (∀ k v, d' !! k = Some v →
            (GetNode ch' k).1 = nodeName ∧ ∃ s, stored (nodes ch) s k v) ∧
    (∀ s k v, stored (nodes ch) s k v → (GetNode ch' k).1 = nodeName →
              is_Some (d' !! k)).
Proof.
  intros Hn. unfold AddNode.
  rewrite decide_False by (by rewrite Hn; intros [? ?]).
  set (ch1 := add_to_ring ch nodeName).
  set (M := moves_of (range _ (keys_to_move range ch1 nodeName))).
  rewrite for_each_move_node. fold M.
  assert (nodes ch1 = <[nodeName := ∅]> (nodes ch)) as Hns1
    by apply nodes_add_to_ring.
  assert (∀ s k, (s, k) ∈ M ↔
            s ≠ nodeName ∧ (GetNode ch1 k).1 = nodeName ∧
            ∃ data, nodes ch !! s = Some data ∧ is_Some (data !! k)) as HM.
  { intros s k. unfold M. rewrite elem_of_moves by done. rewrite Hns1.
    split; intros (Hs & ? & data & Hdata & ?); (split_and!; [done..|]);
      exists data; [by rewrite lookup_insert_ne in Hdata|by rewrite lookup_insert_ne]. }
  assert (NoDup M) as HndM by (by apply NoDup_moves).
  assert (vnodes ch1 = vnodes ch) as Hv1 by apply vnodes_add_to_ring.
  clearbody M ch1.
  destruct (move_all nodeName M
              {| mv_nodes := nodes ch1; movesBySource := ∅; keysMoved := 0 |} ∅)
    as (st' & d' & Hrun & Hd' & Hothers & Hfrom & Hin).
  { done. }
  { intros s k [? _]%HM. done. }
  { cbn [mv_nodes]. by rewrite Hns1, lookup_insert_eq. }
  rewrite Hrun. cbn [bind mv_nodes] in *.
  set (ch' := {| ring := ring ch1; hashMap := hashMap ch1;
                 nodes := mv_nodes st'; vnodes := vnodes ch1 |}).
  assert (∀ k, GetNode ch' k = GetNode ch1 k) as HG
    by (intros k; by apply GetNode_ext).
  eexists ch', _, d'. split_and!; [done|done|done|done|done| | |].
  - intros s Hs. cbn [nodes ch']. rewrite Hothers, Hns1, lookup_insert_ne by done.
    destruct (nodes ch !! s) as [data|] eqn:Hdata; simpl; [|done]. f_equal.
    apply map_filter_ext. intros k v Hk. simpl. rewrite HG, HM.
    split.
    + intros Hnot Hown. apply Hnot. split_and!; [done..|].
      exists data. split; [done|by exists v].
    + intros Hown (_ & ? & _). done.
  - intros k v Hk. destruct (Hfrom k v Hk) as [Hemp|(s & HsM & Hget)].
    { by rewrite lookup_empty in Hemp. }
    apply HM in HsM as (Hs & Hown & data & Hdata & [v' Hv']).
    rewrite HG. split; [done|]. exists s, data. split; [done|].
    unfold store_get in Hget.
    rewrite Hns1, lookup_insert_ne, Hdata in Hget by done. simpl in Hget.
    rewrite Hv' in Hget. simpl in Hget. by subst.
  - intros s k v (data & Hdata & Hv) Hown. apply Hin. right. exists s.
    apply HM. rewrite <-HG. split_and!; [|done|].
    + intros ->. by rewrite Hn in Hdata.
    + exists data. split; [done|by exists v].
Qed.
End AddNode.

(** ** Ownership across a change of the ring *)

(** After the VNodes of [nm] are added, a key resolves to [nm] or to the node
    it resolved to before. *)
Lemma GetNode_add_to_ring ch nm key :
  Sorted Z.le (ring ch) →
  (GetNode (add_to_ring ch nm) key).1 = nm ∨
  (GetNode (add_to_ring ch nm) key).1 = (GetNode ch key).1.
Proof.
  intros Hs. set (ch1 := add_to_ring ch nm).
  destruct (decide (ring ch1 = [])) as [Hemp|Hne].
  { right. rewrite (GetNode_empty ch1) by done.
    rewrite GetNode_empty; [done|].
    destruct (ring ch) as [|p r] eqn:Hr; [done|].
    assert (p ∈ ring ch1) as Hp.
    { apply elem_of_ring_add. left. rewrite Hr. by left. }
    rewrite Hemp in Hp. by apply elem_of_nil in Hp. }
  destruct (GetNode_resolves ch1 key) as (p' & Hres' & HG'); [|done|].
  { apply Sorted_ring_add. }
  rewrite HG'. simpl. unfold owner at 1 2. unfold ch1 at 1 2.
  rewrite hashMap_add_to_ring.
  destruct (decide (p' ∈ vnodeHashes nm (vnodes ch))) as [Hnew|Hold]; [by left|].
  right. destruct (decide (ring ch = [])) as [Hemp|Hne0].
  { destruct Hres' as [Hin _]. apply elem_of_ring_add in Hin as [Hin|Hin]; [|done].
    rewrite Hemp in Hin. by apply elem_of_nil in Hin. }
  destruct (GetNode_resolves ch key Hs Hne0) as (p & Hres & HG).
  rewrite HG. simpl. unfold owner.
  destruct (resolves_grow (ring ch) (ring ch1) (vnodeHashes nm (vnodes ch))
              (hashKey key) p p') as [?|Heq]; [|done..|by rewrite Heq].
  intros q. apply elem_of_ring_add.
Qed.

(** After the VNodes of [nm] are removed, a key that resolved to another node
    still resolves to it, provided no position of [nm] was recorded for
    another node. *)
Lemma GetNode_remove_from_ring ch nm key :
  Sorted Z.le (ring ch) →
  (∀ p, p ∈ ring ch → is_Some (hashMap ch !! p)) →
  (∀ p m, p ∈ vnodeHashes nm (vnodes ch) → hashMap ch !! p = Some m → m = nm) →
  (GetNode ch key).1 ≠ nm →
  (GetNode (remove_from_ring ch nm) key).1 = (GetNode ch key).1.
Proof.
  intros Hs Hdom Hown Hne. set (ch1 := remove_from_ring ch nm).
  destruct (decide (ring ch = [])) as [Hemp|Hne0].
  { rewrite (GetNode_empty ch) by done. rewrite GetNode_empty; [done|].
    destruct (ring ch1) as [|p r] eqn:Hr; [done|].
    assert (p ∈ ring ch1) as Hp by (rewrite Hr; by left).
    apply elem_of_ring_remove in Hp as [Hp _].
    rewrite Hemp in Hp. by apply elem_of_nil in Hp. }
  destruct (GetNode_resolves ch key Hs Hne0) as (p & Hres & HG).
  rewrite HG in Hne |- *. simpl in *.
  assert (p ∈ ring ch) as Hp by apply Hres.
  destruct (Hdom p Hp) as [m Hm].
  assert (p ∉ vnodeHashes nm (vnodes ch)) as Hkeep.
  { intros Hin. apply Hne. unfold owner. rewrite Hm. simpl. by eapply Hown. }
  assert (p ∈ ring ch1) as Hp1 by (by apply elem_of_ring_remove).
  destruct (GetNode_resolves ch1 key) as (p' & Hres' & HG').
  { by apply Sorted_ring_remove. }
  { intros Hemp. rewrite Hemp in Hp1. by apply elem_of_nil in Hp1. }
  rewrite HG'. simpl.
  assert (p' = p) as ->.
  { eapply resolves_unique; [done|].
    eapply resolves_shrink; [|done..]. intros q. by intros [? _]%elem_of_ring_remove. }
  unfold owner, ch1. by rewrite hashMap_remove_from_ring, decide_False.
Qed.

(** ** Counting records *)

Lemma records_empty : records ∅ = 0%nat.
Proof. unfold records. by rewrite map_to_list_empty. Qed.

Lemma records_insert_None (ns : stores) n d :
  ns !! n = None → records (<[n := d]> ns) = (size d + records ns)%nat.
Proof. intros Hn. unfold records. by rewrite map_to_list_insert. Qed.

Lemma records_delete (ns : stores) n d :
  ns !! n = Some d → records ns = (size d + records (delete n ns))%nat.
Proof.
  intros Hn. rewrite <-(insert_delete_id ns n d) at 1 by done.
  by rewrite records_insert_None by apply lookup_delete_eq.
Qed.

Lemma records_insert_Some (ns : stores) n d d' :
  ns !! n = Some d →
  (records (<[n := d']> ns) + size d = records ns + size d')%nat.
Proof.
  intros Hn. rewrite (records_delete ns n d) by done.
  rewrite <-insert_delete_eq.
  rewrite records_insert_None by apply lookup_delete_eq. lia.
Qed.

Lemma totalRecords_records range ch :
  fair range → totalRecords range ch = Z.of_nat (records (nodes ch)).
Proof.
  intros Hfair. unfold totalRecords, records.
  assert (∀ (l : list (string * gmap string string)) acc,
            (∀ n d, (n, d) ∈ l → nodes ch !! n = Some d) →
            foldl (λ total name,
                     total + Z.of_nat (size (default ∅ (nodes ch !! name)))) acc l.*1 =
            acc + Z.of_nat (sum_list_with (λ entry, size entry.2) l)) as Hsum.
  { induction l as [|[n d] l IH]; intros acc Hl; simpl; [lia|].
    rewrite IH by (intros; apply Hl; by right).
    rewrite (Hl n d) by (by left). simpl. lia. }
  rewrite Hsum by (intros n d Hin; by apply (fair_elem_of range Hfair)).
  by rewrite (Hfair _ (nodes ch)).
Qed.

Lemma stored_lookup (ns : stores) n k v d :
  ns !! n = Some d → stored ns n k v ↔ d !! k = Some v.
Proof.
  intros Hn. split; [intros (d' & Hd' & Hk); by simplify_eq|].
  intros Hk. by exists d.
Qed.

Lemma redistribute_records ch (l : list (string * string)) st st' :
  NoDup l.*1 →
  (∀ k v n d, (k, v) ∈ l → ar_nodes st !! n = Some d → d !! k = None) →
  for_each (redistribute ch) l st = Ret st' →
  records (ar_nodes st') = (records (ar_nodes st) + length l)%nat.
Proof.
  revert st. induction l as [|[k v] l IH]; intros st Hnd Hfresh Hrun.
  { simpl in Hrun. simplify_eq. simpl. lia. }
  rewrite fmap_cons, NoDup_cons in Hnd. destruct Hnd as [Hk Hnd].
  cbn [for_each] in Hrun.
  destruct (ar_nodes st !! (GetNode ch k).1) as [d|] eqn:Hd.
  2:{ by rewrite redistribute_Panic in Hrun. }
  rewrite (redistribute_Ret _ _ _ _ _ Hd) in Hrun. cbn [bind] in Hrun.
  apply IH in Hrun; [|done|]; cbn [ar_nodes] in *.
  - rewrite Hrun. pose proof (records_insert_Some _ _ _ (<[k := v]> d) Hd) as Hrec.
    rewrite map_size_insert_None in Hrec by (eapply Hfresh; [by left|done]).
    simpl. lia.
  - intros k' v' n d' Hin Hn. destruct (decide ((GetNode ch k).1 = n)) as [<-|Hne].
    + rewrite lookup_insert_eq in Hn. simplify_eq.
      rewrite lookup_insert_ne.
      * eapply Hfresh; [by right|done].
      * intros ->. apply Hk. apply list_elem_of_fmap. by exists (k', v').
    + rewrite lookup_insert_ne in Hn by done. eapply Hfresh; [by right|done].
Qed.

Section move_records.
Variable nodeName : string.

(** One move keeps the number of records and the uniqueness of keys. *)
Lemma move_one (ns : stores) s0 k0 d data0 v0 :
  unique_keys ns → s0 ≠ nodeName →
  ns !! nodeName = Some d → ns !! s0 = Some data0 → data0 !! k0 = Some v0 →
  let ns1 := store_delete (<[nodeName := <[k0 := store_get ns s0 k0]> d]> ns) s0 k0 in
  records ns1 = records ns ∧ unique_keys ns1 ∧
  ns1 !! nodeName = Some (<[k0 := v0]> d) ∧
  ns1 !! s0 = Some (delete k0 data0) ∧
  (∀ s, s ≠ nodeName → s ≠ s0 → ns1 !! s = ns !! s).
Proof.
  intros Huniq Hs0 Hd Hdata0 Hv0 ns1.
  assert (store_get ns s0 k0 = v0) as Hget.
  { unfold store_get. by rewrite Hdata0; simpl; rewrite Hv0. }
  assert (d !! k0 = None) as Hfresh.
  { destruct (d !! k0) as [v|] eqn:Hk; [|done]. destruct Hs0.
    apply (Huniq s0 nodeName k0 v0 v); [by exists data0|by exists d]. }
  assert (ns1 !! nodeName = Some (<[k0 := v0]> d)) as Hnew.
  { unfold ns1, store_delete. by rewrite lookup_alter_ne, lookup_insert_eq, Hget. }
  assert (ns1 !! s0 = Some (delete k0 data0)) as Hsrc.
  { unfold ns1, store_delete.
    by rewrite lookup_alter_eq, lookup_insert_ne, Hdata0. }
  assert (∀ s, s ≠ nodeName → s ≠ s0 → ns1 !! s = ns !! s) as Hrest.
  { intros s ? ?. unfold ns1, store_delete.
    by rewrite lookup_alter_ne, lookup_insert_ne. }
  assert (ns1 = <[s0 := delete k0 data0]> (<[nodeName := <[k0 := v0]> d]> ns)) as Hns1.
  { apply map_eq. intros s. destruct (decide (s = s0)) as [->|?].
    - by rewrite Hsrc, lookup_insert_eq.
    - rewrite lookup_insert_ne by done. destruct (decide (s = nodeName)) as [->|?].
      + by rewrite Hnew, lookup_insert_eq.
      + by rewrite Hrest, lookup_insert_ne. }
  split_and!; [|..|done|done|done].
  - pose proof (records_insert_Some ns nodeName d (<[k0 := v0]> d) Hd) as H1.
    rewrite map_size_insert_None in H1 by done.
    pose proof (records_insert_Some (<[nodeName := <[k0 := v0]> d]> ns) s0
                  data0 (delete k0 data0)) as H2.
    rewrite lookup_insert_ne in H2 by done. specialize (H2 Hdata0).
    rewrite map_size_delete_Some in H2 by (by eexists).
    assert (size data0 ≠ 0)%nat as Hpos.
    { intros Hz%map_size_empty_inv. by rewrite Hz, lookup_empty in Hv0. }
    rewrite Hns1. lia.
  - assert (∀ n k v, stored ns1 n k v →
              (n = nodeName ∧ k = k0) ∨ (k ≠ k0 ∧ stored ns n k v)) as Hinv.
    { intros n k v Hst. destruct (decide (n = nodeName)) as [->|Hn].
      - apply (stored_lookup _ _ _ _ _ Hnew) in Hst.
        destruct (decide (k = k0)) as [->|Hk]; [by left|right].
        rewrite lookup_insert_ne in Hst by done. split; [done|by exists d].
      - right. destruct (decide (n = s0)) as [->|Hn0].
        + apply (stored_lookup _ _ _ _ _ Hsrc) in Hst.
          apply lookup_delete_Some in Hst as [? ?]. split; [done|by exists data0].
        + destruct Hst as (dn & Hdn & Hk). rewrite Hrest in Hdn by done.
          split; [|by exists dn]. intros ->. apply Hn0.
          apply (Huniq n s0 k0 v v0); [by exists dn|by exists data0]. }
    intros n1 n2 k v1 v2 H1 H2.
    destruct (Hinv _ _ _ H1) as [[-> ->]|[Hk1 Ho1]],
             (Hinv _ _ _ H2) as [[-> ?]|[Hk2 Ho2]]; try done.
    by eapply Huniq.
Qed.

Lemma move_all_records (M : list (string * string)) st st' d :
  NoDup M → unique_keys (mv_nodes st) →
  (∀ s k, (s, k) ∈ M →
     s ≠ nodeName ∧ ∃ data, mv_nodes st !! s = Some data ∧ is_Some (data !! k)) →
  mv_nodes st !! nodeName = Some d →
  for_each (move_pair nodeName) M st = Ret st' →
  records (mv_nodes st') = records (mv_nodes st) ∧ unique_keys (mv_nodes st').
Proof.
  revert st d. induction M as [|[s0 k0] M IH]; intros st d Hnd Huniq HM Hd Hrun.
  { simpl in Hrun. by simplify_eq. }
  apply NoDup_cons in Hnd as [Hhd Hnd].
  destruct (HM s0 k0) as (Hs0 & data0 & Hdata0 & v0 & Hv0); [by left|].
  cbn [for_each] in Hrun. rewrite (move_pair_Ret _ _ _ _ _ Hd) in Hrun.
  cbn [bind] in Hrun.
  destruct (move_one (mv_nodes st) s0 k0 d data0 v0)
    as (Hrec & Huniq1 & Hnew & Hsrc & Hrest); [done..|].
  eapply IH in Hrun; [|done|done| |done]; cbn [mv_nodes] in *.
  - by rewrite <-Hrec.
  - intros s k Hin. destruct (HM s k) as (Hs & data & Hdata & Hk); [by right|].
    split; [done|]. destruct (decide (s = s0)) as [->|Hne].
    + exists (delete k0 data0). split; [done|]. simplify_eq.
      rewrite lookup_delete_ne; [done|]. intros ->. done.
    + exists data. by rewrite Hrest.
Qed.
End move_records.

(** ** Conservation *)

Lemma unique_keys_insert_empty (ns : stores) n :
  ns !! n = None → unique_keys ns → unique_keys (<[n := ∅]> ns).
Proof.
  intros Hn Huniq.
  assert (∀ m k v, stored (<[n := ∅]> ns) m k v → stored ns m k v) as Hold.
  { intros m k v (d & Hd & Hk). destruct (decide (m = n)) as [->|Hne].
    - rewrite lookup_insert_eq in Hd. by simplify_eq.
    - rewrite lookup_insert_ne in Hd by done. by exists d. }
  intros n1 n2 k v1 v2 H1%Hold H2%Hold. by eapply Huniq.
Qed.

Section conservation.
Context (range : ranger) (Hfair : fair range).
Variables (ch : ConsistentHashing) (nodeName : string).
Hypothesis Huniq : unique_keys (nodes ch).

Lemma AddNode_records ch' out :
  AddNode range ch nodeName = Ret (ch', out) →
  records (nodes ch') = records (nodes ch) ∧ unique_keys (nodes ch').
Proof.
  destruct (nodes ch !! nodeName) as [d|] eqn:Hn.
  { rewrite AddNode_present by (by eexists). intros [= <- _]. done. }
  unfold AddNode. rewrite decide_False by (by rewrite Hn; intros [? ?]).
  set (ch1 := add_to_ring ch nodeName).
  assert (nodes ch1 = <[nodeName := ∅]> (nodes ch)) as Hns1
    by apply nodes_add_to_ring.
  rewrite for_each_move_node.
  destruct (for_each _ _ _) as [|st'] eqn:Hrun; [done|].
  intros [= <- _]. cbn [nodes bind].
  eapply (move_all_records nodeName) in Hrun; cbn [mv_nodes] in *.
  - destruct Hrun as [-> ?]. split; [|done].
    rewrite Hns1, records_insert_None by done. by rewrite map_size_empty.
  - by apply NoDup_moves.
  - rewrite Hns1. by apply unique_keys_insert_empty.
  - intros s k (Hs & _ & data & Hdata & Hk)%elem_of_moves; [|done].
    split; [done|]. by exists data.
  - by rewrite Hns1, lookup_insert_eq.
Qed.

Lemma RemoveNode_records ch' e out :
  RemoveNode range ch nodeName = Ret (ch', e, out) →
  records (nodes ch') = records (nodes ch) ∧ unique_keys (nodes ch').
Proof.
  intros Hret.
  destruct (RemoveNode_cases range Hfair ch nodeName)
    as [[Hn Hrun]|[(d & k & _ & _ & _ & Hrun)|
                   (d & ch'' & out' & Hn & Hreg & Hrun & Hr & Hm & Hv & Hns)]].
  { rewrite Hrun in Hret. by simplify_eq. }
  { by rewrite Hrun in Hret. }
  rewrite Hrun in Hret. simplify_eq. split.
  - revert Hrun. unfold RemoveNode. rewrite Hn.
    set (ch1 := remove_from_ring ch nodeName).
    destruct (for_each _ _ _) as [|st'] eqn:Hloop; [done|].
    intros [= <-]. cbn [nodes bind].
    apply redistribute_records in Hloop; cbn [ar_nodes] in *.
    + rewrite Hloop. unfold ch1. rewrite nodes_remove_from_ring.
      rewrite (records_delete (nodes ch) nodeName d) by done.
      rewrite (Hfair _ d), length_map_to_list. lia.
    + by apply fair_NoDup_fst.
    + intros k v n dn Hin%fair_elem_of Hdn; [|done].
      unfold ch1 in Hdn. rewrite nodes_remove_from_ring in Hdn.
      apply lookup_delete_Some in Hdn as [Hne Hdn].
      destruct (dn !! k) as [v'|] eqn:Hk; [|done]. destruct Hne.
      apply (Huniq nodeName n k v v'); [by exists d|by exists dn].
  - assert (∀ n k v, stored (nodes ch') n k v →
              (d !! k = Some v ∧ (GetNode ch' k).1 = n) ∨
              (n ≠ nodeName ∧ stored (nodes ch) n k v)) as Hinv.
    { intros n k v (dn' & Hdn' & Hk). rewrite Hns in Hdn'.
      destruct (delete nodeName (nodes ch) !! n) as [dn|] eqn:Hdn; [|done].
      apply lookup_delete_Some in Hdn as [Hne Hdn]. simpl in Hdn'. simplify_eq.
      apply lookup_union_Some_raw in Hk as [Hk|[_ Hk]].
      - left. by apply map_lookup_filter_Some in Hk as [? ?].
      - right. split; [done|by exists dn]. }
    intros n1 n2 k v1 v2 H1 H2.
    destruct (Hinv _ _ _ H1) as [[Hd1 <-]|[Hn1 Ho1]],
             (Hinv _ _ _ H2) as [[Hd2 <-]|[Hn2 Ho2]]; [done|..].
    + destruct Hn2. symmetry.
      apply (Huniq nodeName n2 k v1 v2); [by exists d|done].
    + destruct Hn1.
      apply (Huniq n1 nodeName k v1 v2); [done|by exists d].
    + by eapply Huniq.
Qed.
End conservation.

(** ** Placement is kept by [AddNode], and by [RemoveNode] without collisions *)

Lemma Put_Ret ch key value ch' :
  Put ch key value = Ret ch' ↔
  ∃ d, nodes ch !! (GetNode ch key).1 = Some d ∧
       ch' = {| ring := ring ch; hashMap := hashMap ch;
                nodes := <[(GetNode ch key).1 := <[key := value]> d]> (nodes ch);
                vnodes := vnodes ch |}.
Proof.
  unfold Put, store_set. destruct (GetNode ch key) as [node e]. simpl.
  destruct (nodes ch !! node) as [d|]; simpl.
  - split; [intros [= <-]; by exists d|]. intros (d' & [= <-] & ->). done.
  - split; [done|]. by intros (? & ? & _).
Qed.

Section placement.
Context (range : ranger) (Hfair : fair range).
Variables (ch : ConsistentHashing) (nodeName : string).
Hypothesis Hsorted : Sorted Z.le (ring ch).
Hypothesis Hplaced : placed ch.

Lemma placed_AddNode ch' out :
  AddNode range ch nodeName = Ret (ch', out) → placed ch'.
Proof.
  destruct (nodes ch !! nodeName) as [d|] eqn:Hn.
  { rewrite AddNode_present by (by eexists). by intros [= <- _]. }
  destruct (AddNode_new range Hfair ch nodeName Hn)
    as (ch'' & out' & d' & Hrun & Hr & Hm & Hv & Hd' & Hothers & Hfrom & _).
  rewrite Hrun. intros [= <- <-]. intros n k v (dn & Hdn & Hk).
  destruct (decide (n = nodeName)) as [->|Hne].
  { rewrite Hd' in Hdn. simplify_eq. by apply (Hfrom k v). }
  rewrite Hothers in Hdn by done.
  destruct (nodes ch !! n) as [dn0|] eqn:Hdn0; [|done]. simpl in Hdn. simplify_eq.
  apply map_lookup_filter_Some in Hk as [Hk Hown]. simpl in Hown.
  rewrite (GetNode_ext ch'' (add_to_ring ch nodeName)) in Hown |- * by done.
  destruct (GetNode_add_to_ring ch nodeName k Hsorted) as [?| ->]; [done|].
  apply (Hplaced n k v). by exists dn0.
Qed.

Hypothesis Hkeys : ∀ p, p ∈ ring ch → is_Some (hashMap ch !! p).
Hypothesis Hown :
  ∀ p m, p ∈ vnodeHashes nodeName (vnodes ch) → hashMap ch !! p = Some m →
         m = nodeName.

Lemma placed_RemoveNode ch' e out :
  RemoveNode range ch nodeName = Ret (ch', e, out) → placed ch'.
Proof.
  intros Hret.
  destruct (RemoveNode_cases range Hfair ch nodeName)
    as [[Hn Hrun]|[(d & k & _ & _ & _ & Hrun)|
                   (d & ch'' & out' & Hn & Hreg & Hrun & Hr & Hm & Hv & Hns)]].
  { rewrite Hrun in Hret. by simplify_eq. }
  { by rewrite Hrun in Hret. }
  rewrite Hrun in Hret. simplify_eq.
  intros n k v (dn' & Hdn' & Hk). rewrite Hns in Hdn'.
  destruct (delete nodeName (nodes ch) !! n) as [dn|] eqn:Hdn; [|done].
  apply lookup_delete_Some in Hdn as [Hne Hdn]. simpl in Hdn'. simplify_eq.
  apply lookup_union_Some_raw in Hk as [Hk|[_ Hk]].
  { by apply map_lookup_filter_Some in Hk as [? ?]. }
  assert ((GetNode ch k).1 = n) as Hpre by (apply (Hplaced n k v); by exists dn).
  rewrite (GetNode_ext ch' (remove_from_ring ch nodeName)) by done.
  rewrite GetNode_remove_from_ring; [done..|]. by rewrite Hpre.
Qed.
End placement.

Lemma placed_Put ch key value ch' :
  placed ch → Put ch key value = Ret ch' → placed ch'.
Proof.
  intros Hplaced (d & Hd & ->)%Put_Ret n k v (dn & Hdn & Hk). simpl in *.
  rewrite (GetNode_ext _ ch) by done.
  destruct (decide ((GetNode ch key).1 = n)) as [<-|Hne].
  - rewrite lookup_insert_eq in Hdn. simplify_eq.
    destruct (decide (key = k)) as [->|Hkey]; [done|].
    rewrite lookup_insert_ne in Hk by done. apply (Hplaced _ k v). by exists d.
  - rewrite lookup_insert_ne in Hdn by done. apply (Hplaced n k v). by exists dn.
Qed.

Lemma placed_unique_keys ch : placed ch → unique_keys (nodes ch).
Proof.
  intros Hplaced n1 n2 k v1 v2 H1 H2.
  by rewrite <-(Hplaced _ _ _ H1), <-(Hplaced _ _ _ H2).
Qed.

(** ** The ring index stays well formed *)

Section ring_ok.
Context (range : ranger) (Hfair : fair range).
Variables (ch : ConsistentHashing) (nodeName : string).
Hypothesis Hok : ring_ok ch.

Lemma ring_ok_AddNode ch' out :
  AddNode range ch nodeName = Ret (ch', out) →
  ring_ok ch' ∧ vnodes ch' = vnodes ch ∧
  (∀ n, is_Some (nodes ch' !! n) ↔ n = nodeName ∨ is_Some (nodes ch !! n)).
Proof.
  destruct Hok as [Hs Hk Ho].
  destruct (nodes ch !! nodeName) as [d|] eqn:Hn.
  { rewrite AddNode_present by (by eexists). intros [= <- _].
    split_and!; [done..|]. intros n. split; [by right|].
    intros [->|?]; [by eexists|done]. }
  destruct (AddNode_new range Hfair ch nodeName Hn)
    as (ch'' & out' & d' & Hrun & Hr & Hm & Hv & Hd' & Hothers & _).
  rewrite Hrun. intros [= <- <-].
  assert (∀ n, is_Some (nodes ch'' !! n) ↔ n = nodeName ∨ is_Some (nodes ch !! n))
    as Hdom.
  { intros n. destruct (decide (n = nodeName)) as [->|Hne].
    - rewrite Hd'. split; [by left|by eexists].
    - rewrite Hothers, fmap_is_Some by done. split; [by right|by intros [?|?]]. }
  split_and!; [|done..]. split.
  - rewrite Hr. apply Sorted_ring_add.
  - intros p. rewrite Hr, Hm, elem_of_ring_add, hashMap_add_to_ring, Hk.
    case_decide; [|tauto]. split; [by eexists|by right].
  - intros p n. rewrite Hm, Hv, hashMap_add_to_ring, Hdom.
    case_decide as Hin.
    + intros [= <-]. split; [by left|done].
    + intros [? ?]%Ho. split; [by right|done].
Qed.

Lemma ring_ok_RemoveNode ch' e out :
  RemoveNode range ch nodeName = Ret (ch', e, out) →
  ring_ok ch' ∧ vnodes ch' = vnodes ch ∧
  (∀ n, is_Some (nodes ch' !! n) → is_Some (nodes ch !! n)).
Proof.
  destruct Hok as [Hs Hk Ho]. intros Hret.
  destruct (RemoveNode_cases range Hfair ch nodeName)
    as [[Hn Hrun]|[(d & k & _ & _ & _ & Hrun)|
                   (d & ch'' & out' & Hn & Hreg & Hrun & Hr & Hm & Hv & Hns)]].
  { rewrite Hrun in Hret. by simplify_eq. }
  { by rewrite Hrun in Hret. }
  rewrite Hrun in Hret. simplify_eq.
  assert (∀ n, is_Some (nodes ch' !! n) ↔ n ≠ nodeName ∧ is_Some (nodes ch !! n))
    as Hdom.
  { intros n. rewrite Hns, fmap_is_Some, lookup_delete_is_Some.
    intuition congruence. }
  split_and!; [|done|by intros n [_ ?]%Hdom]. split.
  - rewrite Hr. by apply Sorted_ring_remove.
  - intros p. rewrite Hr, Hm, elem_of_ring_remove, hashMap_remove_from_ring, Hk.
    case_decide; [|tauto]. split; [by intros [_ ?]|by intros [? ?]].
  - intros p n. rewrite Hm, Hv, hashMap_remove_from_ring, Hdom.
    case_decide as Hin; [done|]. intros Hp. destruct (Ho p n Hp) as [? ?].
    split_and!; [|done..]. by intros ->.
Qed.

Lemma ring_ok_Put key value ch' :
  Put ch key value = Ret ch' →
  ring_ok ch' ∧ vnodes ch' = vnodes ch ∧
  (∀ n, is_Some (nodes ch' !! n) → is_Some (nodes ch !! n)).
Proof.
  destruct Hok as [Hs Hk Ho]. intros (d & Hd & ->)%Put_Ret. simpl.
  assert (∀ n, is_Some (<[(GetNode ch key).1 := <[key := value]> d]> (nodes ch) !! n)
               ↔ is_Some (nodes ch !! n)) as Hdom.
  { intros n. rewrite lookup_insert_is_Some'. split; [|by right].
    intros [<-|?]; [by eexists|done]. }
  split_and!; [|done|by intros n ?%Hdom]. split; simpl; [done..|].
  intros p n Hp. rewrite Hdom. by apply Ho.
Qed.
End ring_ok.

(** ** Without collisions the ring has no duplicates *)

Lemma NoDup_bind_inv {A B} (f : A → list B) (l : list A) :
  NoDup (l ≫= f) →
  (∀ x, x ∈ l → NoDup (f x)) ∧
  (NoDup l → ∀ x1 x2 y, x1 ∈ l → x2 ∈ l → y ∈ f x1 → y ∈ f x2 → x1 = x2).
Proof.
  induction l as [|a l IH].
  { intros _. split; [by intros x ?%elem_of_nil|].
    by intros _ x1 x2 y ?%elem_of_nil. }
  rewrite bind_cons, NoDup_app. intros (Ha & Hdisj & Hrest).
  destruct (IH Hrest) as [IH1 IH2]. split.
  - intros x [->|?]%elem_of_cons; auto.
  - intros [Hnotin Hnd]%NoDup_cons x1 x2 y H1 H2 Hy1 Hy2.
    apply elem_of_cons in H1 as [->|H1], H2 as [->|H2]; [done|..].
    + destruct (Hdisj y Hy1). apply list_elem_of_bind. eauto.
    + destruct (Hdisj y Hy2). apply list_elem_of_bind. eauto.
    + by eapply IH2.
Qed.

Section collision_free.
Variables (v : Z) (names : list string).
Hypothesis Hfree : collision_free v names.

Lemma collision_free_NoDup n : n ∈ names → NoDup (vnodeHashes n v).
Proof.
  intros Hn. apply NoDup_bind_inv in Hfree as [Hall _].
  by apply (Hall n), elem_of_remove_dups.
Qed.

Lemma collision_free_disjoint n1 n2 p :
  n1 ∈ names → n2 ∈ names →
  p ∈ vnodeHashes n1 v → p ∈ vnodeHashes n2 v → n1 = n2.
Proof.
  intros H1 H2 Hp1 Hp2. apply NoDup_bind_inv in Hfree as [_ Hdisj].
  eapply (Hdisj (NoDup_remove_dups names) n1 n2 p);
    [by apply elem_of_remove_dups..|done|done].
Qed.
End collision_free.

(** ** Runs *)

Lemma NoDup_ring_remove ch nm :
  NoDup (ring ch) → NoDup (ring (remove_from_ring ch nm)).
Proof.
  intros Hnd. unfold remove_from_ring. rewrite foldl_remove_vnode. simpl.
  by apply NoDup_filter.
Qed.

Lemma run_inv_New v names : run_inv v names (NewConsistentHashing v).
Proof.
  split_and!; [split| | |]; simpl.
  - constructor.
  - intros p. rewrite lookup_empty. split; [by intros ?%elem_of_nil|by intros [? ?]].
  - intros p n. by rewrite lookup_empty.
  - done.
  - intros n. rewrite lookup_empty. by intros [? ?].
  - intros _. split_and!; [constructor| |].
    + by intros n k val (d & Hd & _).
    + intros n p. rewrite lookup_empty. by intros [? ?].
Qed.

Section runs.
Context (range : ranger) (Hfair : fair range).
Variables (v : Z) (names : list string).

Lemma run_inv_step ch o ch' :
  run_inv v names ch → (∀ n, o = OpAdd n → n ∈ names) →
  step range ch o = Ret ch' → run_inv v names ch'.
Proof.
  intros (Hok & Hv & Hreg & Hfree) Hadd Hstep.
  destruct o as [nm|nm|key value]; simpl in Hstep.
  - destruct (AddNode range ch nm) as [|[ch1 out]] eqn:Hrun; [done|].
    simpl in Hstep. simplify_eq.
    destruct (ring_ok_AddNode range Hfair ch nm Hok _ _ Hrun) as (Hok' & Hv' & Hdom).
    split_and!; [done|by rewrite Hv'| |].
    { intros n [->|?]%Hdom; [by apply Hadd|by apply Hreg]. }
    intros Hcf. destruct (Hfree Hcf) as (Hnd & Hplaced & Hall).
    assert (placed ch') as Hplaced'.
    { eapply placed_AddNode; [done|apply Hok|done|done]. }
    destruct (nodes ch !! nm) as [d|] eqn:Hn.
    { rewrite AddNode_present in Hrun by (by eexists). by simplify_eq. }
    destruct (AddNode_new range Hfair ch nm Hn)
      as (ch'' & out' & d' & Hrun' & Hr & _).
    rewrite Hrun' in Hrun. simplify_eq. split_and!; [|done|].
    + rewrite Hr, ring_add_to_ring. unfold sort_ring.
      rewrite merge_sort_Permutation. apply NoDup_app. split_and!; [done| |].
      * intros p Hp Hp'. apply (ring_keys _ Hok) in Hp as [m Hm].
        destruct (ring_owners _ Hok p m Hm) as [Hm1 Hm2].
        assert (m = nm) as ->.
        { eapply (collision_free_disjoint (vnodes ch) names Hcf m nm p);
            [by apply Hreg|by apply Hadd|done..]. }
        rewrite Hn in Hm1. by destruct Hm1.
      * eapply collision_free_NoDup; [done|by apply Hadd].
    + intros n p Hn' Hp. rewrite Hr. apply elem_of_ring_add.
      apply Hdom in Hn' as [->|Hn']; [by right|left; by eapply Hall].
  - destruct (RemoveNode range ch nm) as [|[[ch1 e] out]] eqn:Hrun; [done|].
    simpl in Hstep. simplify_eq.
    destruct (ring_ok_RemoveNode range Hfair ch nm Hok _ _ _ Hrun)
      as (Hok' & Hv' & Hdom).
    split_and!; [done|by rewrite Hv'|by intros n ?%Hdom%Hreg|].
    intros Hcf. destruct (Hfree Hcf) as (Hnd & Hplaced & Hall).
    destruct (RemoveNode_cases range Hfair ch nm)
      as [[Hn Hrun']|[(d & k & _ & _ & _ & Hrun')|
                      (d & ch'' & out' & Hn & _ & Hrun' & Hr & _ & _ & Hns)]].
    { rewrite Hrun' in Hrun. by simplify_eq. }
    { by rewrite Hrun' in Hrun. }
    split_and!.
    + rewrite Hrun' in Hrun. simplify_eq. rewrite Hr. by apply NoDup_ring_remove.
    + eapply placed_RemoveNode; [done|apply Hok|done| | |done].
      * intros p Hp. by apply (ring_keys _ Hok).
      * intros p m Hp Hm. destruct (ring_owners _ Hok p m Hm) as [Hm1 Hm2].
        eapply (collision_free_disjoint (vnodes ch) names Hcf m nm p);
          [by apply Hreg|apply Hreg; by eexists|done..].
    + rewrite Hrun' in Hrun. simplify_eq. intros n p Hn' Hp.
      rewrite Hns, fmap_is_Some, lookup_delete_is_Some in Hn'.
      destruct Hn' as [Hne Hn']. rewrite Hr. apply elem_of_ring_remove.
      split; [by eapply Hall|]. intros Hp'. apply Hne.
      eapply (collision_free_disjoint (vnodes ch) names Hcf nm n p);
        [apply Hreg; by eexists|by apply Hreg|done..].
  - destruct (ring_ok_Put ch Hok _ _ _ Hstep) as (Hok' & Hv' & Hdom).
    split_and!; [done|by rewrite Hv'|by intros n ?%Hdom%Hreg|].
    intros Hcf. destruct (Hfree Hcf) as (Hnd & Hplaced & Hall). split_and!.
    + apply Put_Ret in Hstep as (d & _ & ->). done.
    + by eapply placed_Put.
    + intros n p Hn' Hp. apply Hdom in Hn'.
      apply Put_Ret in Hstep as (d & _ & ->). simpl. by eapply Hall.
Qed.

Lemma run_inv_steps ops ch ch' :
  run_inv v names ch → (∀ n, n ∈ added ops → n ∈ names) →
  for_each (step range) ops ch = Ret ch' → run_inv v names ch'.
Proof.
  revert ch. induction ops as [|o ops IH]; intros ch Hinv Hadd Hrun.
  { simpl in Hrun. by simplify_eq. }
  cbn [for_each] in Hrun.
  destruct (step range ch o) as [|ch1] eqn:Hstep; [done|]. cbn [bind] in Hrun.
  eapply IH; [|  |done].
  - eapply run_inv_step; [done| |done]. intros n ->. apply Hadd.
    unfold added. rewrite bind_cons. apply elem_of_app. left. by left.
  - intros n Hn. apply Hadd. unfold added. rewrite bind_cons.
    apply elem_of_app. by right.
Qed.
End runs.

Lemma run_inv_run range v ops ch :
  fair range → run range v ops = Ret ch → run_inv v (added ops) ch.
Proof.
  intros Hfair Hrun. eapply run_inv_steps; [done|apply run_inv_New|done|done].
Qed.

(** ** The example rings *)

Example hashKey_check : hashKey "123456789" = 0xcbf43926.
Proof. vm_compute. reflexivity. Qed.

Example vnodeKey_check : vnodeKey "node-0" 17 = "node-0#17".
Proof. vm_compute. reflexivity. Qed.

Lemma demo_run : run canonical 2 demo_ops = Ret demo.
Proof. vm_compute. reflexivity. Qed.

Lemma collide_run : run canonical 1 collide_ops = Ret collide.
Proof. vm_compute. reflexivity. Qed.

Lemma lonely_run : run canonical 1 [OpAdd "A"; OpPut "k" "v"] = Ret lonely.
Proof. vm_compute. reflexivity. Qed.

(** [AddNode("C")] on the example claims [user_36] from [B] and [user_37]
    from [A]; the two other records stay. *)
Example demo_AddNode_C :
  ∃ ch', AddNode canonical demo "C" =
         Ret (ch', [MsgAdding "C"; MsgMovedTo 2 "C" {["A" := 1; "B" := 1]}]) ∧
    ring ch' = [338675569; 367897926; 376011048; 1634617790; 1659542992;
                1663629287] ∧
    nodes ch' = {[ "A" := {["user_8" := "data_for_user_8"]};
                   "B" := {["user_0" := "data_for_user_0"]};
                   "C" := {["user_36" := "data_for_user_36";
                            "user_37" := "data_for_user_37"]} ]}.
Proof. eexists. split_and!; vm_compute; reflexivity. Qed.

(** [RemoveNode("A")] on the example sends the two records of [A] to [B]. *)
Example demo_RemoveNode_A :
  ∃ ch', RemoveNode canonical demo "A" =
         Ret (ch', None, [MsgRemoving "A"; MsgMovedFrom 2 "A" {["B" := 2]}]) ∧
    ring ch' = [338675569; 1663629287] ∧
    nodes ch' = {[ "B" := {["user_0" := "data_for_user_0";
                            "user_8" := "data_for_user_8";
                            "user_36" := "data_for_user_36";
                            "user_37" := "data_for_user_37"]} ]}.
Proof. eexists. split_and!; vm_compute; reflexivity. Qed.

Lemma demo_collision_free : collision_free 2 (added demo_ops).
Proof.
  unfold collision_free. eapply (bool_decide_unpack _). vm_compute. exact I.
Qed.

Lemma demo_inv : run_inv 2 (added demo_ops) demo.
Proof. apply (run_inv_run canonical), demo_run. apply canonical_fair. Qed.

Lemma demo_placed : placed demo.
Proof. apply demo_inv, demo_collision_free. Qed.

Lemma demo_sorted : Sorted Z.le (ring demo).
Proof. apply demo_inv. Qed.

Lemma AddNode_returns range ch nodeName :
  fair range → ∃ ch' out, AddNode range ch nodeName = Ret (ch', out).
Proof.
  intros Hfair. destruct (nodes ch !! nodeName) as [d|] eqn:Hn.
  - eexists _, _. apply AddNode_present. by eexists.
  - destruct (AddNode_new range Hfair ch nodeName Hn) as (ch' & out & _ & Hrun & _).
    by exists ch', out.
Qed.

(** Adding nodes and writing records through [GetNode] never misplaces a
    record, collisions or not. *)
Lemma placed_no_remove range v ops ch :
  fair range → no_remove ops → run range v ops = Ret ch → placed ch.
Proof.
  intros Hfair Hnr Hrun.
  assert (∀ ops' ch0 ch', no_remove ops' → ring_ok ch0 → placed ch0 →
            for_each (step range) ops' ch0 = Ret ch' → placed ch') as Hgen.
  { intros ops'. induction ops' as [|o ops' IH]; intros ch0 ch' Hnr' Hok Hpl Hrun'.
    { simpl in Hrun'. by simplify_eq. }
    cbn [for_each] in Hrun'.
    destruct (step range ch0 o) as [|ch1] eqn:Hstep; [done|]. cbn [bind] in Hrun'.
    assert (no_remove ops') as Hnr'' by (intros n Hin; apply (Hnr' n); by right).
    destruct o as [nm|nm|key value]; simpl in Hstep.
    - destruct (AddNode range ch0 nm) as [|[ch2 out]] eqn:Hadd; [done|].
      simpl in Hstep. simplify_eq. eapply IH; [done| |  |done].
      + by eapply (ring_ok_AddNode range Hfair ch0 nm Hok).
      + eapply placed_AddNode; [done|apply Hok|done|done].
    - destruct (Hnr' nm). by left.
    - eapply IH; [done| | |done].
      + by eapply (ring_ok_Put ch0 Hok).
      + by eapply placed_Put. }
  eapply Hgen; [done| | |done].
  - apply (run_inv_New v []).
  - by intros n k val (d & Hd & _).
Qed.

(** Without collisions among the VNodes of the nodes it adds, a run leaves
    every record on the node [GetNode] names, and no key in two stores; with
    at least one VNode per node, [GetNode] names that node without error. *)
Corollary run_placed range v ops ch :
  fair range → collision_free v (added ops) → run range v ops = Ret ch →
  placed ch ∧ unique_keys (nodes ch) ∧
  (0 < v → ∀ node key value,
     stored (nodes ch) node key value → GetNode ch key = (node, None)).
Proof.
  intros Hfair Hcf Hrun.
  destruct (run_inv_run range v ops ch Hfair Hrun) as (_ & _ & _ & Hplaced).
  destruct (Hplaced Hcf) as (_ & Hpl & Hall).
  split_and!; [done|by apply placed_unique_keys|].
  intros Hv node key value Hst.
  assert (ring ch ≠ []) as Hne.
  { assert (hashKey (vnodeKey node 0) ∈ ring ch) as Hin.
    - apply (Hall node); [destruct Hst as (d & -> & _); by eexists|].
      unfold vnodeHashes. rewrite seqZ_cons by done. by left.
    - intros Hemp. rewrite Hemp in Hin. by apply elem_of_nil in Hin. }
  destruct (GetNode_nonempty ch key Hne) as (idx & p & _ & HG & _).
  specialize (Hpl node key value Hst). rewrite HG in Hpl |- *. simpl in Hpl.
  by rewrite Hpl.
Qed.

(** ** Where the records are after a call *)

Section stored_after.
Context (range : ranger) (Hfair : fair range).
Variables (ch : ConsistentHashing) (nodeName : string).

(** After [AddNode] of a new name. *)
Lemma AddNode_stored ch' out :
  nodes ch !! nodeName = None → AddNode range ch nodeName = Ret (ch', out) →
  (∀ n k v, stored (nodes ch') n k v →
     (n = nodeName ∧ (GetNode ch' k).1 = nodeName ∧ ∃ s, stored (nodes ch) s k v) ∨
     (n ≠ nodeName ∧ (GetNode ch' k).1 ≠ nodeName ∧ stored (nodes ch) n k v)) ∧
  (∀ n k v, stored (nodes ch) n k v →
     n ≠ nodeName ∧
     ((GetNode ch' k).1 ≠ nodeName → stored (nodes ch') n k v) ∧
     ((GetNode ch' k).1 = nodeName →
        (∃ v', stored (nodes ch') nodeName k v') ∧ ∀ v', ¬ stored (nodes ch') n k v')).
Proof.
  intros Hn Hret.
  destruct (AddNode_new range Hfair ch nodeName Hn)
    as (ch'' & out' & d' & Hrun & Hr & Hm & Hv & Hd' & Hothers & Hfrom & Hto).
  rewrite Hrun in Hret. simplify_eq. split.
  - intros n k v (dn & Hdn & Hk). destruct (decide (n = nodeName)) as [->|Hne].
    + left. rewrite Hd' in Hdn. simplify_eq.
      destruct (Hfrom k v Hk) as [? ?]. done.
    + right. rewrite Hothers in Hdn by done.
      destruct (nodes ch !! n) as [dn0|] eqn:Hdn0; [|done]. simpl in Hdn.
      simplify_eq. apply map_lookup_filter_Some in Hk as [Hk Hown].
      split_and!; [done..|]. by exists dn0.
  - intros n k v (dn & Hdn & Hk).
    assert (n ≠ nodeName) as Hne by (intros ->; by rewrite Hn in Hdn).
    split_and!; [done| |].
    + intros Hown. exists (filter (λ kv, (GetNode ch' kv.1).1 ≠ nodeName) dn).
      split; [by rewrite Hothers, Hdn|]. by apply map_lookup_filter_Some.
    + intros Hown. split.
      * destruct (Hto n k v) as [v' Hv']; [by exists dn|done|].
        exists v', d'. done.
      * intros v' (dn' & Hdn' & Hk'). rewrite Hothers, Hdn in Hdn' by done.
        simpl in Hdn'. simplify_eq.
        by apply map_lookup_filter_Some in Hk' as [_ ?].
Qed.

(** After [RemoveNode] of a registered name, when it returns. *)
Lemma RemoveNode_stored dataToMove ch' e out :
  nodes ch !! nodeName = Some dataToMove →
  RemoveNode range ch nodeName = Ret (ch', e, out) →
  e = None ∧
  (∀ n k v, stored (nodes ch') n k v →
     n ≠ nodeName ∧
     ((dataToMove !! k = Some v ∧ (GetNode ch' k).1 = n) ∨ stored (nodes ch) n k v)) ∧
  (∀ n k v, stored (nodes ch) n k v → n ≠ nodeName →
     (∃ v', stored (nodes ch') n k v') ∧
     (dataToMove !! k = None → stored (nodes ch') n k v)) ∧
  (∀ k v, dataToMove !! k = Some v →
     (GetNode ch' k).1 ≠ nodeName ∧ stored (nodes ch') (GetNode ch' k).1 k v).
Proof.
  intros Hn Hret.
  destruct (RemoveNode_cases range Hfair ch nodeName)
    as [[Hn' Hrun]|[(d & k & _ & _ & _ & Hrun)|
                    (d & ch'' & out' & Hn' & Hreg & Hrun & Hr & Hm & Hv & Hns)]].
  { by rewrite Hn in Hn'. }
  { by rewrite Hrun in Hret. }
  rewrite Hrun in Hret. simplify_eq.
  assert (∀ k, GetNode ch' k = GetNode (remove_from_ring ch nodeName) k) as HG
    by (intros k; by apply GetNode_ext).
  split_and!; [done| | |].
  - intros n k v (dn' & Hdn' & Hk). rewrite Hns in Hdn'.
    destruct (delete nodeName (nodes ch) !! n) as [dn|] eqn:Hdn; [|done].
    apply lookup_delete_Some in Hdn as [Hne Hdn]. simpl in Hdn'. simplify_eq.
    split; [done|]. apply lookup_union_Some_raw in Hk as [Hk|[_ Hk]].
    + left. by apply map_lookup_filter_Some in Hk.
    + right. by exists dn.
  - intros n k v (dn & Hdn & Hk) Hne.
    assert (nodes ch' !! n =
            Some (filter (λ kv, (GetNode ch' kv.1).1 = n) dataToMove ∪ dn)) as Hn'.
    { by rewrite Hns, lookup_delete_ne, Hdn. }
    split.
    + destruct ((filter (λ kv, (GetNode ch' kv.1).1 = n) dataToMove ∪ dn) !! k)
        as [v'|] eqn:Hv'.
      * by exists v', (filter (λ kv, (GetNode ch' kv.1).1 = n) dataToMove ∪ dn).
      * apply lookup_union_None in Hv' as [_ Hv']. by rewrite Hk in Hv'.
    + intros Hfresh. eexists. split; [exact Hn'|].
      rewrite lookup_union_r; [done|]. apply map_lookup_filter_None. by left.
  - intros k v Hk.
    destruct (Hreg k) as [dn Hdn]; [by exists v|].
    rewrite nodes_remove_from_ring in Hdn.
    apply lookup_delete_Some in Hdn as [Hne Hdn]. rewrite <-HG in Hne, Hdn.
    split; [done|]. eexists. split; [by rewrite Hns, lookup_delete_ne, Hdn|].
    apply lookup_union_Some_raw. left. by apply map_lookup_filter_Some.
Qed.
End stored_after.

(** * The specification, claim by claim *)

Ltac by_compute := eapply (bool_decide_unpack _); vm_compute; exact I.

(** ** Ownership resolution *)

(** C4. On a ring that is sorted and not empty, [GetNode] returns, without
    error, the owner recorded for a position [p] of the ring. Either the index
    [sort.Search] finds is the index of [p], and [p] is the first position at
    or after the hash of the key: it is at or after the hash and every
    earlier position is below it. Or [sort.Search] finds no index (it returns
    the length of the ring) because the hash exceeds every position, and
    [GetNode] wraps around to index 0: [p] is the smallest position. *)
Theorem GetNode_clockwise ch key :
  Sorted Z.le (ring ch) → ring ch ≠ [] →
  let found := Search (length (ring ch))
                 (λ i, bool_decide (hashKey key ≤ ring ch !!! i)) in
  ∃ idx p, ring ch !! idx = Some p ∧ GetNode ch key = (owner ch p, None) ∧
    ((found = idx ∧ hashKey key ≤ p ∧
      ∀ j q, ring ch !! j = Some q → (j < idx)%nat → q < hashKey key) ∨
     (found = length (ring ch) ∧ (∀ q, q ∈ ring ch → q < hashKey key) ∧
      idx = 0%nat ∧ ∀ q, q ∈ ring ch → p ≤ q)).
Proof. apply GetNode_sorted. Qed.

Lemma GetNode_clockwise_witness :
  Sorted Z.le (ring demo) ∧ ring demo ≠ [] ∧
  let found := Search (length (ring demo))
                 (λ i, bool_decide (hashKey "user_8" ≤ ring demo !!! i)) in
  ∃ idx p, ring demo !! idx = Some p ∧
    GetNode demo "user_8" = (owner demo p, None) ∧
    ((found = idx ∧ hashKey "user_8" ≤ p ∧
      ∀ j q, ring demo !! j = Some q → (j < idx)%nat → q < hashKey "user_8") ∨
     (found = length (ring demo) ∧ (∀ q, q ∈ ring demo → q < hashKey "user_8") ∧
      idx = 0%nat ∧ ∀ q, q ∈ ring demo → p ≤ q)).
Proof.
  assert (Sorted Z.le (ring demo)) as Hs by by_compute.
  assert (ring demo ≠ []) as Hne by by_compute.
  split; [exact Hs|]. split; [exact Hne|].
  exact (GetNode_clockwise demo "user_8" Hs Hne).
Defined.

(** The two cases on the example: [user_8] resolves to the position at index
    2, of [A], and [user_0] to the one at index 0, of [B]; [key_0] hashes
    past the last position and wraps around to the first, of [B]. *)
Example GetNode_demo :
  ring demo = [338675569; 376011048; 1634617790; 1663629287] ∧
  hashKey "user_8" = 452191684 ∧ GetNode demo "user_8" = ("A", None) ∧
  hashKey "user_0" = 338193910 ∧ GetNode demo "user_0" = ("B", None) ∧
  hashKey "key_0" = 1692570776 ∧ GetNode demo "key_0" = ("B", None).
Proof. split_and!; vm_compute; reflexivity. Qed.

(** C6. [GetNode] fails with the empty-ring error exactly when the ring holds
    no position; on a ring that is not empty it returns, without error, the
    owner recorded for one of the positions, which on a well-formed ring is a
    registered node. *)
Theorem GetNode_EmptyRing ch key :
  ((GetNode ch key).2 = Some ErrEmptyRing ↔ ring ch = []) ∧
  (ring ch = [] → GetNode ch key = ("", Some ErrEmptyRing)) ∧
  (ring ch ≠ [] → ∃ p, p ∈ ring ch ∧ GetNode ch key = (owner ch p, None)) ∧
  (ring ch ≠ [] → ring_ok ch →
   ∃ nodeName, GetNode ch key = (nodeName, None) ∧ is_Some (nodes ch !! nodeName)).
Proof.
  assert (ring ch ≠ [] → ∃ p, p ∈ ring ch ∧ GetNode ch key = (owner ch p, None))
    as Hne.
  { intros (idx & p & Hp & HG & _)%(GetNode_nonempty ch key).
    exists p. split; [by eapply list_elem_of_lookup_2|done]. }
  split_and!; [|apply GetNode_empty|done|].
  - split.
    + intros Herr. destruct (decide (ring ch = [])) as [|Hr]; [done|].
      destruct (Hne Hr) as (p & _ & HG). by rewrite HG in Herr.
    + intros Hr. by rewrite GetNode_empty.
  - intros Hr [_ Hk Ho]. destruct (Hne Hr) as (p & Hp & HG).
    apply Hk in Hp as [n Hn]. exists n. unfold owner in HG. rewrite Hn in HG.
    split; [done|]. by apply (Ho p n).
Qed.

(** ** Errors of the membership operations *)

(** C7. [AddNode] on a name that has a store reports that the node already
    exists and returns the state it was given: ring, owner mapping and
    stores are the same, so the VNodes of the node are not added twice. *)
Theorem AddNode_already_exists range ch nodeName :
  is_Some (nodes ch !! nodeName) →
  AddNode range ch nodeName = Ret (ch, [MsgNodeAlreadyExists nodeName]).
Proof. intros Hn. unfold AddNode. by rewrite decide_True. Qed.

Lemma AddNode_already_exists_witness :
  is_Some (nodes ringA8 !! "A") ∧
  AddNode canonical ringA8 "A" = Ret (ringA8, [MsgNodeAlreadyExists "A"]) ∧
  length (ring ringA8) = 8%nat.
Proof.
  assert (is_Some (nodes ringA8 !! "A")) as Hn by by_compute.
  split; [exact Hn|]. split; [|vm_compute; reflexivity].
  exact (AddNode_already_exists canonical ringA8 "A" Hn).
Defined.

(** C8. [RemoveNode] on a name that has no store returns the not-found error
    and the state it was given: nothing is mutated and nothing is printed. *)
Theorem RemoveNode_not_found range ch nodeName :
  nodes ch !! nodeName = None →
  RemoveNode range ch nodeName = Ret (ch, Some (ErrNodeNotFound nodeName), []).
Proof. intros Hn. unfold RemoveNode. by rewrite Hn. Qed.

Lemma RemoveNode_not_found_witness :
  nodes demo !! "Z" = None ∧
  RemoveNode canonical demo "Z" = Ret (demo, Some (ErrNodeNotFound "Z"), []).
Proof.
  assert (nodes demo !! "Z" = None) as Hn by (vm_compute; reflexivity).
  split; [exact Hn|]. exact (RemoveNode_not_found canonical demo "Z" Hn).
Defined.

(** ** Rebalancing *)





(** C3 as stated fails in a state where a key is held by two stores. The two
    colliding nodes and [node-a] are added, [user_10] is written (to
    [node-2ll2cz5]), [node-2abx0lg] is removed, and [user_10] is written
    again: it now resolves to [node-a], so the key is in two stores and the
    total is 2. Removing [node-2ll2cz5] then moves its copy over the one of
    [node-a]: the total is 1. *)
Lemma records_lost_on_duplicated_key :
  run canonical 1 (collide_ops ++ [OpRemove "node-2abx0lg"; OpPut "user_10" "v2"])
  = Ret duplicated ∧
  stored (nodes duplicated) "node-2ll2cz5" "user_10" "data_for_user_10" ∧
  stored (nodes duplicated) "node-a" "user_10" "v2" ∧
  totalRecords canonical duplicated = 2 ∧
  ∃ ch' out,
    RemoveNode canonical duplicated "node-2ll2cz5" = Ret (ch', None, out) ∧
    totalRecords canonical ch' = 1.
Proof.
  split_and!.
  - vm_compute. reflexivity.
  - eexists. split; vm_compute; reflexivity.
  - eexists. split; vm_compute; reflexivity.
  - vm_compute. reflexivity.
  - eexists _, _. split; vm_compute; reflexivity.
Qed.

(** C3, amended. [AddNode] and [RemoveNode] neither create nor destroy a
    key: the keys found in the stores are the same before and after a
    completed call. When no key is in two stores before the call, none is
    after it, and the total number of records, the sum [printNodeStats]
    prints, is unchanged. *)
Theorem records_conserved range ch nodeName :
  fair range →
  (∃ ch' out, AddNode range ch nodeName = Ret (ch', out) ∧
     (∀ k, (∃ n v, stored (nodes ch') n k v) ↔ (∃ n v, stored (nodes ch) n k v)) ∧
     (unique_keys (nodes ch) →
        totalRecords range ch' = totalRecords range ch ∧ unique_keys (nodes ch'))) ∧
  (∀ ch' e out, RemoveNode range ch nodeName = Ret (ch', e, out) →
     (∀ k, (∃ n v, stored (nodes ch') n k v) ↔ (∃ n v, stored (nodes ch) n k v)) ∧
     (unique_keys (nodes ch) →
        totalRecords range ch' = totalRecords range ch ∧ unique_keys (nodes ch'))).
Proof.
  intros Hfair. split.
  - destruct (AddNode_returns range ch nodeName Hfair) as (ch' & out & Hrun).
    exists ch', out. split_and!; [done| |].
    + destruct (nodes ch !! nodeName) as [d|] eqn:Hn.
      { rewrite AddNode_present in Hrun by (by eexists). by simplify_eq. }
      destruct (AddNode_stored range Hfair ch nodeName ch' out Hn Hrun)
        as [Hbefore Hafter].
      intros k. split.
      * intros (n & v & [(_ & _ & s & ?)|(_ & _ & ?)]%Hbefore); eauto.
      * intros (n & v & Hst). destruct (Hafter n k v Hst) as (_ & Hstay & Hmove).
        destruct (decide ((GetNode ch' k).1 = nodeName)) as [Hown|Hown].
        -- destruct (Hmove Hown) as [[v' ?] _]. eauto.
        -- eauto.
    + intros Huniq. rewrite !totalRecords_records by done.
      destruct (AddNode_records range Hfair ch nodeName Huniq ch' out Hrun) as [-> ?].
      done.
  - intros ch' e out Hrun. split.
    + destruct (nodes ch !! nodeName) as [d|] eqn:Hn.
      2:{ rewrite RemoveNode_absent in Hrun by done. by simplify_eq. }
      destruct (RemoveNode_stored range Hfair ch nodeName d ch' e out Hn Hrun)
        as (_ & Hbefore & Hothers & Hmoved).
      intros k. split.
      * intros (n & v & [_ [[Hk _]|?]]%Hbefore); [|by eauto].
        exists nodeName, v, d. done.
      * intros (n & v & Hst). destruct (decide (n = nodeName)) as [->|Hne].
        -- apply (stored_lookup _ _ _ _ _ Hn) in Hst.
           destruct (Hmoved k v Hst) as [_ ?]. eauto.
        -- destruct (Hothers n k v Hst Hne) as [[v' ?] _]. eauto.
    + intros Huniq. rewrite !totalRecords_records by done.
      destruct (RemoveNode_records range Hfair ch nodeName Huniq ch' e out Hrun)
        as [-> ?].
      done.
Qed.

Lemma records_conserved_witness :
  fair canonical ∧
  (∃ ch' out, AddNode canonical demo "C" = Ret (ch', out) ∧
     (∀ k, (∃ n v, stored (nodes ch') n k v) ↔ (∃ n v, stored (nodes demo) n k v)) ∧
     (unique_keys (nodes demo) →
        totalRecords canonical ch' = totalRecords canonical demo ∧
        unique_keys (nodes ch'))) ∧
  (∀ ch' e out, RemoveNode canonical demo "C" = Ret (ch', e, out) →
     (∀ k, (∃ n v, stored (nodes ch') n k v) ↔ (∃ n v, stored (nodes demo) n k v)) ∧
     (unique_keys (nodes demo) →
        totalRecords canonical ch' = totalRecords canonical demo ∧
        unique_keys (nodes ch'))).
Proof.
  split; [exact canonical_fair|].
  exact (records_conserved canonical demo "C" canonical_fair).
Defined.

Lemma demo_unique_keys : unique_keys (nodes demo).
Proof. apply placed_unique_keys, demo_placed. Qed.

(** C9 as stated fails: removing the only node while its store is empty
    returns without fault although the ring is empty afterwards. *)
Lemma RemoveNode_returns_on_emptied_ring :
  run canonical 1 [OpAdd "A"] = Ret ringA1 ∧
  ring (remove_from_ring ringA1 "A") = [] ∧
  RemoveNode canonical ringA1 "A" =
  Ret (NewConsistentHashing 1, None, [MsgRemoving "A"; MsgMovedFrom 0 "A" ∅]).
Proof. split_and!; vm_compute; reflexivity. Qed.

(** C9, amended. [RemoveNode] of a registered node returns without fault if
    and only if, on the ring without the VNodes of the node, the name
    [GetNode] returns for every record of its store (the empty name when that
    ring is empty, the error being dropped) is a registered node. So a call
    that returns from a store that is not empty, while no node is registered
    under the empty name, leaves a ring that is not empty; and removing the
    only registered node while its store is not empty panics, on the write
    into a store that does not exist, instead of returning an error. *)
Theorem RemoveNode_faults range ch nodeName dataToMove :
  fair range → nodes ch !! nodeName = Some dataToMove →
  let ch1 := remove_from_ring ch nodeName in
  (RemoveNode range ch nodeName ≠ Panic ↔
   ∀ k, is_Some (dataToMove !! k) → is_Some (nodes ch1 !! (GetNode ch1 k).1)) ∧
  (RemoveNode range ch nodeName ≠ Panic → dataToMove ≠ ∅ →
   nodes ch1 !! "" = None → ring ch1 ≠ []) ∧
  (dataToMove ≠ ∅ → (∀ n, is_Some (nodes ch !! n) → n = nodeName) →
   RemoveNode range ch nodeName = Panic).
Proof.
  intros Hfair Hn ch1.
  assert (RemoveNode range ch nodeName ≠ Panic ↔
          ∀ k, is_Some (dataToMove !! k) → is_Some (nodes ch1 !! (GetNode ch1 k).1))
    as Hiff.
  { split.
    - intros Hret k Hk.
      destruct (nodes ch1 !! (GetNode ch1 k).1) as [d|] eqn:Hd; [by eexists|].
      destruct Hret. by eapply RemoveNode_panics.
    - intros Hreg.
      destruct (RemoveNode_present range Hfair ch nodeName dataToMove Hn Hreg)
        as (ch' & out & Hrun & _).
      by rewrite Hrun. }
  split_and!; [done| |].
  - intros Hret Hdata Hnone Hemp.
    apply map_choose in Hdata as (k & v & Hk).
    destruct (proj1 Hiff Hret k) as [d Hd]; [by exists v|].
    rewrite (GetNode_empty ch1 k Hemp) in Hd. simpl in Hd. by rewrite Hnone in Hd.
  - intros Hdata Hsole. apply map_choose in Hdata as (k & v & Hk).
    eapply RemoveNode_panics; [done..|by exists v|].
    rewrite nodes_remove_from_ring. apply eq_None_not_Some.
    intros [Hne Hreg]%lookup_delete_is_Some. by apply Hne, eq_sym, Hsole.
Qed.

Lemma RemoveNode_faults_witness :
  fair canonical ∧ nodes lonely !! "A" = Some {["k" := "v"]} ∧
  let ch1 := remove_from_ring lonely "A" in
  (RemoveNode canonical lonely "A" ≠ Panic ↔
   ∀ k, is_Some (({["k" := "v"]} : gmap string string) !! k) →
        is_Some (nodes ch1 !! (GetNode ch1 k).1)) ∧
  (RemoveNode canonical lonely "A" ≠ Panic →
   ({["k" := "v"]} : gmap string string) ≠ ∅ →
   nodes ch1 !! "" = None → ring ch1 ≠ []) ∧
  (({["k" := "v"]} : gmap string string) ≠ ∅ →
   (∀ n, is_Some (nodes lonely !! n) → n = "A") →
   RemoveNode canonical lonely "A" = Panic).
Proof.
  assert (nodes lonely !! "A" = Some {["k" := "v"]}) as Hn
    by (vm_compute; reflexivity).
  split; [exact canonical_fair|]. split; [exact Hn|].
  exact (RemoveNode_faults canonical lonely "A" {["k" := "v"]} canonical_fair Hn).
Defined.

(** The fault itself, on the example: the only node holds one record. *)
Example RemoveNode_sole_node_panics : RemoveNode canonical lonely "A" = Panic.
Proof. vm_compute. reflexivity. Qed.

(** ** The ring index *)

(** C5 as stated fails: two nodes whose VNodes have the same checksum put the
    position in the ring twice. *)
Lemma ring_duplicate_on_collision :
  ∃ ch, run canonical 1 [OpAdd "node-2abx0lg"; OpAdd "node-2ll2cz5"] = Ret ch ∧
        ring ch = [3991779628; 3991779628] ∧ ¬ NoDup (ring ch).
Proof.
  eexists. split; [vm_compute; reflexivity|]. split; [reflexivity|].
  simpl. intros [Hin _]%NoDup_cons. apply Hin. by left.
Qed.

(** C5, amended. In every state of a run (construction, then any sequence of
    [AddNode], [RemoveNode] and writes through [GetNode]) the ring is sorted
    and its positions are exactly the keys of the owner mapping. It has no
    duplicate position when the VNodes of the nodes the run adds hash to
    distinct positions. *)
Theorem ring_index_invariant range v ops ch :
  fair range → run range v ops = Ret ch →
  Sorted Z.le (ring ch) ∧
  (∀ p, p ∈ ring ch ↔ p ∈ dom (hashMap ch)) ∧
  (collision_free v (added ops) → NoDup (ring ch)).
Proof.
  intros Hfair Hrun.
  destruct (run_inv_run range v ops ch Hfair Hrun) as ([Hs Hk _] & _ & _ & Hcf).
  split_and!; [done| |by intros [? _]%Hcf].
  intros p. by rewrite elem_of_dom.
Qed.

Lemma ring_index_invariant_witness :
  fair canonical ∧ run canonical 2 demo_ops = Ret demo ∧
  Sorted Z.le (ring demo) ∧
  (∀ p, p ∈ ring demo ↔ p ∈ dom (hashMap demo)) ∧
  (collision_free 2 (added demo_ops) → NoDup (ring demo)).
Proof.
  assert (run canonical 2 demo_ops = Ret demo) as Hrun by (vm_compute; reflexivity).
  split; [exact canonical_fair|]. split; [exact Hrun|].
  exact (ring_index_invariant canonical 2 demo_ops demo canonical_fair Hrun).
Defined.

(** ** The placement invariant *)

(** C1, the defect. The two colliding nodes and [node-a] are added and
    [user_10] is written: it is on [node-2ll2cz5], where [GetNode] places it,
    and [verifyKeys] counts one correct key. [RemoveNode] of [node-2abx0lg]
    then returns without error, having dropped the shared position from the
    ring: [user_10] is still on [node-2ll2cz5], [GetNode] now names
    [node-a], and [verifyKeys] counts one incorrect key. *)
Theorem RemoveNode_misplaces_after_collision :
  run canonical 1 collide_ops = Ret collide ∧
  hashKey (vnodeKey "node-2abx0lg" 0) = hashKey (vnodeKey "node-2ll2cz5" 0) ∧
  placed collide ∧
  verifyKeys canonical collide {["user_10" := "data_for_user_10"]} = (1, 0) ∧
  ∃ ch' out,
    RemoveNode canonical collide "node-2abx0lg" = Ret (ch', None, out) ∧
    stored (nodes ch') "node-2ll2cz5" "user_10" "data_for_user_10" ∧
    GetNode ch' "user_10" = ("node-a", None) ∧
    ¬ placed ch' ∧
    verifyKeys canonical ch' {["user_10" := "data_for_user_10"]} = (0, 1).
Proof.
  split_and!.
  - vm_compute. reflexivity.
  - vm_compute. reflexivity.
  - apply (placed_no_remove canonical 1 collide_ops); [apply canonical_fair| |].
    + intros nm Hin. unfold collide_ops in Hin.
      repeat (apply elem_of_cons in Hin as [?|Hin]; [done|]).
      by apply elem_of_nil in Hin.
    + vm_compute. reflexivity.
  - vm_compute. reflexivity.
  - destruct (RemoveNode canonical collide "node-2abx0lg")
      as [|[[ch' e] out]] eqn:Hrun; [by vm_compute in Hrun|].
    assert (e = None ∧
            stored (nodes ch') "node-2ll2cz5" "user_10" "data_for_user_10" ∧
            GetNode ch' "user_10" = ("node-a", None) ∧
            verifyKeys canonical ch' {["user_10" := "data_for_user_10"]} = (0, 1))
      as (-> & Hst & HG & Hver).
    { vm_compute in Hrun. injection Hrun as <- <- <-.
      split_and!; [done| |vm_compute; reflexivity..].
      eexists. split; vm_compute; reflexivity. }
    exists ch', out. split_and!; [done..| |done].
    intros Hplaced. specialize (Hplaced _ _ _ Hst). by rewrite HG in Hplaced.
Qed.

(** * Further properties of the program *)

(** ** What [AddNode] and [RemoveNode] leave behind *)

Lemma ring_remove_from_ring ch nm :
  ring (remove_from_ring ch nm) =
  filter (λ p, p ∉ vnodeHashes nm (vnodes ch)) (ring ch).
Proof.
  unfold remove_from_ring. rewrite foldl_remove_vnode. simpl.
  apply list_filter_iff. intros p.
  rewrite lookup_foldl_mark, lookup_empty.
  fold (vnodeHashes nm (vnodes ch)).
  destruct (decide (p ∈ vnodeHashes nm (vnodes ch))); simpl; intuition congruence.
Qed.

(** X1. [AddNode] never panics. It keeps the number of VNodes per node, and
    the registered nodes after it are the ones before it and [nodeName].
    When [nodeName] was not registered, the ring it leaves is sorted and holds
    the old positions and the VNode positions of [nodeName] (one entry each,
    duplicates kept), and the owner mapping names [nodeName] at these
    positions and is unchanged elsewhere. *)
Theorem AddNode_registers range ch nodeName :
  fair range →
  ∃ ch' out, AddNode range ch nodeName = Ret (ch', out) ∧
    vnodes ch' = vnodes ch ∧
    (∀ n, is_Some (nodes ch' !! n) ↔ n = nodeName ∨ is_Some (nodes ch !! n)) ∧
    (nodes ch !! nodeName = None →
     Sorted Z.le (ring ch') ∧
     ring ch' ≡ₚ (ring ch ++ vnodeHashes nodeName (vnodes ch))%list ∧
     ∀ p, hashMap ch' !! p =
          if decide (p ∈ vnodeHashes nodeName (vnodes ch)) then Some nodeName
          else hashMap ch !! p).
Proof.
  intros Hfair. destruct (nodes ch !! nodeName) as [d|] eqn:Hn.
  - exists ch, [MsgNodeAlreadyExists nodeName].
    split; [apply AddNode_present; eauto|].
    split; [done|]. split; [|done].
    intros n; split; [tauto|]. intros [->|]; eauto.
  - destruct (AddNode_new range Hfair ch nodeName Hn)
      as (ch' & out & d' & HA & Hr & Hh & Hv & Hd' & Hs & _).
    exists ch', out. split; [done|]. split; [done|]. split.
    + intros n. destruct (decide (n = nodeName)) as [->|Hne].
      * rewrite Hd'. split; eauto.
      * rewrite (Hs n Hne), fmap_is_Some. split; [eauto|]. by intros [|].
    + intros _. rewrite Hr, Hh. split; [apply Sorted_ring_add|]. split.
      * rewrite ring_add_to_ring. unfold sort_ring. apply merge_sort_Permutation.
      * intros p. apply hashMap_add_to_ring.
Qed.

Lemma AddNode_registers_witness :
  fair canonical ∧
  ∃ ch' out, AddNode canonical demo "C" = Ret (ch', out) ∧
    vnodes ch' = vnodes demo ∧
    (∀ n, is_Some (nodes ch' !! n) ↔ n = "C" ∨ is_Some (nodes demo !! n)) ∧
    (nodes demo !! "C" = None →
     Sorted Z.le (ring ch') ∧
     ring ch' ≡ₚ (ring demo ++ vnodeHashes "C" (vnodes demo))%list ∧
     ∀ p, hashMap ch' !! p =
          if decide (p ∈ vnodeHashes "C" (vnodes demo)) then Some "C"
          else hashMap demo !! p).
Proof.
  split; [apply canonical_fair|].
  apply (AddNode_registers canonical demo "C"), canonical_fair.
Defined.

(** X2. On a sorted ring, [AddNode] changes the answer of [GetNode] for a key,
    stored or not, in one way only: to the node just added. *)
Theorem AddNode_redirects_to_new_node_only range ch nodeName ch' out key :
  fair range → Sorted Z.le (ring ch) →
  AddNode range ch nodeName = Ret (ch', out) →
  (GetNode ch' key).1 = nodeName ∨ (GetNode ch' key).1 = (GetNode ch key).1.
Proof.
  intros Hfair Hsorted HA. destruct (nodes ch !! nodeName) as [d|] eqn:Hn.
  - rewrite AddNode_present in HA by eauto. injection HA as <- <-. by right.
  - destruct (AddNode_new range Hfair ch nodeName Hn)
      as (ch2 & out2 & d' & HA2 & Hr & Hh & _).
    rewrite HA in HA2. injection HA2 as <- <-.
    rewrite (GetNode_ext ch' (add_to_ring ch nodeName) key Hr Hh).
    by apply GetNode_add_to_ring.
Qed.

Lemma AddNode_redirects_to_new_node_only_witness :
  fair canonical ∧ Sorted Z.le (ring demo) ∧
  AddNode canonical demo "C" = Ret (final (run canonical 2 (demo_ops ++ [OpAdd "C"])),
                                   [MsgAdding "C"; MsgMovedTo 2 "C" {["A" := 1; "B" := 1]}]) ∧
  ((GetNode (final (run canonical 2 (demo_ops ++ [OpAdd "C"]))) "user_36").1 = "C" ∨
   (GetNode (final (run canonical 2 (demo_ops ++ [OpAdd "C"]))) "user_36").1 =
   (GetNode demo "user_36").1).
Proof.
  assert (HA : AddNode canonical demo "C" =
    Ret (final (run canonical 2 (demo_ops ++ [OpAdd "C"])),
         [MsgAdding "C"; MsgMovedTo 2 "C" {["A" := 1; "B" := 1]}]))
    by (vm_compute; reflexivity).
  split; [apply canonical_fair|]. split; [apply demo_sorted|].
  split; [exact HA|].
  exact (AddNode_redirects_to_new_node_only canonical demo "C" _ _ "user_36"
           canonical_fair demo_sorted HA).
Defined.

(** X3. When no VNode position of [nodeName] is recorded for another node,
    [RemoveNode] on a well-formed ring leaves the answer of [GetNode]
    unchanged for every key, stored or not, that did not resolve to
    [nodeName]. *)
Theorem RemoveNode_keeps_other_owners range ch nodeName ch' e out key :
  fair range → ring_ok ch →
  (∀ p m, p ∈ vnodeHashes nodeName (vnodes ch) → hashMap ch !! p = Some m →
          m = nodeName) →
  RemoveNode range ch nodeName = Ret (ch', e, out) →
  (GetNode ch key).1 ≠ nodeName →
  (GetNode ch' key).1 = (GetNode ch key).1.
Proof.
  intros Hfair [Hsorted Hkeys _] Hown HR Hkey.
  destruct (RemoveNode_cases range Hfair ch nodeName)
    as [[_ HR2]|[(d & k & _ & _ & _ & HR2)|(d & ch2 & out2 & _ & _ & HR2 & Hr & Hh & _)]];
    rewrite HR in HR2; [injection HR2 as <- _ _; done|done|].
  injection HR2 as <- _.
  rewrite (GetNode_ext ch' (remove_from_ring ch nodeName) key Hr Hh).
  apply GetNode_remove_from_ring; [done| |done|done].
  intros p Hp. by apply Hkeys.
Qed.

Lemma RemoveNode_keeps_other_owners_witness :
  fair canonical ∧ ring_ok demo ∧
  (∀ p m, p ∈ vnodeHashes "A" (vnodes demo) → hashMap demo !! p = Some m → m = "A") ∧
  RemoveNode canonical demo "A" =
    Ret (final (run canonical 2 (demo_ops ++ [OpRemove "A"])), None,
         [MsgRemoving "A"; MsgMovedFrom 2 "A" {["B" := 2]}]) ∧
  (GetNode demo "user_0").1 ≠ "A" ∧
  (GetNode (final (run canonical 2 (demo_ops ++ [OpRemove "A"]))) "user_0").1 =
  (GetNode demo "user_0").1.
Proof.
  assert (Hown : ∀ p m, p ∈ vnodeHashes "A" (vnodes demo) →
                        hashMap demo !! p = Some m → m = "A").
  { intros p m Hp. vm_compute in Hp.
    apply elem_of_cons in Hp as [->|Hp]; [vm_compute; congruence|].
    apply elem_of_cons in Hp as [->|Hp]; [vm_compute; congruence|].
    apply elem_of_nil in Hp. destruct Hp. }
  assert (HR : RemoveNode canonical demo "A" =
    Ret (final (run canonical 2 (demo_ops ++ [OpRemove "A"])), None,
         [MsgRemoving "A"; MsgMovedFrom 2 "A" {["B" := 2]}]))
    by (vm_compute; reflexivity).
  assert (Hkey : (GetNode demo "user_0").1 ≠ "A") by by_compute.
  split; [apply canonical_fair|]. split; [exact (proj1 demo_inv)|].
  split; [exact Hown|]. split; [exact HR|]. split; [exact Hkey|].
  exact (RemoveNode_keeps_other_owners canonical demo "A" _ _ _ "user_0"
           canonical_fair (proj1 demo_inv) Hown HR Hkey).
Defined.

(** X4. After [RemoveNode] has returned for a registered node, the node is
    gone from the three structures: it has no store, none of its VNode
    positions is in the ring or in the owner mapping, and the ring is the old
    one without these positions. The other nodes stay registered, the error
    is [nil], and a second [RemoveNode] of the name returns the not-found
    error and changes nothing. *)
Theorem RemoveNode_unregisters range ch nodeName dataToMove ch' e out :
  fair range → nodes ch !! nodeName = Some dataToMove →
  RemoveNode range ch nodeName = Ret (ch', e, out) →
  e = None ∧ vnodes ch' = vnodes ch ∧
  (∀ n, is_Some (nodes ch' !! n) ↔ n ≠ nodeName ∧ is_Some (nodes ch !! n)) ∧
  ring ch' = filter (λ p, p ∉ vnodeHashes nodeName (vnodes ch)) (ring ch) ∧
  (∀ p, hashMap ch' !! p =
        if decide (p ∈ vnodeHashes nodeName (vnodes ch)) then None
        else hashMap ch !! p) ∧
  RemoveNode range ch' nodeName = Ret (ch', Some (ErrNodeNotFound nodeName), []).
Proof.
  intros Hfair Hn HR.
  destruct (RemoveNode_cases range Hfair ch nodeName)
    as [[Hn2 _]|[(d & k & _ & _ & _ & HR2)|(d & ch2 & out2 & _ & _ & HR2 & Hr & Hh & Hv & Hs)]];
    [congruence|congruence|].
  rewrite HR in HR2. injection HR2 as <- <- _.
  assert (Hdom : ∀ n, is_Some (nodes ch' !! n) ↔ n ≠ nodeName ∧ is_Some (nodes ch !! n)).
  { intros n. rewrite Hs, fmap_is_Some.
    destruct (decide (n = nodeName)) as [->|Hne].
    - rewrite lookup_delete_eq. split; [by intros []|tauto].
    - rewrite lookup_delete_ne by done. tauto. }
  split; [done|]. split; [done|]. split; [done|]. split; [|split].
  - rewrite Hr. apply ring_remove_from_ring.
  - intros p. rewrite Hh. apply hashMap_remove_from_ring.
  - apply RemoveNode_absent. apply eq_None_not_Some. rewrite Hdom. tauto.
Qed.

Lemma RemoveNode_unregisters_witness :
  fair canonical ∧
  nodes demo !! "A" = Some {["user_8" := "data_for_user_8";
                             "user_37" := "data_for_user_37"]} ∧
  let ch' := final (run canonical 2 (demo_ops ++ [OpRemove "A"])) in
  RemoveNode canonical demo "A" =
    Ret (ch', None, [MsgRemoving "A"; MsgMovedFrom 2 "A" {["B" := 2]}]) ∧
  vnodes ch' = vnodes demo ∧
  (∀ n, is_Some (nodes ch' !! n) ↔ n ≠ "A" ∧ is_Some (nodes demo !! n)) ∧
  ring ch' = filter (λ p, p ∉ vnodeHashes "A" (vnodes demo)) (ring demo) ∧
  (∀ p, hashMap ch' !! p =
        if decide (p ∈ vnodeHashes "A" (vnodes demo)) then None
        else hashMap demo !! p) ∧
  RemoveNode canonical ch' "A" = Ret (ch', Some (ErrNodeNotFound "A"), []).
Proof.
  assert (Hn : nodes demo !! "A" = Some {["user_8" := "data_for_user_8";
                                          "user_37" := "data_for_user_37"]})
    by (vm_compute; reflexivity).
  assert (HR : RemoveNode canonical demo "A" =
    Ret (final (run canonical 2 (demo_ops ++ [OpRemove "A"])), None,
         [MsgRemoving "A"; MsgMovedFrom 2 "A" {["B" := 2]}]))
    by (vm_compute; reflexivity).
  split; [apply canonical_fair|]. split; [exact Hn|]. split; [exact HR|].
  exact (proj2 (RemoveNode_unregisters canonical demo "A" _ _ _ _
                  canonical_fair Hn HR)).
Defined.

(** ** [verifyKeys] *)

Lemma lookup_foldl_locate (n : string) (keys : list string)
    (locs : gmap string string) k :
  foldl (λ locs key, <[key := n]> locs) locs keys !! k =
  if decide (k ∈ keys) then Some n else locs !! k.
Proof.
  revert locs. induction keys as [|key keys IH]; intros locs; cbn [foldl].
  { rewrite decide_False; [done|apply not_elem_of_nil]. }
  rewrite IH. destruct (decide (k = key)) as [->|Hne].
  - rewrite lookup_insert_eq, (decide_True (P := key ∈ key :: keys)) by left.
    by destruct (decide (key ∈ keys)).
  - rewrite lookup_insert_ne by done.
    destruct (decide (k ∈ keys)) as [Hin|Hin].
    + rewrite decide_True; [done|by right].
    + rewrite decide_False; [done|]. by intros [?|?]%elem_of_cons.
Qed.

Section actualLocations.
Context (range : ranger) (Hfair : fair range).

Lemma foldl_locate_Some (E : list (string * gmap string string))
    (locs : gmap string string) k n :
  foldl (λ locs '(nodeName, data),
           foldl (λ locs key, <[key := nodeName]> locs) locs (range _ data).*1)
        locs E !! k = Some n →
  locs !! k = Some n ∨ ∃ data, (n, data) ∈ E ∧ is_Some (data !! k).
Proof.
  revert locs. induction E as [|[m data] E IH]; intros locs; cbn [foldl]; [by left|].
  intros [H|(data' & Hin & Hk)]%IH.
  - rewrite lookup_foldl_locate in H. case_decide as Hin; [|by left].
    injection H as <-. right. exists data. split; [left|].
    by apply (fair_elem_of_fst range Hfair).
  - right. exists data'. split; [by right|done].
Qed.

Lemma foldl_locate_is_Some (E : list (string * gmap string string))
    (locs : gmap string string) k :
  (is_Some (locs !! k) ∨ ∃ n data, (n, data) ∈ E ∧ is_Some (data !! k)) →
  is_Some (foldl (λ locs '(nodeName, data),
                    foldl (λ locs key, <[key := nodeName]> locs) locs
                          (range _ data).*1)
                 locs E !! k).
Proof.
  revert locs. induction E as [|[m data] E IH]; intros locs; cbn [foldl].
  { intros [H|(n & data & Hin & _)]; [done|]. by apply elem_of_nil in Hin. }
  intros H. apply IH.
  destruct (decide (is_Some (data !! k))) as [Hk|Hk].
  - left. rewrite lookup_foldl_locate, decide_True; [eauto|].
    by apply (fair_elem_of_fst range Hfair).
  - destruct H as [H|(n & data' & Hin & Hk')].
    + left. rewrite lookup_foldl_locate. case_decide; eauto.
    + apply elem_of_cons in Hin as [[= -> ->]|Hin]; [done|].
      right. eauto.
Qed.

Lemma actualLocations_Some (ns : stores) k n :
  actualLocations range ns !! k = Some n → ∃ v, stored ns n k v.
Proof.
  intros [H|(data & Hin & [v Hk])]%foldl_locate_Some.
  - by rewrite lookup_empty in H.
  - exists v, data. split; [|done]. by apply (fair_elem_of range Hfair).
Qed.

Lemma actualLocations_is_Some (ns : stores) k n v :
  stored ns n k v → is_Some (actualLocations range ns !! k).
Proof.
  intros (data & Hn & Hk). apply foldl_locate_is_Some. right.
  exists n, data. split; [|eauto]. by apply (fair_elem_of range Hfair).
Qed.

Lemma actualLocations_unique (ns : stores) k n v :
  unique_keys ns → stored ns n k v → actualLocations range ns !! k = Some n.
Proof.
  intros Huniq Hst.
  destruct (actualLocations_is_Some ns k n v Hst) as [m Hm].
  destruct (actualLocations_Some ns k m Hm) as [v' Hst'].
  by rewrite Hm, (Huniq m n k v' v Hst' Hst).
Qed.

Variable ch : ConsistentHashing.

Lemma verifyKeys_step (keys : list string) (acc : Z * Z) :
  foldl (λ '(correct, incorrect) key,
           let '(expectedNode, _) := GetNode ch key in
           match actualLocations range (nodes ch) !! key with
           | None => (correct, incorrect + 1)
           | Some actualNode =>
               if decide (expectedNode = actualNode) then (correct + 1, incorrect)
               else (correct, incorrect + 1)
           end)
        acc keys =
  (acc.1 + Z.of_nat (length (filter (located range ch) keys)),
   acc.2 + Z.of_nat (length (filter (λ key, ¬ located range ch key) keys))).
Proof.
  revert acc. induction keys as [|key keys IH]; intros [c i]; cbn [foldl].
  { simpl. f_equal; lia. }
  rewrite !filter_cons, IH.
  assert (Hl : located range ch key ∨ ¬ located range ch key)
    by (destruct (decide (located range ch key)); tauto).
  destruct Hl as [Hl|Hl].
  - rewrite (decide_True (P := located range ch key)),
      (decide_False (P := ¬ located range ch key)) by tauto.
    unfold located in Hl. destruct (GetNode ch key) as [expected err].
    cbn [fst] in Hl. rewrite Hl, decide_True by done.
    cbn [length fst snd]. f_equal; lia.
  - rewrite (decide_False (P := located range ch key)),
      (decide_True (P := ¬ located range ch key)) by tauto.
    unfold located in Hl. destruct (GetNode ch key) as [expected err].
    cbn [fst] in Hl.
    destruct (actualLocations range (nodes ch) !! key) as [actual|].
    + rewrite decide_False by congruence. cbn [length fst snd]. f_equal; lia.
    + cbn [length fst snd]. f_equal; lia.
Qed.

Lemma verifyKeys_located (users : gmap string string) :
  verifyKeys range ch users =
  (Z.of_nat (length (filter (located range ch) (range _ users).*1)),
   Z.of_nat (length (filter (λ key, ¬ located range ch key) (range _ users).*1))).
Proof.
  unfold verifyKeys. fold (actualLocations range (nodes ch)).
  by rewrite verifyKeys_step.
Qed.

Lemma length_range_keys {A} (m : gmap string A) :
  length (range A m).*1 = size m.
Proof.
  by rewrite length_fmap, (Hfair A m), length_map_to_list.
Qed.

End actualLocations.

(** X5. [verifyKeys] counts every key of [users] once: the two counts are
    not negative and add up to the number of keys. When it counts no key
    incorrect, every key of [users] is in the store of the node [GetNode]
    names for it. *)
Theorem verifyKeys_sound range ch users :
  fair range →
  0 ≤ (verifyKeys range ch users).1 ∧ 0 ≤ (verifyKeys range ch users).2 ∧
  (verifyKeys range ch users).1 + (verifyKeys range ch users).2 =
    Z.of_nat (size users) ∧
  ((verifyKeys range ch users).2 = 0 →
   ∀ key, is_Some (users !! key) →
          ∃ value, stored (nodes ch) (GetNode ch key).1 key value).
Proof.
  intros Hfair. rewrite (verifyKeys_located range ch). cbn [fst snd].
  split; [lia|]. split; [lia|]. split.
  - rewrite <- (length_range_keys range Hfair users), <- Nat2Z.inj_add.
    f_equal. induction (range _ users).*1 as [|key keys IH]; [done|].
    rewrite !filter_cons.
    destruct (decide (located range ch key)) as [Hl|Hl].
    + rewrite decide_False by tauto. cbn [length]. lia.
    + rewrite decide_True by done. cbn [length]. lia.
  - intros Hnone key Hkey.
    apply (actualLocations_Some range Hfair).
    apply (fair_elem_of_fst range Hfair) in Hkey.
    assert (Hnil : filter (λ key, ¬ located range ch key) (range _ users).*1 = [])
      by (apply (proj1 (length_zero_iff_nil _)); lia).
    destruct (decide (located range ch key)) as [Hl|Hl]; [done|].
    assert (Hin : key ∈ filter (λ key, ¬ located range ch key) (range _ users).*1)
      by by apply list_elem_of_filter.
    rewrite Hnil in Hin. by apply elem_of_nil in Hin.
Qed.

Lemma verifyKeys_sound_witness :
  fair canonical ∧
  0 ≤ (verifyKeys canonical demo (make_users 9)).1 ∧
  0 ≤ (verifyKeys canonical demo (make_users 9)).2 ∧
  (verifyKeys canonical demo (make_users 9)).1 +
  (verifyKeys canonical demo (make_users 9)).2 = Z.of_nat (size (make_users 9)) ∧
  ((verifyKeys canonical demo (make_users 9)).2 = 0 →
   ∀ key, is_Some (make_users 9 !! key) →
          ∃ value, stored (nodes demo) (GetNode demo key).1 key value).
Proof.
  split; [apply canonical_fair|].
  apply (verifyKeys_sound canonical demo (make_users 9)), canonical_fair.
Defined.

Lemma verifyKeys_all_located range ch users :
  fair range → unique_keys (nodes ch) →
  (∀ key, is_Some (users !! key) →
          ∃ value, stored (nodes ch) (GetNode ch key).1 key value) →
  verifyKeys range ch users = (Z.of_nat (size users), 0).
Proof.
  intros Hfair Huniq Hall. rewrite (verifyKeys_located range ch).
  assert (Hloc : ∀ key, key ∈ (range _ users).*1 → located range ch key).
  { intros key Hkey%(fair_elem_of_fst range Hfair).
    destruct (Hall key Hkey) as [value Hst].
    by apply (actualLocations_unique range Hfair _ _ _ value). }
  rewrite <- (length_range_keys range Hfair users).
  revert Hloc. generalize (range _ users).*1. intros keys Hloc.
  induction keys as [|key keys IH]; [done|].
  rewrite !filter_cons, decide_True, decide_False; cbn [length].
  - specialize (IH ltac:(intros; apply Hloc; by right)).
    injection IH as IH1 IH2. f_equal; lia.
  - intros Hn. apply Hn, Hloc. left.
  - apply Hloc. left.
Qed.

(** X6. When no key is in two stores, [verifyKeys] counts a key of [users]
    correct exactly when it is in the store of the node [GetNode] names for
    it; so when every key of [users] is, it reports all of them correct and
    none incorrect. *)
Theorem verifyKeys_complete range ch users :
  fair range → unique_keys (nodes ch) →
  (∀ key, is_Some (users !! key) →
          ∃ value, stored (nodes ch) (GetNode ch key).1 key value) →
  verifyKeys range ch users = (Z.of_nat (size users), 0).
Proof. apply verifyKeys_all_located. Qed.

Lemma verifyKeys_complete_witness :
  fair canonical ∧ unique_keys (nodes demo) ∧
  (∀ key, is_Some (({["user_8" := "x"; "user_36" := "y"]} : gmap string string) !! key) →
          ∃ value, stored (nodes demo) (GetNode demo key).1 key value) ∧
  verifyKeys canonical demo {["user_8" := "x"; "user_36" := "y"]} =
  (Z.of_nat (size ({["user_8" := "x"; "user_36" := "y"]} : gmap string string)), 0).
Proof.
  assert (Hall : ∀ key,
    is_Some (({["user_8" := "x"; "user_36" := "y"]} : gmap string string) !! key) →
    ∃ value, stored (nodes demo) (GetNode demo key).1 key value).
  { intros key [v Hv]. apply lookup_insert_Some in Hv as [[<- _]|[_ Hv]].
    - exists "data_for_user_8". eexists. split; vm_compute; reflexivity.
    - apply lookup_singleton_Some in Hv as [<- _].
      exists "data_for_user_36". eexists. split; vm_compute; reflexivity. }
  split; [apply canonical_fair|].
  split; [exact (placed_unique_keys demo demo_placed)|].
  split; [exact Hall|].
  exact (verifyKeys_complete canonical demo _ canonical_fair
           (placed_unique_keys demo demo_placed) Hall).
Defined.

(** ** Placement of the records *)

(** X7. On every sorted ring whose records are placed, colliding positions
    or not, [AddNode] returns and leaves a sorted ring whose records are
    placed: each is in the store of the node [GetNode] names for its key. *)
Theorem AddNode_keeps_placement range ch nodeName :
  fair range → Sorted Z.le (ring ch) → placed ch →
  ∃ ch' out, AddNode range ch nodeName = Ret (ch', out) ∧
             Sorted Z.le (ring ch') ∧ placed ch'.
Proof.
  intros Hfair Hs Hp.
  destruct (AddNode_returns range ch nodeName Hfair) as (ch' & out & HA).
  exists ch', out. split; [done|]. split; [|by eapply placed_AddNode].
  destruct (nodes ch !! nodeName) eqn:Hn.
  - rewrite AddNode_present in HA by eauto. by injection HA as <- _.
  - destruct (AddNode_new range Hfair ch nodeName Hn)
      as (ch2 & out2 & d' & HA2 & Hr & _).
    rewrite HA in HA2. injection HA2 as <- _. rewrite Hr. apply Sorted_ring_add.
Qed.

Lemma AddNode_keeps_placement_witness :
  fair canonical ∧ Sorted Z.le (ring demo) ∧ placed demo ∧
  ∃ ch' out, AddNode canonical demo "C" = Ret (ch', out) ∧
             Sorted Z.le (ring ch') ∧ placed ch'.
Proof.
  split; [apply canonical_fair|]. split; [apply demo_sorted|].
  split; [apply demo_placed|].
  exact (AddNode_keeps_placement canonical demo "C" canonical_fair
           demo_sorted demo_placed).
Defined.



(** ** Writes through [GetNode] *)

Lemma Put_Panic ch key value :
  Put ch key value = Panic ↔ nodes ch !! (GetNode ch key).1 = None.
Proof.
  unfold Put, store_set. destruct (GetNode ch key) as [node err]. cbn [fst].
  destruct (nodes ch !! node); simpl; split; congruence.
Qed.

Lemma Put_returns ch key value :
  ring_ok ch → ring ch ≠ [] → Put ch key value ≠ Panic.
Proof.
  intros Hok Hne. rewrite Put_Panic.
  destruct (GetNode_nonempty ch key Hne) as (idx & p & Hidx & -> & _).
  cbn [fst]. apply list_elem_of_lookup_2 in Hidx.
  apply (ring_keys ch Hok) in Hidx as [n Hn].
  unfold owner. rewrite Hn. simpl.
  destruct (ring_owners ch Hok p n Hn) as [[d Hd] _]. congruence.
Qed.

Lemma Put_spec ch key value ch' :
  Put ch key value = Ret ch' →
  ring ch' = ring ch ∧ hashMap ch' = hashMap ch ∧ vnodes ch' = vnodes ch ∧
  (∀ n, is_Some (nodes ch' !! n) ↔ is_Some (nodes ch !! n)) ∧
  stored (nodes ch') (GetNode ch' key).1 key value ∧
  ∀ n k v, (n, k) ≠ ((GetNode ch key).1, key) →
           (stored (nodes ch') n k v ↔ stored (nodes ch) n k v).
Proof.
  intros (d & Hd & ->)%Put_Ret. cbn [ring hashMap vnodes nodes].
  split; [done|]. split; [done|]. split; [done|].
  set (ch2 := {| ring := ring ch; hashMap := hashMap ch;
                 nodes := _; vnodes := vnodes ch |}).
  assert (HG : GetNode ch2 key = GetNode ch key) by by apply GetNode_ext.
  rewrite HG. split; [|split].
  - intros n. destruct (decide (n = (GetNode ch key).1)) as [->|Hne].
    + rewrite lookup_insert_eq, Hd. split; eauto.
    + by rewrite lookup_insert_ne.
  - exists (<[key := value]> d). by rewrite !lookup_insert_eq.
  - intros n k v Hnk. unfold stored.
    destruct (decide (n = (GetNode ch key).1)) as [->|Hne].
    + rewrite lookup_insert_eq, Hd.
      assert (k ≠ key) by congruence.
      split; intros (data & [= <-] & Hk); eexists; split; try done.
      * by rewrite lookup_insert_ne in Hk.
      * by rewrite lookup_insert_ne.
    + by rewrite lookup_insert_ne.
Qed.

Lemma Put_records_fresh ch key value ch' :
  Put ch key value = Ret ch' →
  (∀ n v, ¬ stored (nodes ch) n key v) →
  records (nodes ch') = S (records (nodes ch)).
Proof.
  intros (d & Hd & ->)%Put_Ret Hfresh. cbn [nodes].
  pose proof (records_insert_Some (nodes ch) _ d (<[key := value]> d) Hd) as Hrec.
  rewrite map_size_insert_None in Hrec; [lia|].
  apply eq_None_not_Some. intros [v Hv]. apply (Hfresh (GetNode ch key).1 v).
  by exists d.
Qed.

(** X9. The write [ch.nodes[node][key] = value] of the seeding loop, with
    [node] the name [GetNode] returns, panics exactly when that name is not
    registered; it does not on a well-formed ring that is not empty. When it
    returns, ring, owner mapping and registered nodes are unchanged, the
    record is in the store of the node [GetNode] names, and no record with
    another key or in another store appears, disappears or changes. *)
Theorem Put_places_the_record ch key value :
  (Put ch key value = Panic ↔ nodes ch !! (GetNode ch key).1 = None) ∧
  (ring_ok ch → ring ch ≠ [] → Put ch key value ≠ Panic) ∧
  ∀ ch', Put ch key value = Ret ch' →
    ring ch' = ring ch ∧ hashMap ch' = hashMap ch ∧ vnodes ch' = vnodes ch ∧
    (∀ n, is_Some (nodes ch' !! n) ↔ is_Some (nodes ch !! n)) ∧
    stored (nodes ch') (GetNode ch' key).1 key value ∧
    ∀ n k v, (n, k) ≠ ((GetNode ch key).1, key) →
             (stored (nodes ch') n k v ↔ stored (nodes ch) n k v).
Proof.
  split; [apply Put_Panic|]. split; [apply Put_returns|]. apply Put_spec.
Qed.

(** ** Runs without collisions *)

Section without_collisions.
Context (range : ranger) (Hfair : fair range).
Variables (v : Z) (names : list string).
Hypothesis Hv : 0 < v.
Hypothesis Hfree : collision_free v names.

Lemma first_position n : hashKey (vnodeKey n 0) ∈ vnodeHashes n v.
Proof.
  unfold vnodeHashes. apply list_elem_of_fmap. exists 0. split; [done|].
  apply elem_of_seqZ. lia.
Qed.

Lemma first_position_in_ring ch n :
  run_inv v names ch → is_Some (nodes ch !! n) →
  hashKey (vnodeKey n 0) ∈ ring ch.
Proof.
  intros (_ & _ & _ & Hinv) Hn. destruct (Hinv Hfree) as (_ & _ & Hpos).
  apply (Hpos n); [done|]. apply first_position.
Qed.

Lemma ring_nonempty_inv ch n :
  run_inv v names ch → is_Some (nodes ch !! n) → ring ch ≠ [].
Proof.
  intros Hinv Hn E. pose proof (first_position_in_ring ch n Hinv Hn) as H.
  rewrite E in H. by apply elem_of_nil in H.
Qed.

Lemma Put_returns_inv ch key value n :
  run_inv v names ch → is_Some (nodes ch !! n) →
  ∃ ch', Put ch key value = Ret ch' ∧ run_inv v names ch'.
Proof.
  intros Hinv Hn.
  destruct (Put ch key value) as [|ch'] eqn:HP.
  - exfalso. apply (Put_returns ch key value); [apply Hinv| |done].
    by apply (ring_nonempty_inv ch n).
  - exists ch'. split; [done|].
    by apply (run_inv_step range Hfair v names ch (OpPut key value)).
Qed.

Lemma RemoveNode_returns_inv ch nodeName other :
  run_inv v names ch → other ≠ nodeName → is_Some (nodes ch !! other) →
  ∃ ch' e out, RemoveNode range ch nodeName = Ret (ch', e, out) ∧
               run_inv v names ch'.
Proof.
  intros Hinv Hne Hother.
  assert (∃ ch' e out, RemoveNode range ch nodeName = Ret (ch', e, out))
    as (ch' & e & out & HR).
  { destruct (nodes ch !! nodeName) as [data|] eqn:Hn;
      [|rewrite RemoveNode_absent by done; eauto].
    destruct (RemoveNode_present range Hfair ch nodeName data Hn)
      as (ch' & out & HR & _); [|eauto].
    intros k _. pose proof Hinv as (Hok & Hvn & Hnames & _).
    set (ch1 := remove_from_ring ch nodeName).
    assert (Hin1 : ∀ p, p ∈ ring ch1 →
              ∃ n, n ≠ nodeName ∧ hashMap ch1 !! p = Some n ∧
                   is_Some (nodes ch !! n)).
    { intros p [Hp Hnp]%elem_of_ring_remove.
      apply (ring_keys ch Hok) in Hp as [n Hpn].
      destruct (ring_owners ch Hok p n Hpn) as [Hreg Hpos].
      exists n. split; [by intros ->|]. split; [|done].
      unfold ch1. by rewrite hashMap_remove_from_ring, decide_False. }
    assert (Hne1 : ring ch1 ≠ []).
    { intros E.
      assert (H0 : hashKey (vnodeKey other 0) ∈ ring ch1);
        [|rewrite E in H0; by apply elem_of_nil in H0].
      apply elem_of_ring_remove. split; [by apply first_position_in_ring|].
      rewrite Hvn. intros Hin. apply Hne.
      apply (collision_free_disjoint v names Hfree other nodeName
               (hashKey (vnodeKey other 0))); [by apply Hnames| | |done].
      - apply Hnames. eauto.
      - apply first_position. }
    destruct (GetNode_nonempty ch1 k Hne1) as (idx & p & Hidx & -> & _).
    apply list_elem_of_lookup_2 in Hidx.
    destruct (Hin1 p Hidx) as (n & Hnn & Hpn & Hreg).
    cbn [fst]. unfold owner. rewrite Hpn. simpl.
    unfold ch1. by rewrite nodes_remove_from_ring, lookup_delete_ne. }
  exists ch', e, out. split; [done|].
  apply (run_inv_step range Hfair v names ch (OpRemove nodeName)); [done..|].
  simpl. by rewrite HR.
Qed.

Lemma AddNode_returns_inv ch nodeName :
  run_inv v names ch → nodeName ∈ names →
  ∃ ch' out, AddNode range ch nodeName = Ret (ch', out) ∧ run_inv v names ch'.
Proof.
  intros Hinv Hin.
  destruct (AddNode_returns range ch nodeName Hfair) as (ch' & out & HA).
  exists ch', out. split; [done|].
  apply (run_inv_step range Hfair v names ch (OpAdd nodeName)); [done| |].
  - by intros ? [= <-].
  - simpl. by rewrite HA.
Qed.

Lemma seed_spec (l : list (string * string)) ch n0 :
  run_inv v names ch → is_Some (nodes ch !! n0) →
  NoDup l.*1 → (∀ k n val, k ∈ l.*1 → ¬ stored (nodes ch) n k val) →
  ∃ ch', for_each (λ ch entry, Put ch entry.1 entry.2) l ch = Ret ch' ∧
    run_inv v names ch' ∧
    (∀ m, is_Some (nodes ch' !! m) ↔ is_Some (nodes ch !! m)) ∧
    records (nodes ch') = (records (nodes ch) + length l)%nat ∧
    (∀ k val, (k, val) ∈ l → ∃ n, stored (nodes ch') n k val) ∧
    (∀ n k val, stored (nodes ch) n k val → k ∉ l.*1 →
                stored (nodes ch') n k val).
Proof.
  revert ch. induction l as [|[k val] l IH]; intros ch Hinv Hn0 Hnd Hfresh.
  { exists ch. cbn [for_each length].
    split; [done|]. split; [done|]. split; [done|].
    split; [by rewrite Nat.add_0_r|]. split; [|done].
    by intros ?? ?%elem_of_nil. }
  rewrite fmap_cons in Hnd. cbn [fst] in Hnd.
  apply NoDup_cons in Hnd as [Hk Hnd].
  destruct (Put_returns_inv ch k val n0 Hinv Hn0) as (ch1 & HP & Hinv1).
  destruct (Put_spec ch k val ch1 HP) as (Hr & Hh & Hvn & Hdom & Hst & Hoth).
  destruct (IH ch1) as (ch' & Hrun & Hinv' & Hdom' & Hrec & Hl & Hkeep);
    [done|by apply Hdom|done| |].
  { intros k' n val' Hk' Hst'. apply Hoth in Hst'.
    - revert Hst'. apply Hfresh. rewrite fmap_cons. by right.
    - intros [= _ ->]. done. }
  exists ch'. split; [cbn [for_each fst snd]; by rewrite HP|].
  split; [done|]. split; [intros m; by rewrite Hdom', Hdom|]. split; [|split].
  - rewrite Hrec, (Put_records_fresh ch k val ch1 HP); [cbn [length]; lia|].
    intros n val'. apply Hfresh. rewrite fmap_cons. left.
  - intros k' val' [[= -> ->]|Hin]%elem_of_cons; [|by apply Hl].
    eexists. apply Hkeep; [exact Hst|done].
  - intros n k' val' Hst' Hnot. rewrite fmap_cons in Hnot. cbn [fst] in Hnot.
    apply Hkeep; [|intros ?; apply Hnot; by right].
    apply Hoth; [|done]. intros [= _ ->]. apply Hnot. left.
Qed.

End without_collisions.

(** ** Decimal numerals and the names [main] makes *)

Lemma itoa_inj i j : itoa i = itoa j → i = j.
Proof.
  unfold itoa. intros H. apply DecimalZ.to_int_inj.
  assert (Hn : ∀ z, Z.to_int z ≠ Decimal.Pos Decimal.Nil ∧
                    Z.to_int z ≠ Decimal.Neg Decimal.Nil).
  { intros [|p|p]; simpl; split; try discriminate;
      intros [= E]; by apply (DecimalPos.Unsigned.to_uint_nonnil p). }
  apply (f_equal NilZero.int_of_string) in H.
  rewrite !NilZero.isi in H by apply Hn. by injection H.
Qed.

Lemma elem_of_node_names N n :
  n ∈ node_names N ↔ ∃ i, 0 ≤ i < N ∧ n = "node-" ++ itoa i.
Proof.
  unfold node_names. rewrite list_elem_of_fmap. split.
  - intros (i & -> & Hi%elem_of_seqZ). exists i. split; [lia|done].
  - intros (i & Hi & ->). exists i. split; [done|]. apply elem_of_seqZ. lia.
Qed.

Lemma added_OpAdd (l : list string) : added (OpAdd <$> l) = l.
Proof.
  unfold added. induction l as [|n l IH]; [done|].
  rewrite fmap_cons, bind_cons, IH. done.
Qed.

(** ** The inline construction of [main] *)

Lemma sort_Slice_sorted ch : Sorted Z.le (ring ch) → sort_Slice ch = ch.
Proof.
  intros Hs. destruct ch as [r hm ns vn]. unfold sort_Slice. cbn in *.
  f_equal. symmetry. by apply sort_ring_unique.
Qed.

Lemma add_to_ring_sort_Slice ch nm :
  add_to_ring (sort_Slice ch) nm = sort_Slice (register ch nm).
Proof.
  unfold add_to_ring, register, sort_Slice. cbn [ring hashMap nodes vnodes].
  rewrite !foldl_add_vnode. cbn [ring hashMap nodes vnodes]. f_equal.
  symmetry. apply sort_ring_unique; [apply Sorted_sort_ring|].
  unfold sort_ring. by rewrite !merge_sort_Permutation.
Qed.

Lemma nodes_register ch nm : nodes (register ch nm) = <[nm := ∅]> (nodes ch).
Proof. unfold register. by rewrite foldl_add_vnode. Qed.

Lemma vnodes_register ch nm : vnodes (register ch nm) = vnodes ch.
Proof. unfold register. by rewrite foldl_add_vnode. Qed.

Lemma nodes_foldl_register (l : list Z) ch n :
  nodes (foldl (λ ch i, register ch ("node-" ++ itoa i)) ch l) !! n =
  if decide (n ∈ (λ i, "node-" ++ itoa i) <$> l) then Some ∅ else nodes ch !! n.
Proof.
  revert ch. induction l as [|i l IH]; intros ch; cbn [foldl].
  { rewrite decide_False; [done|]. rewrite fmap_nil. apply not_elem_of_nil. }
  rewrite IH, nodes_register, fmap_cons.
  destruct (decide (n ∈ (λ i, "node-" ++ itoa i) <$> l)) as [Hin|Hin].
  - rewrite decide_True; [done|by right].
  - destruct (decide (n = "node-" ++ itoa i)) as [->|Hne].
    + rewrite lookup_insert_eq, decide_True; [done|left].
    + rewrite lookup_insert_ne, decide_False; [done| |done].
      by intros [?|?]%elem_of_cons.
Qed.

Lemma nodes_init_nodes ch N n :
  nodes (init_nodes ch N) !! n =
  if decide (n ∈ node_names N) then Some ∅ else nodes ch !! n.
Proof. unfold init_nodes, sort_Slice. cbn [nodes]. apply nodes_foldl_register. Qed.

Section construction.
Context (range : ranger) (Hfair : fair range).

Lemma range_empty {A} : range A ∅ = [].
Proof.
  apply Permutation_nil_r. rewrite (Hfair A ∅). by rewrite map_to_list_empty.
Qed.

Lemma keys_to_move_empty ch nm :
  (∀ n d, nodes ch !! n = Some d → d = ∅) → keys_to_move range ch nm = ∅.
Proof.
  intros Hempty. unfold keys_to_move.
  assert (Hall : ∀ n d, (n, d) ∈ range _ (nodes ch) → d = ∅).
  { intros n d Hin%(fair_elem_of range Hfair). by apply (Hempty n). }
  revert Hall. generalize (range _ (nodes ch)). intros E HE.
  induction E as [|[n d] E IH]; [done|]. cbn [foldl].
  rewrite (HE n d) by left. unfold collect_node at 2.
  rewrite range_empty, fmap_nil. cbn [foldl].
  destruct (decide (n = nm)); apply IH; intros; eapply HE; by right.
Qed.

Lemma AddNode_empty_stores ch nm :
  nodes ch !! nm = None → (∀ n d, nodes ch !! n = Some d → d = ∅) →
  AddNode range ch nm =
  Ret (add_to_ring ch nm, [MsgAdding nm; MsgMovedTo 0 nm ∅]).
Proof.
  intros Hn Hempty. unfold AddNode.
  rewrite decide_False by (rewrite Hn; by intros []).
  rewrite keys_to_move_empty, range_empty.
  - cbn [for_each bind mv_nodes keysMoved movesBySource].
    by destruct (add_to_ring ch nm).
  - intros n d. rewrite nodes_add_to_ring.
    intros [[_ <-]|[_ Hd]]%lookup_insert_Some; [done|by apply (Hempty n)].
Qed.

Lemma for_each_AddNode_register (l : list Z) ch :
  NoDup l →
  (∀ i, i ∈ l → nodes ch !! ("node-" ++ itoa i) = None) →
  (∀ n d, nodes ch !! n = Some d → d = ∅) →
  for_each (step range) ((λ i, OpAdd ("node-" ++ itoa i)) <$> l) (sort_Slice ch) =
  Ret (sort_Slice (foldl (λ ch i, register ch ("node-" ++ itoa i)) ch l)).
Proof.
  revert ch. induction l as [|i l IH]; intros ch Hnd Hnew Hempty; [done|].
  apply NoDup_cons in Hnd as [Hi Hnd].
  rewrite fmap_cons. cbn [for_each foldl step].
  rewrite AddNode_empty_stores; [|apply Hnew; left|done].
  cbn [bind fst]. rewrite add_to_ring_sort_Slice. apply IH; [done| |].
  - intros j Hj. rewrite nodes_register, lookup_insert_ne; [apply Hnew; by right|].
    intros E. simpl in E. injection E as E. apply itoa_inj in E. by subst.
  - intros n d. rewrite nodes_register.
    intros [[_ <-]|[_ Hd]]%lookup_insert_Some; [done|by apply (Hempty n)].
Qed.

Lemma init_nodes_run ch N :
  Sorted Z.le (ring ch) →
  (∀ n d, nodes ch !! n = Some d → d = ∅) →
  (∀ i, 0 ≤ i < N → nodes ch !! ("node-" ++ itoa i) = None) →
  for_each (step range) (OpAdd <$> node_names N) ch = Ret (init_nodes ch N).
Proof.
  intros Hs Hempty Hnew. unfold node_names. rewrite <- list_fmap_compose.
  rewrite <- (sort_Slice_sorted ch Hs) at 1.
  apply for_each_AddNode_register; [apply NoDup_seqZ| |done].
  intros i Hi%elem_of_seqZ. apply Hnew. lia.
Qed.

End construction.

(** X10. The loop of [main] over the initial nodes, which appends the VNodes
    of every node and sorts the ring once at the end, leaves the state that
    the calls [AddNode("node-0")], [AddNode("node-1")], ... leave, one after
    the other: on a sorted ring whose stores are all empty and where none of
    the names is registered. *)
Theorem init_nodes_as_AddNode range ch initialNodes :
  fair range → Sorted Z.le (ring ch) →
  (∀ n d, nodes ch !! n = Some d → d = ∅) →
  (∀ i, 0 ≤ i < initialNodes → nodes ch !! ("node-" ++ itoa i) = None) →
  for_each (step range) (OpAdd <$> node_names initialNodes) ch =
  Ret (init_nodes ch initialNodes).
Proof. intros Hfair. by apply init_nodes_run. Qed.

Lemma init_nodes_as_AddNode_witness :
  fair canonical ∧ Sorted Z.le (ring (NewConsistentHashing 1000)) ∧
  (∀ n d, nodes (NewConsistentHashing 1000) !! n = Some d → d = ∅) ∧
  (∀ i, 0 ≤ i < 10 →
        nodes (NewConsistentHashing 1000) !! ("node-" ++ itoa i) = None) ∧
  run canonical 1000 (OpAdd <$> node_names 10) =
  Ret (init_nodes (NewConsistentHashing 1000) 10).
Proof.
  assert (Hs : Sorted Z.le (ring (NewConsistentHashing 1000))) by constructor.
  assert (He : ∀ n d, nodes (NewConsistentHashing 1000) !! n = Some d → d = ∅)
    by (by intros n d Hd).
  assert (Hn : ∀ i, 0 ≤ i < 10 →
             nodes (NewConsistentHashing 1000) !! ("node-" ++ itoa i) = None)
    by (by intros i _).
  split; [apply canonical_fair|]. split; [exact Hs|]. split; [exact He|].
  split; [exact Hn|].
  exact (init_nodes_as_AddNode canonical (NewConsistentHashing 1000) 10
           canonical_fair Hs He Hn).
Defined.

(** ** No key is lost *)

Lemma AddNode_keeps_keys range ch nm ch' out n k v :
  fair range → AddNode range ch nm = Ret (ch', out) →
  stored (nodes ch) n k v →
  ∃ n' v', stored (nodes ch') n' k v' ∧ (unique_keys (nodes ch) → v' = v).
Proof.
  intros Hfair HA Hst. destruct (nodes ch !! nm) as [d|] eqn:Hn.
  { rewrite AddNode_present in HA by eauto. injection HA as <- _. eauto. }
  destruct (AddNode_stored range Hfair ch nm ch' out Hn HA) as [Hback Hforth].
  destruct (Hforth n k v Hst) as (_ & Hstay & Hmove).
  destruct (decide ((GetNode ch' k).1 = nm)) as [Hg|Hg].
  - destruct (Hmove Hg) as [[v' Hv'] _]. exists nm, v'. split; [done|].
    intros Huniq.
    destruct (Hback nm k v' Hv') as [(_ & _ & s & Hs)|(Hne & _)]; [|done].
    pose proof (Huniq s n k v' v Hs Hst) as ->.
    destruct Hs as (d1 & Hd1 & Hk1), Hst as (d2 & Hd2 & Hk2). congruence.
  - exists n, v. split; [by apply Hstay|done].
Qed.

Lemma RemoveNode_keeps_keys range ch nm ch' e out n k v :
  fair range → RemoveNode range ch nm = Ret (ch', e, out) →
  stored (nodes ch) n k v →
  ∃ n' v', stored (nodes ch') n' k v' ∧ (unique_keys (nodes ch) → v' = v).
Proof.
  intros Hfair HR Hst. destruct (nodes ch !! nm) as [data|] eqn:Hn.
  2:{ rewrite RemoveNode_absent in HR by done. injection HR as <- _ _. eauto. }
  destruct (RemoveNode_stored range Hfair ch nm data ch' e out Hn HR)
    as (_ & _ & Hother & Hmoved).
  destruct (decide (n = nm)) as [->|Hne].
  - destruct Hst as (d & Hd & Hk). rewrite Hn in Hd. injection Hd as <-.
    destruct (Hmoved k v Hk) as [_ Hst']. eauto.
  - destruct (Hother n k v Hst Hne) as [[v' Hv'] Hsame].
    destruct (data !! k) as [w|] eqn:Hw; [|exists n, v; split; [auto|done]].
    exists n, v'. split; [done|]. intros Huniq. destruct Hne.
    apply (Huniq n nm k v w Hst). by exists data.
Qed.

(** ** The records of [main] *)

Lemma make_users_S (n : nat) :
  make_users (Z.of_nat (S n)) =
  <["user_" ++ itoa (Z.of_nat n) := "data_for_" ++ ("user_" ++ itoa (Z.of_nat n))]>
    (make_users (Z.of_nat n)).
Proof. unfold make_users. by rewrite seqZ_S, foldl_app, Z.add_0_l. Qed.

Lemma make_users_nat (n : nat) k v :
  make_users (Z.of_nat n) !! k = Some v ↔
  ∃ i, 0 ≤ i < Z.of_nat n ∧ k = "user_" ++ itoa i ∧ v = "data_for_" ++ k.
Proof.
  induction n as [|n IH].
  { unfold make_users. simpl. rewrite lookup_empty. split; [done|].
    intros (i & Hi & _). lia. }
  rewrite make_users_S, lookup_insert_Some, IH. split.
  - intros [[<- <-]|[_ (i & Hi & Hk)]].
    + exists (Z.of_nat n). split; [lia|done].
    + exists i. split; [lia|done].
  - intros (i & Hi & -> & ->).
    destruct (decide (i = Z.of_nat n)) as [->|Hne]; [by left|]. right. split.
    + intros E. simpl in E. injection E as E. apply itoa_inj in E. lia.
    + exists i. split; [lia|done].
Qed.

Lemma make_users_lookup U k v :
  make_users U !! k = Some v ↔
  ∃ i, 0 ≤ i < U ∧ k = "user_" ++ itoa i ∧ v = "data_for_" ++ k.
Proof.
  destruct (decide (U ≤ 0)) as [HU|HU].
  - unfold make_users. rewrite seqZ_nil by done. simpl. rewrite lookup_empty.
    split; [done|]. intros (i & Hi & _). lia.
  - rewrite <- (Z2Nat.id U) by lia. apply make_users_nat.
Qed.

Lemma size_make_users U : size (make_users U) = Z.to_nat U.
Proof.
  destruct (decide (U ≤ 0)) as [HU|HU].
  { unfold make_users. rewrite seqZ_nil by done. simpl.
    rewrite map_size_empty. lia. }
  rewrite <- (Z2Nat.id U) at 1 by lia.
  induction (Z.to_nat U) as [|n IH]; [done|].
  rewrite make_users_S, map_size_insert_None, IH; [done|].
  apply eq_None_not_Some. intros [v (i & Hi & E & _)%make_users_nat].
  simpl in E. injection E as E. apply itoa_inj in E. lia.
Qed.

(** X11. The map of records [main] builds has one record for each [i] from 0
    below [numUsers], with the key [user_i] and the value [data_for_user_i],
    and nothing else; the decimal numerals being distinct, it has [numUsers]
    records. *)
Theorem make_users_records numUsers :
  (∀ key value, make_users numUsers !! key = Some value ↔
     ∃ i, 0 ≤ i < numUsers ∧ key = "user_" ++ itoa i ∧
          value = "data_for_" ++ key) ∧
  size (make_users numUsers) = Z.to_nat numUsers.
Proof. split; [apply make_users_lookup|apply size_make_users]. Qed.

(** ** [main] *)

Lemma records_all_empty (ns : stores) :
  (∀ n d, ns !! n = Some d → d = ∅) → records ns = 0%nat.
Proof.
  induction ns as [|n d ns Hn IH] using map_ind; intros Hempty.
  { apply records_empty. }
  rewrite records_insert_None by done.
  rewrite (Hempty n d) by apply lookup_insert_eq.
  rewrite map_size_empty, IH; [done|].
  intros m dm Hm. apply (Hempty m). rewrite lookup_insert_ne; [done|].
  intros ->. congruence.
Qed.

Lemma ring_foldl_register (l : list Z) ch :
  ring (foldl (λ ch i, register ch ("node-" ++ itoa i)) ch l) =
  (ring ch ++ (l ≫= λ i, vnodeHashes ("node-" ++ itoa i) (vnodes ch)))%list ∧
  vnodes (foldl (λ ch i, register ch ("node-" ++ itoa i)) ch l) = vnodes ch.
Proof.
  revert ch. induction l as [|i l IH]; intros ch; cbn [foldl].
  { simpl. by rewrite app_nil_r. }
  destruct (IH (register ch ("node-" ++ itoa i))) as [-> ->].
  rewrite vnodes_register. split; [|done].
  rewrite bind_cons, app_assoc. f_equal.
  unfold register. by rewrite foldl_add_vnode.
Qed.

Section main.
Context (range : ranger) (Hfair : fair range).
Variables numUsers initialNodes numVNodes : Z.

Lemma main_with_no_ring :
  0 < numUsers → initialNodes ≤ 0 ∨ numVNodes ≤ 0 →
  main_with range numUsers initialNodes numVNodes = Panic.
Proof.
  intros HU Hnone. unfold main_with, seed.
  set (ch0 := init_nodes (NewConsistentHashing numVNodes) initialNodes).
  assert (Hring : ring ch0 = []).
  { unfold ch0, init_nodes, sort_Slice. cbn [ring].
    destruct (ring_foldl_register (seqZ 0 initialNodes)
                (NewConsistentHashing numVNodes)) as [-> _].
    cbn [ring vnodes NewConsistentHashing]. rewrite app_nil_l.
    assert (Hb : seqZ 0 initialNodes
                   ≫= (λ i, vnodeHashes ("node-" ++ itoa i) numVNodes) = []).
    { destruct Hnone as [HN|HV]; [by rewrite seqZ_nil|].
      induction (seqZ 0 initialNodes) as [|i l IH]; [done|].
      rewrite bind_cons, IH. unfold vnodeHashes. by rewrite seqZ_nil. }
    by rewrite Hb. }
  assert (Hnone' : nodes ch0 !! "" = None).
  { unfold ch0. rewrite nodes_init_nodes, decide_False; [done|].
    by intros (i & _ & ?)%elem_of_node_names. }
  destruct (range _ (make_users numUsers)) as [|[k val] l] eqn:Hl.
  { apply (f_equal length) in Hl.
    rewrite <- (length_fmap fst), (length_range_keys range Hfair),
      size_make_users in Hl. simpl in Hl. lia. }
  cbn [for_each fst snd].
  assert (HP : Put ch0 k val = Panic).
  { apply Put_Panic. by rewrite (GetNode_empty ch0 k Hring). }
  by rewrite HP.
Qed.

Hypothesis HN : 0 < initialNodes.
Hypothesis HV : 0 < numVNodes.
Hypothesis Hfree :
  collision_free numVNodes (node_names initialNodes ++ ["node-10"]).

Lemma main_with_returns :
  main_with range numUsers initialNodes numVNodes =
  Ret ([Z.max 0 numUsers; Z.max 0 numUsers; Z.max 0 numUsers],
       (Z.max 0 numUsers, 0)).
Proof.
  set (names := (node_names initialNodes ++ ["node-10"])%list) in *.
  set (users := make_users numUsers).
  set (ch0 := init_nodes (NewConsistentHashing numVNodes) initialNodes).
  assert (Hrun0 : for_each (step range) (OpAdd <$> node_names initialNodes)
                    (NewConsistentHashing numVNodes) = Ret ch0).
  { apply (init_nodes_run range Hfair); [constructor|by intros n d Hd|by intros i _]. }
  assert (Hinv0 : run_inv numVNodes names ch0).
  { apply (run_inv_steps range Hfair numVNodes names _ _ _
             (run_inv_New _ _)) in Hrun0; [done|].
    intros n. rewrite added_OpAdd. intros Hn. apply elem_of_app. by left. }
  assert (Hreg0 : is_Some (nodes ch0 !! "node-0")).
  { unfold ch0. rewrite nodes_init_nodes, decide_True; [eauto|].
    apply elem_of_node_names. exists 0. split; [lia|done]. }
  assert (Hstores0 : ∀ n d, nodes ch0 !! n = Some d → d = ∅).
  { intros n d. unfold ch0. rewrite nodes_init_nodes.
    case_decide; [congruence|done]. }
  assert (Hempty0 : ∀ k n val, ¬ stored (nodes ch0) n k val).
  { intros k n val (d & Hd & Hk). by rewrite (Hstores0 n d Hd) in Hk. }
  destruct (seed_spec range Hfair numVNodes names HV Hfree (range _ users)
              ch0 "node-0" Hinv0 Hreg0)
    as (ch1 & Hseed & Hinv1 & Hdom1 & Hrec1 & Hst1 & _);
    [apply (fair_NoDup_fst range Hfair)|intros; apply Hempty0|].
  destruct (RemoveNode_returns_inv range Hfair numVNodes names HV Hfree
              ch1 "node-4" "node-0" Hinv1)
    as (ch2 & e & out2 & HR & Hinv2); [done|by apply Hdom1|].
  destruct (AddNode_returns_inv range Hfair numVNodes names ch2 "node-10" Hinv2)
    as (ch3 & out3 & HA & Hinv3); [apply elem_of_app; right; left|].
  assert (Hpl1 : placed ch1) by apply Hinv1, Hfree.
  assert (Hpl3 : placed ch3) by apply Hinv3, Hfree.
  pose proof (placed_unique_keys ch1 Hpl1) as Hu1.
  destruct (RemoveNode_records range Hfair ch1 "node-4" Hu1 ch2 e out2 HR)
    as [Hrec2 Hu2].
  destruct (AddNode_records range Hfair ch2 "node-10" Hu2 ch3 out3 HA)
    as [Hrec3 Hu3].
  assert (Hsize : Z.of_nat (size users) = Z.max 0 numUsers).
  { unfold users. rewrite size_make_users. lia. }
  assert (Hrec : Z.of_nat (records (nodes ch1)) = Z.max 0 numUsers).
  { rewrite Hrec1, (records_all_empty _ Hstores0), Nat.add_0_l.
    rewrite <- (length_fmap fst), (length_range_keys range Hfair). done. }
  unfold main_with, seed. fold users ch0. rewrite Hseed. cbn [bind].
  rewrite HR. cbn [bind fst]. rewrite HA. cbn [bind fst].
  rewrite !(totalRecords_records range) by done.
  rewrite Hrec3, Hrec2, Hrec, (verifyKeys_all_located range ch3 users Hfair Hu3),
    Hsize; [done|].
  intros key [val Hkey].
  apply (fair_elem_of range Hfair) in Hkey.
  destruct (Hst1 key val Hkey) as [n1 Hs1].
  destruct (RemoveNode_keeps_keys range ch1 "node-4" ch2 e out2 n1 key val
              Hfair HR Hs1) as (n2 & v2 & Hs2 & _).
  destruct (AddNode_keeps_keys range ch2 "node-10" ch3 out3 n2 key v2
              Hfair HA Hs2) as (n3 & v3 & Hs3 & _).
  exists v3. by rewrite (Hpl3 n3 key v3 Hs3).
Qed.

End main.

(** ** [AddNode] undone by [RemoveNode] *)

Lemma filter_all {A} (P : A → Prop) `{∀ x, Decision (P x)} (l : list A) :
  (∀ x, x ∈ l → P x) → filter P l = l.
Proof.
  induction l as [|x l IH]; intros Hall; [done|].
  rewrite filter_cons, decide_True by (apply Hall; left).
  f_equal. apply IH. intros y Hy. apply Hall. by right.
Qed.

Lemma filter_none {A} (P : A → Prop) `{∀ x, Decision (P x)} (l : list A) :
  (∀ x, x ∈ l → ¬ P x) → filter P l = [].
Proof.
  induction l as [|x l IH]; intros Hall; [done|].
  rewrite filter_cons, decide_False by (apply Hall; left).
  apply IH. intros y Hy. apply Hall. by right.
Qed.

Section roundtrip.
Context (range : ranger) (Hfair : fair range).
Variables (ch : ConsistentHashing) (nodeName : string).
Hypothesis Hok : ring_ok ch.
Hypothesis Hplaced : placed ch.
Hypothesis Hnew : nodes ch !! nodeName = None.
Hypothesis Hfresh : ∀ p, p ∈ vnodeHashes nodeName (vnodes ch) → p ∉ ring ch.

Lemma ring_add_remove :
  ring (remove_from_ring (add_to_ring ch nodeName) nodeName) = ring ch.
Proof.
  transitivity (sort_ring (ring ch));
    [|symmetry; apply sort_ring_unique; [apply Hok|done]].
  apply sort_ring_unique.
  { apply Sorted_ring_remove, Sorted_ring_add. }
  rewrite ring_remove_from_ring, vnodes_add_to_ring, ring_add_to_ring.
  unfold sort_ring. rewrite merge_sort_Permutation, filter_app.
  rewrite filter_all by (intros p Hp Hin; by apply (Hfresh p)).
  rewrite filter_none by (intros p Hp Hn; by apply Hn).
  by rewrite app_nil_r.
Qed.

Lemma hashMap_add_remove :
  hashMap (remove_from_ring (add_to_ring ch nodeName) nodeName) = hashMap ch.
Proof.
  apply map_eq. intros p.
  rewrite hashMap_remove_from_ring, vnodes_add_to_ring, hashMap_add_to_ring.
  case_decide as Hp; [|done]. symmetry. apply eq_None_not_Some.
  intros Hs%(ring_keys ch Hok). by apply (Hfresh p).
Qed.

Lemma AddNode_RemoveNode ch1 out1 :
  AddNode range ch nodeName = Ret (ch1, out1) →
  ∃ out2, RemoveNode range ch1 nodeName = Ret (ch, None, out2).
Proof.
  intros HA.
  destruct (AddNode_new range Hfair ch nodeName Hnew)
    as (ch1' & out1' & d' & HA' & Hr & Hh & Hv & Hd' & Hs & Hd1 & Hd2).
  rewrite HA in HA'. injection HA' as <- <-.
  assert (Hrem : remove_from_ring ch1 nodeName =
                 {| ring := ring ch; hashMap := hashMap ch;
                    nodes := delete nodeName (nodes ch1); vnodes := vnodes ch |}).
  { rewrite <- ring_add_remove, <- hashMap_add_remove.
    unfold remove_from_ring. rewrite !foldl_remove_vnode, !vnodes_add_to_ring,
      Hv, Hr, Hh. done. }
  assert (HG : ∀ ch2 k, ring ch2 = ring ch → hashMap ch2 = hashMap ch →
                        GetNode ch2 k = GetNode ch k)
    by (intros; by apply GetNode_ext).
  destruct (RemoveNode_present range Hfair ch1 nodeName d' Hd')
    as (ch2 & out2 & HR & Hr2 & Hh2 & Hv2 & Hn2).
  { intros k [v Hk]. rewrite Hrem. cbn [nodes].
    rewrite HG by done.
    destruct (Hd1 k v Hk) as [_ [s Hst]].
    rewrite (Hplaced s k v Hst).
    destruct Hst as (ds & Hds & _).
    rewrite lookup_delete_ne by congruence.
    rewrite Hs by congruence. rewrite Hds. eauto. }
  rewrite Hrem in Hr2, Hh2. cbn [ring hashMap] in Hr2, Hh2.
  assert (Hnodes : nodes ch2 = nodes ch).
  { apply map_eq. intros s. rewrite Hn2.
    destruct (decide (s = nodeName)) as [->|Hne].
    { by rewrite lookup_delete_eq, Hnew. }
    rewrite lookup_delete_ne, Hs by done.
    destruct (nodes ch !! s) as [ds|] eqn:Hds; [|done].
    cbn [fmap option_fmap option_map].
    f_equal. apply map_eq. intros k. apply option_eq. intros value.
    rewrite lookup_union_Some_raw, !map_lookup_filter_Some. cbn [fst snd].
    rewrite !(HG _ k Hr2 Hh2).
    split.
    - intros [[Hk Hg]|[_ [Hk _]]]; [|done].
      destruct (Hd1 k value Hk) as [_ [s0 Hst]].
      rewrite (Hplaced s0 k value Hst) in Hg. subst s0.
      destruct Hst as (ds0 & Hds0 & Hk0). congruence.
    - intros Hk.
      assert (Hst : stored (nodes ch) s k value) by by exists ds.
      pose proof (Hplaced s k value Hst) as Hg.
      destruct (decide ((GetNode ch1 k).1 = nodeName)) as [Hm|Hm].
      + left. destruct (Hd2 s k value Hst Hm) as [v' Hv'].
        destruct (Hd1 k v' Hv') as [_ [s0 (ds0 & Hds0 & Hk0)]].
        assert (s0 = s) as -> by (rewrite <- Hg; symmetry;
                                 apply (Hplaced s0 k v'); by exists ds0).
        split; [congruence|done].
      + right. split; [|done]. apply map_lookup_filter_None. left.
        apply eq_None_not_Some. intros [v' Hv'].
        by destruct (Hd1 k v' Hv') as [? _]. }
  exists out2. rewrite HR. do 2 f_equal. f_equal.
  destruct ch2 as [r2 hm2 ns2 v2], ch as [r hm ns v].
  cbn [ring hashMap nodes vnodes] in *. congruence.
Qed.

End roundtrip.

(** X12. [RemoveNode] undoes [AddNode]: on a well-formed ring whose records
    are placed, adding a node that is not registered and whose VNode
    positions are not in the ring, and removing it again, gives back the
    state before the two calls: the same ring, owner mapping and stores, every
    record in the store it was in. *)
Theorem AddNode_then_RemoveNode range ch nodeName :
  fair range → ring_ok ch → placed ch → nodes ch !! nodeName = None →
  (∀ p, p ∈ vnodeHashes nodeName (vnodes ch) → p ∉ ring ch) →
  ∃ ch1 out1 out2,
    AddNode range ch nodeName = Ret (ch1, out1) ∧
    RemoveNode range ch1 nodeName = Ret (ch, None, out2).
Proof.
  intros Hfair Hok Hplaced Hnew Hfresh.
  destruct (AddNode_returns range ch nodeName Hfair) as (ch1 & out1 & HA).
  destruct (AddNode_RemoveNode range Hfair ch nodeName Hok Hplaced Hnew Hfresh
              ch1 out1 HA) as [out2 HR].
  by exists ch1, out1, out2.
Qed.

Lemma AddNode_then_RemoveNode_witness :
  fair canonical ∧ ring_ok demo ∧ placed demo ∧ nodes demo !! "C" = None ∧
  (∀ p, p ∈ vnodeHashes "C" (vnodes demo) → p ∉ ring demo) ∧
  ∃ ch1 out1 out2,
    AddNode canonical demo "C" = Ret (ch1, out1) ∧
    RemoveNode canonical ch1 "C" = Ret (demo, None, out2).
Proof.
  assert (Hnew : nodes demo !! "C" = None) by (vm_compute; reflexivity).
  assert (Hfresh : ∀ p, p ∈ vnodeHashes "C" (vnodes demo) → p ∉ ring demo).
  { intros p Hp. vm_compute in Hp.
    apply elem_of_cons in Hp as [->|Hp]; [by_compute|].
    apply elem_of_cons in Hp as [->|Hp]; [by_compute|].
    apply elem_of_nil in Hp. destruct Hp. }
  split; [apply canonical_fair|]. split; [exact (proj1 demo_inv)|].
  split; [apply demo_placed|]. split; [exact Hnew|]. split; [exact Hfresh|].
  exact (AddNode_then_RemoveNode canonical demo "C" canonical_fair
           (proj1 demo_inv) demo_placed Hnew Hfresh).
Defined.

(** X13. No key is lost: a key that is in a store before [AddNode] or
    [RemoveNode] returns is in a store after it, and with the value it had
    when no key was in two stores. *)
Theorem no_key_lost range ch nodeName n k v :
  fair range → stored (nodes ch) n k v →
  (∀ ch' out, AddNode range ch nodeName = Ret (ch', out) →
     ∃ n' v', stored (nodes ch') n' k v' ∧ (unique_keys (nodes ch) → v' = v)) ∧
  (∀ ch' e out, RemoveNode range ch nodeName = Ret (ch', e, out) →
     ∃ n' v', stored (nodes ch') n' k v' ∧ (unique_keys (nodes ch) → v' = v)).
Proof.
  intros Hfair Hst. split.
  - intros ch' out HA. by apply (AddNode_keeps_keys range ch nodeName ch' out n).
  - intros ch' e out HR.
    by apply (RemoveNode_keeps_keys range ch nodeName ch' e out n).
Qed.

Lemma no_key_lost_witness :
  fair canonical ∧ stored (nodes demo) "A" "user_37" "data_for_user_37" ∧
  (∀ ch' out, AddNode canonical demo "C" = Ret (ch', out) →
     ∃ n' v', stored (nodes ch') n' "user_37" v' ∧
              (unique_keys (nodes demo) → v' = "data_for_user_37")) ∧
  (∀ ch' e out, RemoveNode canonical demo "C" = Ret (ch', e, out) →
     ∃ n' v', stored (nodes ch') n' "user_37" v' ∧
              (unique_keys (nodes demo) → v' = "data_for_user_37")).
Proof.
  assert (Hst : stored (nodes demo) "A" "user_37" "data_for_user_37").
  { eexists. split; vm_compute; reflexivity. }
  split; [apply canonical_fair|]. split; [exact Hst|].
  exact (no_key_lost canonical demo "C" "A" "user_37" "data_for_user_37"
           canonical_fair Hst).
Defined.

(** ** [RemoveNode] undone by [AddNode] *)

Lemma stores_eq (ns1 ns2 : stores) :
  (∀ n, is_Some (ns1 !! n) ↔ is_Some (ns2 !! n)) →
  (∀ n k v, stored ns1 n k v ↔ stored ns2 n k v) →
  ns1 = ns2.
Proof.
  intros Hdom Hst. apply map_eq. intros n.
  destruct (ns1 !! n) as [d1|] eqn:H1, (ns2 !! n) as [d2|] eqn:H2.
  - f_equal. apply map_eq. intros k. apply option_eq. intros v.
    by rewrite <- (stored_lookup ns1 n k v d1 H1), <- (stored_lookup ns2 n k v d2 H2).
  - destruct (proj1 (Hdom n)) as [? ?]; [by rewrite H1|congruence].
  - destruct (proj2 (Hdom n)) as [? ?]; [by rewrite H2|congruence].
  - done.
Qed.

Section undo_remove.
Context (range : ranger) (Hfair : fair range).
Variables (v : Z) (names : list string).
Hypothesis Hv : 0 < v.
Hypothesis Hfree : collision_free v names.

Lemma RemoveNode_AddNode ch nodeName other :
  run_inv v names ch → is_Some (nodes ch !! nodeName) →
  other ≠ nodeName → is_Some (nodes ch !! other) →
  ∃ ch1 out1 out2,
    RemoveNode range ch nodeName = Ret (ch1, None, out1) ∧
    AddNode range ch1 nodeName = Ret (ch, out2).
Proof.
  intros Hinv [data Hn] Hne Hother.
  pose proof Hinv as (Hok & Hvn & Hnames & Hcf).
  destruct (Hcf Hfree) as (Hnd & Hpl & Hpos).
  assert (Hin : nodeName ∈ names) by (apply Hnames; eauto).
  destruct (RemoveNode_returns_inv range Hfair v names Hv Hfree ch nodeName
              other Hinv Hne Hother) as (ch1 & e & out1 & HR & Hinv1).
  destruct (RemoveNode_cases range Hfair ch nodeName)
    as [[Hn2 _]|[(d & k & _ & _ & _ & HR2)|(d & ch1' & out1' & _ & _ & HR2 & Hr1 & Hh1 & Hv1 & Hs1)]];
    [congruence|congruence|].
  rewrite HR in HR2. injection HR2 as <- -> _.
  assert (Hn1 : nodes ch1 !! nodeName = None)
    by (by rewrite Hs1, lookup_delete_eq).
  destruct (AddNode_new range Hfair ch1 nodeName Hn1)
    as (ch2 & out2 & d2 & HA & Hr2 & Hh2 & Hv2 & Hd2 & Hs2 & _).
  exists ch1, out1, out2. split; [done|]. rewrite HA. do 2 f_equal.
  assert (Hring : ring ch2 = ring ch).
  { rewrite Hr2, ring_add_to_ring, Hr1, ring_remove_from_ring, Hv1, Hvn.
    symmetry. apply sort_ring_unique; [apply Hok|].
    rewrite <- (filter_app_complement (λ p, p ∉ vnodeHashes nodeName v) (ring ch))
      at 1.
    apply Permutation_app_head. apply NoDup_Permutation.
    - by apply NoDup_filter.
    - by apply (collision_free_NoDup v names Hfree).
    - intros p. rewrite list_elem_of_filter. split.
      + intros [Hp _]. by destruct (decide (p ∈ vnodeHashes nodeName v)).
      + intros Hp. split; [tauto|]. apply (Hpos nodeName); eauto. }
  assert (Hmap : hashMap ch2 = hashMap ch).
  { apply map_eq. intros p.
    rewrite Hh2, hashMap_add_to_ring, Hh1, hashMap_remove_from_ring, Hv1, Hvn.
    case_decide as Hp; [|done]. symmetry.
    assert (Hpr : p ∈ ring ch) by (apply (Hpos nodeName); eauto).
    apply (ring_keys ch Hok) in Hpr as [m Hm]. rewrite Hm. f_equal.
    destruct (ring_owners ch Hok p m Hm) as [Hreg Hpm]. rewrite Hvn in Hpm.
    apply (collision_free_disjoint v names Hfree m nodeName p); auto. }
  assert (HG : ∀ k, GetNode ch2 k = GetNode ch k)
    by (intros; by apply GetNode_ext).
  assert (Hinv2 : run_inv v names ch2).
  { apply (run_inv_step range Hfair v names ch1 (OpAdd nodeName)); [done| |].
    - by intros ? [= <-].
    - simpl. by rewrite HA. }
  assert (Hpl1 : placed ch1) by apply Hinv1, Hfree.
  assert (Hpl2 : placed ch2) by apply Hinv2, Hfree.
  pose proof (placed_unique_keys ch Hpl) as Hu.
  pose proof (placed_unique_keys ch1 Hpl1) as Hu1.
  assert (Hnodes : nodes ch2 = nodes ch).
  { apply stores_eq.
    - intros n. destruct (decide (n = nodeName)) as [->|Hnn].
      + rewrite Hd2, Hn. split; eauto.
      + by rewrite Hs2, fmap_is_Some, Hs1, fmap_is_Some, lookup_delete_ne.
    - intros n k val. split.
      + intros Hst2.
        assert (∃ n0, stored (nodes ch) n0 k val) as [n0 Hst0].
        { destruct (AddNode_stored range Hfair ch1 nodeName ch2 out2 Hn1 HA)
            as [Hback _].
          assert (∃ n1, stored (nodes ch1) n1 k val) as [n1 Hst1].
          { destruct (Hback n k val Hst2) as [(_ & _ & s & Hs)|(_ & _ & Hs)]; eauto. }
          destruct (RemoveNode_stored range Hfair ch nodeName data ch1 None out1
                      Hn HR) as (_ & Hback1 & _).
          destruct (Hback1 n1 k val Hst1) as [_ [[Hk _]|Hs]]; [|eauto].
          exists nodeName. by exists data. }
        rewrite <- (Hpl2 n k val Hst2), HG, (Hpl n0 k val Hst0). done.
      + intros Hst.
        destruct (RemoveNode_keeps_keys range ch nodeName ch1 None out1 n k val
                    Hfair HR Hst) as (n1 & v1 & Hst1 & Hv1').
        rewrite (Hv1' Hu) in Hst1.
        destruct (AddNode_keeps_keys range ch1 nodeName ch2 out2 n1 k val
                    Hfair HA Hst1) as (n2 & v2 & Hst2 & Hv2').
        rewrite (Hv2' Hu1) in Hst2.
        rewrite <- (Hpl n k val Hst), <- HG, (Hpl2 n2 k val Hst2). done. }
  destruct ch2 as [r2 hm2 ns2 vn2], ch as [r hm ns vn].
  cbn [ring hashMap nodes vnodes] in *. congruence.
Qed.

End undo_remove.

(** X14. [AddNode] undoes [RemoveNode]: in a run with at least one VNode per
    node and VNodes at distinct positions, removing a registered node while
    another node is registered, and adding it again, returns without error
    and gives back the state before the two calls: the same ring, owner
    mapping and stores, every record in the store it was in with the value
    it had. *)
Theorem RemoveNode_then_AddNode range v ops ch nodeName other :
  fair range → 0 < v → collision_free v (added ops) →
  run range v ops = Ret ch →
  is_Some (nodes ch !! nodeName) → other ≠ nodeName →
  is_Some (nodes ch !! other) →
  ∃ ch1 out1 out2,
    RemoveNode range ch nodeName = Ret (ch1, None, out1) ∧
    AddNode range ch1 nodeName = Ret (ch, out2).
Proof.
  intros Hfair Hv Hfree Hrun. apply (RemoveNode_AddNode range Hfair v (added ops));
    [done..|]. by apply (run_inv_run range).
Qed.

Lemma RemoveNode_then_AddNode_witness :
  fair canonical ∧ 0 < 2 ∧ collision_free 2 (added demo_ops) ∧
  run canonical 2 demo_ops = Ret demo ∧
  is_Some (nodes demo !! "A") ∧ "B" ≠ "A" ∧ is_Some (nodes demo !! "B") ∧
  ∃ ch1 out1 out2,
    RemoveNode canonical demo "A" = Ret (ch1, None, out1) ∧
    AddNode canonical ch1 "A" = Ret (demo, out2).
Proof.
  assert (Hv : 0 < 2) by lia.
  assert (HA : is_Some (nodes demo !! "A")) by (vm_compute; eauto).
  assert (Hne : "B" ≠ "A") by discriminate.
  assert (HB : is_Some (nodes demo !! "B")) by (vm_compute; eauto).
  split; [apply canonical_fair|]. split; [exact Hv|].
  split; [apply demo_collision_free|]. split; [apply demo_run|].
  split; [exact HA|]. split; [exact Hne|]. split; [exact HB|].
  exact (RemoveNode_then_AddNode canonical 2 demo_ops demo "A" "B"
           canonical_fair Hv demo_collision_free demo_run HA Hne HB).
Defined.

(** ** Whole runs *)

(** X15. In a run whose nodes have at least one VNode each and whose VNodes
    hash to distinct positions, [RemoveNode] does not panic as long as
    another node stays registered: it returns, and the records are placed
    after it. *)
Theorem RemoveNode_returns_without_collisions range v ops ch nodeName other :
  fair range → 0 < v → collision_free v (added ops) →
  run range v ops = Ret ch →
  other ≠ nodeName → is_Some (nodes ch !! other) →
  ∃ ch' e out, RemoveNode range ch nodeName = Ret (ch', e, out) ∧
               ring ch' ≠ [] ∧ placed ch'.
Proof.
  intros Hfair Hv Hfree Hrun Hne Hother.
  pose proof (run_inv_run range v ops ch Hfair Hrun) as Hinv.
  destruct (RemoveNode_returns_inv range Hfair v (added ops) Hv Hfree ch
              nodeName other Hinv Hne Hother) as (ch' & e & out & HR & Hinv').
  exists ch', e, out. split; [done|]. split; [|by apply Hinv'].
  apply (ring_nonempty_inv v (added ops) Hv Hfree ch' other Hinv').
  destruct (nodes ch !! nodeName) as [data|] eqn:Hn.
  - destruct (RemoveNode_cases range Hfair ch nodeName)
      as [[Hn2 _]|[(d & k & _ & _ & _ & HR2)|(d & ch2 & out2 & _ & _ & HR2 & _ & _ & _ & Hs)]];
      [congruence|congruence|].
    rewrite HR in HR2. injection HR2 as <- _ _.
    rewrite Hs, lookup_delete_ne, fmap_is_Some by done. done.
  - rewrite RemoveNode_absent in HR by done. by injection HR as <- _ _.
Qed.

Lemma RemoveNode_returns_without_collisions_witness :
  fair canonical ∧ 0 < 2 ∧ collision_free 2 (added demo_ops) ∧
  run canonical 2 demo_ops = Ret demo ∧ "B" ≠ "A" ∧ is_Some (nodes demo !! "B") ∧
  ∃ ch' e out, RemoveNode canonical demo "A" = Ret (ch', e, out) ∧
               ring ch' ≠ [] ∧ placed ch'.
Proof.
  assert (Hv : 0 < 2) by lia.
  assert (Hne : "B" ≠ "A") by discriminate.
  assert (HB : is_Some (nodes demo !! "B")) by (vm_compute; eauto).
  split; [apply canonical_fair|]. split; [exact Hv|].
  split; [apply demo_collision_free|]. split; [apply demo_run|].
  split; [exact Hne|]. split; [exact HB|].
  exact (RemoveNode_returns_without_collisions canonical 2 demo_ops demo "A" "B"
           canonical_fair Hv demo_collision_free demo_run Hne HB).
Defined.

(** X16. After a run whose VNodes hash to distinct positions, every record
    is in the store of the node [GetNode] names for its key and no key is in
    two stores; so [verifyKeys] reports every key correct and none incorrect
    for any set of keys that are all stored. *)
Theorem run_without_collisions_verifies range v ops ch users :
  fair range → collision_free v (added ops) → run range v ops = Ret ch →
  (∀ key, is_Some (users !! key) → ∃ n value, stored (nodes ch) n key value) →
  placed ch ∧ unique_keys (nodes ch) ∧
  verifyKeys range ch users = (Z.of_nat (size users), 0).
Proof.
  intros Hfair Hfree Hrun Hall.
  destruct (run_placed range v ops ch Hfair Hfree Hrun) as (Hpl & Hu & _).
  split; [done|]. split; [done|].
  apply verifyKeys_all_located; [done..|].
  intros key Hkey. destruct (Hall key Hkey) as (n & value & Hst).
  exists value. by rewrite (Hpl n key value Hst).
Qed.

Lemma run_without_collisions_verifies_witness :
  fair canonical ∧ collision_free 2 (added demo_ops) ∧
  run canonical 2 demo_ops = Ret demo ∧
  (∀ key, is_Some (({["user_8" := "x"; "user_36" := "y"]} : gmap string string) !! key) →
          ∃ n value, stored (nodes demo) n key value) ∧
  placed demo ∧ unique_keys (nodes demo) ∧
  verifyKeys canonical demo {["user_8" := "x"; "user_36" := "y"]} =
  (Z.of_nat (size ({["user_8" := "x"; "user_36" := "y"]} : gmap string string)), 0).
Proof.
  assert (Hall : ∀ key,
    is_Some (({["user_8" := "x"; "user_36" := "y"]} : gmap string string) !! key) →
    ∃ n value, stored (nodes demo) n key value).
  { intros key [v Hv]. apply lookup_insert_Some in Hv as [[<- _]|[_ Hv]].
    - exists "A", "data_for_user_8". eexists. split; vm_compute; reflexivity.
    - apply lookup_singleton_Some in Hv as [<- _].
      exists "B", "data_for_user_36". eexists. split; vm_compute; reflexivity. }
  split; [apply canonical_fair|]. split; [apply demo_collision_free|].
  split; [apply demo_run|]. split; [exact Hall|].
  exact (run_without_collisions_verifies canonical 2 demo_ops demo _
           canonical_fair demo_collision_free demo_run Hall).
Defined.

(** X17. In a run with at least one VNode per node and VNodes at distinct
    positions, [GetNode] does not fail while a node is registered: for every
    key it returns, without error, the name of a registered node. *)
Theorem GetNode_returns_registered_node range v ops ch other key :
  fair range → 0 < v → collision_free v (added ops) →
  run range v ops = Ret ch → is_Some (nodes ch !! other) →
  ∃ nodeName, GetNode ch key = (nodeName, None) ∧
              is_Some (nodes ch !! nodeName).
Proof.
  intros Hfair Hv Hfree Hrun Hother.
  pose proof (run_inv_run range v ops ch Hfair Hrun) as Hinv.
  pose proof (ring_nonempty_inv v (added ops) Hv Hfree ch other Hinv Hother)
    as Hne.
  destruct (GetNode_nonempty ch key Hne) as (idx & p & Hidx & -> & _).
  apply list_elem_of_lookup_2 in Hidx.
  destruct Hinv as (Hok & _).
  apply (ring_keys ch Hok) in Hidx as [n Hn].
  exists n. unfold owner. rewrite Hn. split; [done|].
  by destruct (ring_owners ch Hok p n Hn).
Qed.

Lemma GetNode_returns_registered_node_witness :
  fair canonical ∧ 0 < 2 ∧ collision_free 2 (added demo_ops) ∧
  run canonical 2 demo_ops = Ret demo ∧ is_Some (nodes demo !! "B") ∧
  ∃ nodeName, GetNode demo "key_0" = (nodeName, None) ∧
              is_Some (nodes demo !! nodeName).
Proof.
  assert (Hv : 0 < 2) by lia.
  assert (HB : is_Some (nodes demo !! "B")) by (vm_compute; eauto).
  split; [apply canonical_fair|]. split; [exact Hv|].
  split; [apply demo_collision_free|]. split; [apply demo_run|].
  split; [exact HB|].
  exact (GetNode_returns_registered_node canonical 2 demo_ops demo "B" "key_0"
           canonical_fair Hv demo_collision_free demo_run HB).
Defined.

(** ** The program *)

Lemma increasing_Sorted l : increasing l = true → StronglySorted Z.lt l.
Proof.
  intros H. apply Sorted_StronglySorted; [intros x y z; lia|].
  induction l as [|x l IH]; [constructor|].
  cbn [increasing] in H. destruct l as [|y l]; [by repeat constructor|].
  apply andb_true_iff in H as [Hxy Hl]. constructor; [by apply IH|].
  constructor. lia.
Qed.

Lemma increasing_NoDup l : increasing (merge_sort Z.le l) = true → NoDup l.
Proof.
  intros H%increasing_Sorted.
  rewrite <- (merge_sort_Permutation Z.le l).
  induction H as [|x s Hs IH Hall]; constructor; [|done].
  intros Hin. rewrite Forall_forall in Hall. specialize (Hall x Hin). lia.
Qed.

Lemma main_collision_free : collision_free 1000 (node_names 10 ++ ["node-10"]).
Proof. apply increasing_NoDup. vm_compute. reflexivity. Qed.

(** X18. [main] with any number of records, with at least one initial node
    and one VNode per node, and with the VNodes of the initial nodes and of
    [node-10] at distinct positions, does not panic; the three totals it
    prints are the number of records, and [verifyKeys] at the end counts
    every record correct and none incorrect. *)
Theorem main_with_verifies range numUsers initialNodes numVNodes :
  fair range → 0 < initialNodes → 0 < numVNodes →
  collision_free numVNodes (node_names initialNodes ++ ["node-10"]) →
  main_with range numUsers initialNodes numVNodes =
  Ret ([Z.max 0 numUsers; Z.max 0 numUsers; Z.max 0 numUsers],
       (Z.max 0 numUsers, 0)).
Proof. intros Hfair. by apply main_with_returns. Qed.

Lemma main_with_verifies_witness :
  fair canonical ∧ 0 < 6 ∧ 0 < 3 ∧
  collision_free 3 (node_names 6 ++ ["node-10"]) ∧
  main_with canonical 20 6 3 =
  Ret ([Z.max 0 20; Z.max 0 20; Z.max 0 20], (Z.max 0 20, 0)).
Proof.
  assert (H6 : 0 < 6) by lia. assert (H3 : 0 < 3) by lia.
  assert (Hfree : collision_free 3 (node_names 6 ++ ["node-10"]))
    by (apply increasing_NoDup; vm_compute; reflexivity).
  split; [apply canonical_fair|]. split; [exact H6|]. split; [exact H3|].
  split; [exact Hfree|].
  exact (main_with_verifies canonical 20 6 3 canonical_fair H6 H3 Hfree).
Defined.

(** X19. The program as it is, with one million records, ten initial nodes
    and a thousand VNodes per node: the 11000 VNode keys of [node-0] to
    [node-10] have distinct checksums, so in whatever order the maps are
    iterated the run does not panic, each of the three statistics totals
    1000000 records, and the verification ends with 1000000 correct keys and
    0 incorrect keys. *)
Theorem main_verifies range :
  fair range →
  main range = Ret ([1000000; 1000000; 1000000], (1000000, 0)).
Proof.
  intros Hfair. unfold main.
  by rewrite (main_with_returns range Hfair 1000000 10 1000)
    by (try lia; apply main_collision_free).
Qed.

Lemma main_verifies_witness :
  fair canonical ∧
  main canonical = Ret ([1000000; 1000000; 1000000], (1000000, 0)).
Proof.
  split; [apply canonical_fair|]. exact (main_verifies canonical canonical_fair).
Defined.

(** X20. With at least one record and no position in the ring, because there
    is no initial node or no VNode per node, [main] panics in the seeding
    loop: [GetNode] returns the empty name with an error that is dropped,
    and the write goes into the store of a node that is not registered. *)
Theorem main_panics_on_empty_ring range numUsers initialNodes numVNodes :
  fair range → 0 < numUsers → initialNodes ≤ 0 ∨ numVNodes ≤ 0 →
  main_with range numUsers initialNodes numVNodes = Panic.
Proof. intros Hfair. by apply main_with_no_ring. Qed.

Lemma main_panics_on_empty_ring_witness :
  fair canonical ∧ 0 < 5 ∧ (5 ≤ 0 ∨ 0 ≤ 0) ∧ main_with canonical 5 5 0 = Panic.
Proof.
  assert (H5 : 0 < 5) by lia.
  assert (H0 : 5 ≤ 0 ∨ 0 ≤ 0) by (right; lia).
  split; [apply canonical_fair|]. split; [exact H5|]. split; [exact H0|].
  exact (main_panics_on_empty_ring canonical 5 5 0 canonical_fair H5 H0).
Defined.
